(** * lookaround-map: the movement plugin and the Look Around adapter

    A shallow embedding of [src/js/viewer/MovementPlugin.js] (the
    [MovementPlugin] class and the [LookaroundAdapter] class it is bundled
    with) and of [src/js/viewer/movementPlugin.js] (the earlier variant of the
    plugin).

    JavaScript numbers are IEEE 754 doubles and are modelled by Rocq's
    primitive floats, so that [<], [>], [===] and the arithmetic of the
    source keep their behaviour on NaN, on signed zeros and under rounding.
    [Date.now()] returns an integer number of milliseconds and is modelled
    by [Z].  Objects that are shared and mutated (the mesh and its material
    array) live in a store and are referred to by identity. *)

From Stdlib Require Import ZArith QArith Lia Bool String.
From Stdlib Require Import Floats Sorted.
From stdpp Require Import base option list gmap strings pretty.

Local Open Scope Z_scope.

(* ===================================================================== *)
(** ** JavaScript numbers *)

Module Js.

(** The outcome of running a piece of JavaScript: a value or a thrown
    exception.  The modelled code raises the [TypeError] of a property
    access on [null] or [undefined], and an [await] raises the reason of a
    rejected promise. *)
Inductive error : Type :=
| TypeError
| Rejection.

Inductive result (A : Type) : Type :=
| Ok (a : A)
| Throw (e : error).
Arguments Ok {A} a.
Arguments Throw {A} e.

(** Handlers read and write the fields of [this]: a computation takes the
    object's state and gives a value or an exception together with the
    state it leaves behind (what was written before a [throw] stays
    written). *)
Definition M (S A : Type) : Type := S -> result A * S.

Definition ret {S A : Type} (a : A) : M S A := fun s => (Ok a, s).

Definition bind {S A B : Type} (m : M S A) (k : A -> M S B) : M S B :=
  fun s =>
    match m s with
    | (Ok a, s') => k a s'
    | (Throw e, s') => (Throw e, s')
    end.

Definition gets {S A : Type} (f : S -> A) : M S A := fun s => (Ok (f s), s).

Definition modify {S : Type} (f : S -> S) : M S unit := fun s => (Ok tt, f s).

Definition throw {S A : Type} (e : error) : M S A := fun s => (Throw e, s).

(** A pure computation that may throw, run inside a handler. *)
Definition lift {S A : Type} (r : result A) : M S A := fun s => (r, s).

Notation "'do!' x ':=' m 'in' k" := (bind m (fun x => k))
  (at level 10, x name, m at level 100, k at level 200).
Notation "m ;;; k" := (bind m (fun _ => k))
  (at level 100, k at level 200, right associativity).

(** [for (const x of l) body]. *)
Fixpoint for_of {S A : Type} (l : list A) (body : A -> M S unit) : M S unit :=
  match l with
  | [] => ret tt
  | x :: rest => body x ;;; for_of rest body
  end.

(** [a === b] on two numbers. *)
Definition strict_eq (a b : float) : bool := PrimFloat.eqb a b.

(** [a === b] where either side may be [undefined] (a missing array
    element): [undefined === undefined], and [undefined] is never equal to
    a number. *)
Definition strict_eq_opt (a b : option float) : bool :=
  match a, b with
  | None, None => true
  | Some x, Some y => strict_eq x y
  | _, _ => false
  end.

(** [ToNumber]: [undefined] becomes NaN. *)
Definition to_number (a : option float) : float :=
  match a with
  | Some x => x
  | None => PrimFloat.nan
  end.

(** [Math.PI]. *)
Definition PI : float := 0x1.921fb54442d18p+1%float.

(** [Math.fround]: the single-precision number nearest to a double (ties
    to even, overflow to an infinity), as a double.  It is what a
    [Float32Array] keeps of a number written into it and gives back when
    the entry is read. *)
Definition fround (x : float) : float :=
  match Prim2SF x with
  | S754_finite s m e => SF2Prim (binary_round 24 128 s m e)
  | _ => x
  end.

(** Order facts about doubles, from the specification of the primitive
    comparisons. *)

Lemma SFltb_trans (a b c : spec_float) :
  SFltb a b = true -> SFltb b c = true -> SFltb a c = true.
Proof.
  unfold SFltb, SFcompare.
  destruct a as [sa|sa| |sa ma ea], b as [sb|sb| |sb mb eb],
    c as [sc|sc| |sc mc ec];
    repeat match goal with s : bool |- _ => destruct s end;
    try discriminate; try reflexivity.
  - destruct (Z.compare_spec ea eb), (Z.compare_spec eb ec),
      (Z.compare_spec ea ec); try discriminate; try reflexivity; try lia.
    rewrite !Pos.compare_cont_spec; simpl.
    destruct (Pos.compare_spec ma mb), (Pos.compare_spec mb mc),
      (Pos.compare_spec ma mc); simpl; try discriminate; try reflexivity; lia.
  - destruct (Z.compare_spec ea eb), (Z.compare_spec eb ec),
      (Z.compare_spec ea ec); try discriminate; try reflexivity; try lia.
    rewrite !Pos.compare_cont_spec; simpl.
    destruct (Pos.compare_spec ma mb), (Pos.compare_spec mb mc),
      (Pos.compare_spec ma mc); simpl; try discriminate; try reflexivity; lia.
Qed.

Lemma SFltb_irrefl (a : spec_float) : SFltb a a = false.
Proof.
  unfold SFltb, SFcompare.
  destruct a as [sa|sa| |sa ma ea]; try destruct sa; try reflexivity;
    rewrite Z.compare_refl, Pos.compare_cont_spec, Pos.compare_refl;
    reflexivity.
Qed.

Lemma ltb_irrefl (a : float) : PrimFloat.ltb a a = false.
Proof. rewrite FloatAxioms.ltb_spec. apply SFltb_irrefl. Qed.

Lemma ltb_asym (a b : float) :
  PrimFloat.ltb a b = true -> PrimFloat.ltb b a = false.
Proof.
  intros Hab. destruct (PrimFloat.ltb b a) eqn:Hba; [|reflexivity].
  rewrite FloatAxioms.ltb_spec in Hab, Hba.
  pose proof (SFltb_trans _ _ _ Hab Hba) as H.
  rewrite SFltb_irrefl in H. discriminate.
Qed.

Lemma ltb_trans (a b c : float) :
  PrimFloat.ltb a b = true -> PrimFloat.ltb b c = true ->
  PrimFloat.ltb a c = true.
Proof. rewrite !FloatAxioms.ltb_spec. apply SFltb_trans. Qed.

(** A number that is not NaN and is not greater than [b] is at most [b]. *)
Lemma not_gt_le (a b : float) :
  PrimFloat.is_nan a = false -> PrimFloat.is_nan b = false ->
  PrimFloat.ltb b a = false -> PrimFloat.leb a b = true.
Proof.
  unfold PrimFloat.is_nan.
  rewrite !FloatAxioms.eqb_spec, !FloatAxioms.ltb_spec, FloatAxioms.leb_spec.
  unfold SFeqb, SFltb, SFleb, SFcompare.
  destruct (Prim2SF a) as [sa|sa| |sa ma ea], (Prim2SF b) as [sb|sb| |sb mb eb];
    repeat match goal with s : bool |- _ => destruct s end;
    try discriminate; try reflexivity.
  - intros _ _. rewrite (Z.compare_antisym ea eb).
    destruct (ea ?= eb)%Z; simpl; try discriminate; try reflexivity.
    rewrite !Pos.compare_cont_spec; simpl.
    rewrite (Pos.compare_antisym ma mb).
    destruct (ma ?= mb)%positive; simpl; try discriminate; reflexivity.
  - intros _ _. rewrite (Z.compare_antisym ea eb).
    destruct (ea ?= eb)%Z; simpl; try discriminate; try reflexivity.
    rewrite !Pos.compare_cont_spec; simpl.
    rewrite (Pos.compare_antisym ma mb).
    destruct (ma ?= mb)%positive; simpl; try discriminate; reflexivity.
Qed.

End Js.

(* ===================================================================== *)
(** ** The movement plugin ([MovementPlugin]) *)

Module Movement.
Import Js.

#[local] Set Warnings "-inexact-float".

(** *** Data *)

(** A panorama as the plugin reads it: [lat], [lon] and [rawElevation];
    [panoid] stands for the rest of the record. *)
Record Pano : Type := {
  panoid : Z;
  lat : float;
  lon : float;
  rawElevation : float;
}.

(** The result of [enuToPhotoSphere]. *)
Record Position : Type := {
  yaw : float;
  pitch : float;
  distance : float;
}.

(** A position on the sphere, [{ latitude, longitude }]. *)
Record SphericalCoords : Type := {
  latitude : float;
  longitude : float;
}.

(** An entry of [this.nearbyPanos]: [{ pano, position, scale }]. *)
Record Candidate : Type := {
  pano : Pano;
  position : Position;
  scale : float;
}.

(** The marker object returned by [addMarker] and changed by
    [updateMarker]. *)
Record Marker : Type := {
  marker_latitude : float;
  marker_longitude : float;
  width : float;
  height : float;
  visible : bool;
  data : option Pano;
}.

(** The fields of the plugin.  [nearbyPanos] is [undefined] until
    [updatePanoMarkers] has run; [lastMousePosition] starts as [null]. *)
Record State : Type := {
  marker : Marker;
  nearbyPanos : option (list Candidate);
  lastMousePosition : option SphericalCoords;
  mouseHasMoved : bool;
  lastProcessedMoveEvent : Z;
  movementEnabled : bool;
}.

Definition Vector3 : Type := float * float * float.

(** What the plugin asks of the viewer ([this.psv]) while it handles one
    event: the conversions of [psv.dataHelper] and [psv.prop.size]. *)
Record Viewer : Type := {
  viewerCoordsToVector3 : float -> float -> option Vector3;
  vector3ToSphericalCoords : Vector3 -> SphericalCoords;
  sphericalCoordsToViewerCoords : SphericalCoords -> float * float;
  size_width : float;
  size_height : float;
}.

(** The [data] argument of the viewer's click event. *)
Record ClickData : Type := {
  rightclick : bool;
  click_latitude : float;
  click_longitude : float;
}.

Definition MAX_DISTANCE : float := 100%float.
Definition CAMERA_HEIGHT : float := 2.4%float.

(** The state the constructor leaves. *)
Definition constructor : State := {|
  marker := {| marker_latitude := 0; marker_longitude := 0;
               width := 1; height := 1; visible := false; data := None |};
  nearbyPanos := None;
  lastMousePosition := None;
  mouseHasMoved := false;
  lastProcessedMoveEvent := 0;
  movementEnabled := true;
|}.

Definition set_marker (m : Marker) (s : State) : State :=
  {| marker := m; nearbyPanos := nearbyPanos s;
     lastMousePosition := lastMousePosition s;
     mouseHasMoved := mouseHasMoved s;
     lastProcessedMoveEvent := lastProcessedMoveEvent s;
     movementEnabled := movementEnabled s |}.

Definition set_nearbyPanos (l : list Candidate) (s : State) : State :=
  {| marker := marker s; nearbyPanos := Some l;
     lastMousePosition := lastMousePosition s;
     mouseHasMoved := mouseHasMoved s;
     lastProcessedMoveEvent := lastProcessedMoveEvent s;
     movementEnabled := movementEnabled s |}.

Definition set_lastMousePosition (p : SphericalCoords) (s : State) : State :=
  {| marker := marker s; nearbyPanos := nearbyPanos s;
     lastMousePosition := Some p;
     mouseHasMoved := mouseHasMoved s;
     lastProcessedMoveEvent := lastProcessedMoveEvent s;
     movementEnabled := movementEnabled s |}.

Definition set_mouseHasMoved (b : bool) (s : State) : State :=
  {| marker := marker s; nearbyPanos := nearbyPanos s;
     lastMousePosition := lastMousePosition s;
     mouseHasMoved := b;
     lastProcessedMoveEvent := lastProcessedMoveEvent s;
     movementEnabled := movementEnabled s |}.

Definition set_lastProcessedMoveEvent (t : Z) (s : State) : State :=
  {| marker := marker s; nearbyPanos := nearbyPanos s;
     lastMousePosition := lastMousePosition s;
     mouseHasMoved := mouseHasMoved s;
     lastProcessedMoveEvent := t;
     movementEnabled := movementEnabled s |}.

Definition set_movementEnabled (b : bool) (s : State) : State :=
  {| marker := marker s; nearbyPanos := nearbyPanos s;
     lastMousePosition := lastMousePosition s;
     mouseHasMoved := mouseHasMoved s;
     lastProcessedMoveEvent := lastProcessedMoveEvent s;
     movementEnabled := b |}.

(** [updateMarker({ id, visible: false, data: null })]. *)
Definition hidden (m : Marker) : Marker :=
  {| marker_latitude := marker_latitude m;
     marker_longitude := marker_longitude m;
     width := width m; height := height m;
     visible := false; data := None |}.

(** [updateMarker({ id, latitude, longitude, width, height, visible: true,
    data })] for the candidate [closest]. *)
Definition shown (closest : Candidate) : Marker :=
  {| marker_latitude := pitch (position closest);
     marker_longitude := yaw (position closest);
     width := 64 * scale closest;
     height := 64 * scale closest;
     visible := true;
     data := Some (pano closest) |}.

(** The rate limit of [_onMouseMove].  [updateLimit] is the double
    [1000/60.0]; [msSinceLastUpdate] is a difference of two [Date.now()]
    values, an integer that a double holds exactly, so the comparison of
    the two is the comparison of their exact values. *)
Definition updateLimit_double : float := (1000 / 60)%float.

Definition updateLimit : Q := 4691249611844267 # 281474976710656.

Definition Qltb (a b : Q) : bool :=
  (Qnum a * Zpos (Qden b) <? Qnum b * Zpos (Qden a))%Z.

Section WithGeo.

(** [geo.js] is not among the sources: its three functions are parameters
    of the model, and [Enu] is whatever [geodeticToEnu] returns. *)
Context {Enu : Type}.
Variable geodeticToEnu : float -> float -> float -> float -> float -> float -> Enu.
Variable enuToPhotoSphere : Enu -> float -> Position.
Variable distanceBetween : float -> float -> float -> float -> float -> float.

(** *** [updatePanoMarkers] *)

(** The position [updatePanoMarkers] computes for [pano] seen from
    [refPano]. *)
Definition positionOf (refPano pano : Pano) : Position :=
  let deltaElevation := ((rawElevation pano - rawElevation refPano) / 80)%float in
  let enu := geodeticToEnu (lon pano) (lat pano) deltaElevation
                           (lon refPano) (lat refPano) CAMERA_HEIGHT in
  enuToPhotoSphere enu 0%float.

(** The body of the loop over [responsePanos], with its two [continue]s;
    the result is what the loop pushes, in order. *)
Fixpoint candidates (refPano : Pano) (responsePanos : list Pano) : list Candidate :=
  match responsePanos with
  | [] => []
  | pano :: rest =>
      if strict_eq (lat refPano) (lat pano) && strict_eq (lon refPano) (lon pano)
      then candidates refPano rest
      else
        let position := positionOf refPano pano in
        if (MAX_DISTANCE <? distance position)%float
        then candidates refPano rest
        else
          let scale := (0.05 + (0.5 - (0.5 * distance position) / 100))%float in
          {| pano := pano; position := position; scale := scale |}
            :: candidates refPano rest
  end.

(** [updatePanoMarkers(refPano)], once the neighbour query has answered
    with [responsePanos]. *)
Definition updatePanoMarkers (refPano : Pano) (responsePanos : list Pano)
  : M State unit :=
  modify (set_nearbyPanos (candidates refPano responsePanos)).

(** *** The marker under the pointer *)

Definition _markerPositionIsOffScreen (psv : Viewer) (pano_position : Position)
  : bool :=
  let viewerCoords :=
    sphericalCoordsToViewerCoords psv
      {| latitude := pitch pano_position; longitude := yaw pano_position |} in
  let x := fst viewerCoords in
  let y := snd viewerCoords in
  (size_width psv <? x)%float || (x <? 0)%float ||
  (size_height psv <? y)%float || (y <? 0)%float.

(** The loop of [_getClosestPano], with [closest] and [closestDist] as
    they stand before the rest [l] of [this.nearbyPanos] is visited.
    [position] is [null] when the caller passes [this.lastMousePosition]
    before any pointer position was recorded; reading [position.latitude]
    then throws. *)
Fixpoint closestLoop (psv : Viewer) (position : option SphericalCoords)
    (l : list Candidate) (closest : option Candidate) (closestDist : float)
  : result (option Candidate) :=
  match l with
  | [] => Ok closest
  | pano :: rest =>
      if _markerPositionIsOffScreen psv (Movement.position pano)
      then closestLoop psv position rest closest closestDist
      else
        match position with
        | None => Throw TypeError
        | Some p =>
            let distance :=
              distanceBetween (latitude p) (longitude p)
                (pitch (Movement.position pano)) (yaw (Movement.position pano))
                1%float in
            if (distance <? closestDist)%float
            then closestLoop psv position rest (Some pano) distance
            else closestLoop psv position rest closest closestDist
        end
  end.

(** [_getClosestPano(position)].  Iterating over an [undefined]
    [nearbyPanos] throws.  ([screenFrustum.update()] writes nothing the
    plugin reads.) *)
Definition _getClosestPano (psv : Viewer) (position : option SphericalCoords)
  : M State (option Candidate) :=
  do! nearby := gets nearbyPanos in
  match nearby with
  | None => throw TypeError
  | Some l => lift (closestLoop psv position l None 9999999%float)
  end.

Definition _hideMarker : M State unit :=
  modify (fun s => set_marker (hidden (marker s)) s).

Definition _mouseMovedTo (psv : Viewer) (position : option SphericalCoords)
  : M State unit :=
  do! nearby := gets nearbyPanos in
  do! enabled := gets movementEnabled in
  if negb (bool_decide (is_Some nearby)) || negb enabled then ret tt
  else
    do! closest := _getClosestPano psv position in
    match closest with
    | None => _hideMarker
    | Some closest => modify (set_marker (shown closest))
    end.

(** [_onMouseMove(e)] of [MovementPlugin.js], at time [now = Date.now()]:
    the event is processed when [msSinceLastUpdate > updateLimit]. *)
Definition _onMouseMove (psv : Viewer) (now : Z) (clientX clientY : float)
  : M State unit :=
  modify (set_mouseHasMoved true) ;;;
  do! last := gets lastProcessedMoveEvent in
  let msSinceLastUpdate := now - last in
  if Qltb updateLimit (inject_Z msSinceLastUpdate) then
    modify (set_lastProcessedMoveEvent now) ;;;
    match viewerCoordsToVector3 psv clientX clientY with
    | Some vector =>
        let position := vector3ToSphericalCoords psv vector in
        modify (set_lastMousePosition position) ;;;
        _mouseMovedTo psv (Some position)
    | None => _hideMarker
    end
  else ret tt.

(** [_onMouseMove(e)] of [movementPlugin.js]: the event is dropped when
    [msSinceLastUpdate < updateLimit].  The rest of that file's plugin is
    the code above (its [_getClosestPano] has the off-screen test written
    in place). *)
Definition _onMouseMove_lt (psv : Viewer) (now : Z) (clientX clientY : float)
  : M State unit :=
  modify (set_mouseHasMoved true) ;;;
  do! last := gets lastProcessedMoveEvent in
  let msSinceLastUpdate := now - last in
  if Qltb (inject_Z msSinceLastUpdate) updateLimit then ret tt
  else
    modify (set_lastProcessedMoveEvent now) ;;;
    match viewerCoordsToVector3 psv clientX clientY with
    | Some vector =>
        let position := vector3ToSphericalCoords psv vector in
        modify (set_lastMousePosition position) ;;;
        _mouseMovedTo psv (Some position)
    | None => _hideMarker
    end.

(** *** Clicks and navigation *)

(** [_onClick] is asynchronous: it runs up to its [await] and the rest
    runs when the awaited [psv.navigateTo] resolves.  [after] says which
    [await] of [_onClick] a pending navigation was started from. *)
Inductive Continuation : Type :=
| AfterMarker   (* line 137: the branch that clicked the marker *)
| AfterTap.     (* line 131: the "mobile user" branch *)

Record Navigation : Type := {
  target : Pano;
  after : Continuation;
}.

(** [_onClick(e, data)] up to the call of [psv.navigateTo] inside
    [_navigateTo]: the result is the navigation it started, if any. *)
Definition _onClick (psv : Viewer) (data : ClickData)
  : M State (option Navigation) :=
  do! enabled := gets movementEnabled in
  if rightclick data || negb enabled then ret None
  else
    do! m := gets marker in
    match visible m, Movement.data m with
    | true, Some pano =>
        _hideMarker ;;;
        modify (set_movementEnabled false) ;;;
        ret (Some {| target := pano; after := AfterMarker |})
    | _, _ =>
        do! moved := gets mouseHasMoved in
        if moved then ret None
        else
          let position := {| latitude := click_latitude data;
                             longitude := click_longitude data |} in
          do! closest := _getClosestPano psv (Some position) in
          match closest with
          | None => throw TypeError
          | Some closest =>
              ret (Some {| target := pano closest; after := AfterTap |})
          end
    end.

(** What is left of [_onClick] once [_navigateTo] has returned. *)
Definition _onClick_resume (psv : Viewer) (n : Navigation) : M State unit :=
  match after n with
  | AfterMarker =>
      modify (set_movementEnabled true) ;;;
      do! last := gets lastMousePosition in
      _mouseMovedTo psv last
  | AfterTap => ret tt
  end.

(** The plugin in its event loop: its fields, the navigations whose
    [psv.navigateTo] has not settled yet, the ["moved"] notifications
    triggered so far (latest first) and the exceptions that escaped a
    handler. *)
Record System : Type := {
  plugin : State;
  inFlight : list Navigation;
  moved : list Pano;
  uncaught : list error;
}.

Inductive Event : Type :=
| MouseMove (now : Z) (clientX clientY : float)
| Click (data : ClickData)
| NavigationDone (k : nat)
| NavigationFailed (k : nat)
| PanoMarkers (refPano : Pano) (responsePanos : list Pano).

Definition boot : System :=
  {| plugin := constructor; inFlight := []; moved := []; uncaught := [] |}.

(** The system after a handler ran to [r], leaving the fields [s]. *)
Definition settle {A : Type} (sys : System) (flying : list Navigation)
    (notified : list Pano) (r : result A * State) : System :=
  {| plugin := snd r;
     inFlight := flying;
     moved := notified;
     uncaught := match fst r with
                 | Ok _ => uncaught sys
                 | Throw e => e :: uncaught sys
                 end |}.

Definition step (psv : Viewer) (ev : Event) (sys : System) : System :=
  match ev with
  | MouseMove now clientX clientY =>
      settle sys (inFlight sys) (moved sys)
        (_onMouseMove psv now clientX clientY (plugin sys))
  | Click data =>
      let r := _onClick psv data (plugin sys) in
      match fst r with
      | Ok (Some n) => settle sys (inFlight sys ++ [n]) (moved sys) r
      | _ => settle sys (inFlight sys) (moved sys) r
      end
  | NavigationDone k =>
      match inFlight sys !! k with
      | Some n =>
          settle sys (delete k (inFlight sys)) (target n :: moved sys)
            (_onClick_resume psv n (plugin sys))
      | None => sys
      end
  | NavigationFailed k =>
      match inFlight sys !! k with
      | Some n =>
          {| plugin := plugin sys; inFlight := delete k (inFlight sys);
             moved := moved sys; uncaught := Rejection :: uncaught sys |}
      | None => sys
      end
  | PanoMarkers refPano responsePanos =>
      settle sys (inFlight sys) (moved sys)
        (updatePanoMarkers refPano responsePanos (plugin sys))
  end.

(** The states the plugin can be in: after the constructor, and after any
    event, whatever the viewer shows at that moment. *)
Inductive reachable : System -> Prop :=
| reachable_boot : reachable boot
| reachable_step sys psv ev :
    reachable sys -> reachable (step psv ev sys).

Fixpoint steps (evs : list (Viewer * Event)) (sys : System) : System :=
  match evs with
  | [] => sys
  | (psv, ev) :: rest => steps rest (step psv ev sys)
  end.

(** *** The rate limiter *)

(** The rational [updateLimit] is the exact value of the double the source
    computes. *)
Lemma updateLimit_exact :
  Prim2SF updateLimit_double = S754_finite false 4691249611844267 (-48)
  /\ updateLimit == 4691249611844267 # (2 ^ 48).
Proof. split; reflexivity. Qed.

(** No whole number of milliseconds is equal to [updateLimit]: an elapsed
    time is either below it or above it. *)
Lemma elapsed_never_at_limit (ms : Z) :
  Qltb (inject_Z ms) updateLimit = negb (Qltb updateLimit (inject_Z ms)).
Proof.
  unfold Qltb, updateLimit, inject_Z; simpl.
  destruct (Z.ltb_spec (ms * 281474976710656) 4691249611844267),
    (Z.ltb_spec 4691249611844267 (ms * 1)); simpl; try reflexivity; lia.
Qed.

Lemma _onMouseMove_variants (psv : Viewer) (now : Z) (clientX clientY : float)
    (s : State) :
  _onMouseMove_lt psv now clientX clientY s
  = _onMouseMove psv now clientX clientY s.
Proof.
  unfold _onMouseMove_lt, _onMouseMove, bind, modify, gets; simpl.
  rewrite elapsed_never_at_limit.
  destruct (Qltb updateLimit _); reflexivity.
Qed.

(** One pointer event: the viewer it finds, the time and the pointer. *)
Record Move : Type := {
  move_psv : Viewer;
  move_now : Z;
  move_clientX : float;
  move_clientY : float;
}.

(** Whether a handler took the event as a sample: it did when it moved
    [lastProcessedMoveEvent] to the event's time. *)
Definition processed (before after : State) (e : Move) : bool :=
  bool_decide (lastProcessedMoveEvent after = move_now e)
  && negb (bool_decide (lastProcessedMoveEvent before = move_now e)).

(** Runs a handler over a sequence of pointer events; gives, for each
    event, what the handler returned and whether it was processed, and the
    final state. *)
Fixpoint deliver (handler : Viewer -> Z -> float -> float -> M State unit)
    (es : list Move) (s : State) : list (result unit * bool) * State :=
  match es with
  | [] => ([], s)
  | e :: rest =>
      let r := handler (move_psv e) (move_now e) (move_clientX e)
                       (move_clientY e) s in
      let out := deliver handler rest (snd r) in
      ((fst r, processed s (snd r) e) :: fst out, snd out)
  end.

(** C10. The rate limiter of [movementPlugin.js] (drop when the elapsed
    time is below [1000/60]) and the one of [MovementPlugin.js] (process
    when it is above) do the same on every sequence of pointer events:
    each event has the same outcome and is processed by both or by
    neither, and the final states are equal.  Timestamps are the integers
    of [Date.now()]. *)
Theorem rate_limiters_agree (es : list Move) (s : State) :
  deliver _onMouseMove_lt es s = deliver _onMouseMove es s.
Proof.
  revert s. induction es as [|e es IH]; intros s; simpl; [reflexivity|].
  rewrite _onMouseMove_variants, IH. reflexivity.
Qed.

(** *** The candidate set *)

Lemma candidates_sound (refPano : Pano) (responsePanos : list Pano)
    (c : Candidate) :
  c ∈ candidates refPano responsePanos ->
  pano c ∈ responsePanos
  /\ position c = positionOf refPano (pano c)
  /\ (MAX_DISTANCE <? distance (position c))%float = false
  /\ strict_eq (lat refPano) (lat (pano c))
     && strict_eq (lon refPano) (lon (pano c)) = false.
Proof.
  induction responsePanos as [|p rest IH]; simpl.
  - intros H. inversion H.
  - destruct (strict_eq (lat refPano) (lat p) && strict_eq (lon refPano) (lon p))
      eqn:Hsame.
    + intros H. destruct (IH H) as (? & ? & ? & ?).
      repeat split; try assumption. apply elem_of_cons; by right.
    + destruct (MAX_DISTANCE <? distance (positionOf refPano p))%float eqn:Hfar.
      * intros H. destruct (IH H) as (? & ? & ? & ?).
        repeat split; try assumption. apply elem_of_cons; by right.
      * intros H. apply elem_of_cons in H as [->|H]; simpl.
        -- repeat split; try assumption. apply elem_of_cons; by left.
        -- destruct (IH H) as (? & ? & ? & ?).
           repeat split; try assumption. apply elem_of_cons; by right.
Qed.

(** C2, as the code has it.  After [updatePanoMarkers] the candidate set holds
    only candidates built from neighbours of the answer, each at the
    position computed for it.  The source's test [distance > MAX_DISTANCE]
    is false of each, so its distance is at most 100 or is not a number
    (NaN is not greater than anything); and none has the latitude and the
    longitude of the reference panorama.  A neighbour that fails either
    test is the panorama of no candidate. *)
Theorem updatePanoMarkers_filters (refPano : Pano) (responsePanos : list Pano)
    (s : State) :
  exists l : list Candidate,
    updatePanoMarkers refPano responsePanos s = (Ok tt, set_nearbyPanos l s)
    /\ (forall c : Candidate, c ∈ l ->
          pano c ∈ responsePanos
          /\ position c = positionOf refPano (pano c)
          /\ (MAX_DISTANCE <? distance (position c))%float = false
          /\ ((distance (position c) <=? 100)%float = true
              \/ PrimFloat.is_nan (distance (position c)) = true)
          /\ strict_eq (lat refPano) (lat (pano c))
             && strict_eq (lon refPano) (lon (pano c)) = false)
    /\ (forall p : Pano,
          strict_eq (lat refPano) (lat p) && strict_eq (lon refPano) (lon p)
            = true
          \/ (MAX_DISTANCE <? distance (positionOf refPano p))%float = true ->
          forall c : Candidate, c ∈ l -> pano c <> p).
Proof.
  exists (candidates refPano responsePanos). split; [reflexivity|]. split.
  - intros c Hc. destruct (candidates_sound _ _ _ Hc) as (Hin & Hpos & Hfar & Hsame).
    repeat split; try assumption.
    destruct (PrimFloat.is_nan (distance (position c))) eqn:Hnan;
      [by right|left].
    apply not_gt_le; [assumption|reflexivity|assumption].
  - intros p Hfail c Hc <-.
    destruct (candidates_sound _ _ _ Hc) as (_ & Hpos & Hfar & Hsame).
    rewrite Hpos in Hfar. destruct Hfail as [H|H]; congruence.
Qed.

(** *** The nearest candidate on screen *)

(** The distance [_getClosestPano] measures between the pointer and a
    candidate. *)
Definition pointerDistance (p : SphericalCoords) (c : Candidate) : float :=
  distanceBetween (latitude p) (longitude p)
    (pitch (position c)) (yaw (position c)) 1%float.

(** A candidate qualifies for the pointer when it is on screen and nearer
    than the loop's starting bound. *)
Definition qualifies (psv : Viewer) (p : SphericalCoords) (c : Candidate)
  : Prop :=
  _markerPositionIsOffScreen psv (position c) = false
  /\ (pointerDistance p c <? 9999999)%float = true.

(** [c] is a nearest qualifying candidate of [l]: no candidate of [l] on
    screen is strictly nearer. *)
Definition nearest (psv : Viewer) (p : SphericalCoords) (l : list Candidate)
    (c : Candidate) : Prop :=
  c ∈ l /\ qualifies psv p c
  /\ forall c' : Candidate, c' ∈ l ->
       _markerPositionIsOffScreen psv (position c') = false ->
       (pointerDistance p c' <? pointerDistance p c)%float = false.

Lemma closestLoop_bound (psv : Viewer) (p : SphericalCoords)
    (l : list Candidate) :
  forall (closest : option Candidate) (closestDist : float),
  exists (best : option Candidate) (bestDist : float),
    closestLoop psv (Some p) l closest closestDist = Ok best
    /\ (best = closest /\ bestDist = closestDist
        \/ exists c, best = Some c /\ c ∈ l
             /\ _markerPositionIsOffScreen psv (position c) = false
             /\ bestDist = pointerDistance p c
             /\ (bestDist <? closestDist)%float = true)
    /\ forall c', c' ∈ l ->
         _markerPositionIsOffScreen psv (position c') = false ->
         (pointerDistance p c' <? bestDist)%float = false.
Proof.
  induction l as [|x rest IH]; intros closest closestDist; simpl.
  - exists closest, closestDist. split; [reflexivity|]. split; [by left|].
    intros c' H. inversion H.
  - destruct (_markerPositionIsOffScreen psv (position x)) eqn:Hoff.
    + destruct (IH closest closestDist) as (best & bd & Hrun & Hbest & Hmin).
      exists best, bd. split; [exact Hrun|]. split.
      * destruct Hbest as [?|(c & ? & ? & ?)]; [by left|].
        right. exists c. rewrite elem_of_cons. intuition.
      * intros c' Hc' Hon. apply elem_of_cons in Hc' as [->|Hc']; [congruence|].
        by apply Hmin.
    + fold (pointerDistance p x).
      destruct (pointerDistance p x <? closestDist)%float eqn:Hlt.
      * destruct (IH (Some x) (pointerDistance p x))
          as (best & bd & Hrun & Hbest & Hmin).
        exists best, bd. split; [exact Hrun|]. split.
        -- right. destruct Hbest as [[-> ->]|(c & -> & Hc & Hon & -> & Hlt')].
           ++ exists x. rewrite elem_of_cons. repeat split; auto.
           ++ exists c. rewrite elem_of_cons. repeat split; auto.
              eapply ltb_trans; eassumption.
        -- intros c' Hc' Hon. apply elem_of_cons in Hc' as [->|Hc'];
             [|by apply Hmin].
           destruct Hbest as [[_ ->]|(c & _ & _ & _ & -> & Hlt')].
           ++ apply ltb_irrefl.
           ++ by apply ltb_asym.
      * destruct (IH closest closestDist) as (best & bd & Hrun & Hbest & Hmin).
        exists best, bd. split; [exact Hrun|]. split.
        -- destruct Hbest as [?|(c & ? & ? & ?)]; [by left|].
           right. exists c. rewrite elem_of_cons. intuition.
        -- intros c' Hc' Hon. apply elem_of_cons in Hc' as [->|Hc'];
             [|by apply Hmin].
           destruct Hbest as [[_ ->]|(c & _ & _ & _ & -> & Hlt')];
             [exact Hlt|].
           destruct (pointerDistance p x <? pointerDistance p c)%float eqn:E;
             [|reflexivity].
           rewrite (ltb_trans _ _ _ E Hlt') in Hlt. discriminate.
Qed.

(** With a pointer position the search never throws; what it returns is a
    nearest qualifying candidate, and it returns [null] only when no
    candidate qualifies. *)
Lemma closestLoop_nearest (psv : Viewer) (p : SphericalCoords)
    (l : list Candidate) :
  exists best : option Candidate,
    closestLoop psv (Some p) l None 9999999%float = Ok best
    /\ match best with
       | Some c => nearest psv p l c
       | None => forall c, c ∈ l -> ~ qualifies psv p c
       end.
Proof.
  destruct (closestLoop_bound psv p l None 9999999%float)
    as (best & bd & Hrun & Hbest & Hmin).
  exists best. split; [exact Hrun|].
  destruct Hbest as [[-> ->]|(c & -> & Hc & Hon & -> & Hlt)].
  - intros c Hc [Hon Hlt]. rewrite (Hmin c Hc Hon) in Hlt. discriminate.
  - repeat split; assumption.
Qed.

(** *** What the handlers keep true *)

Definition markerHidden (s : State) : Prop :=
  visible (marker s) = false /\ data (marker s) = None.

(** While navigation input is disabled, and before the first candidate
    set, the marker is hidden. *)
Definition guarded (s : State) : Prop :=
  movementEnabled s = false \/ nearbyPanos s = None -> markerHidden s.

Lemma _mouseMovedTo_cases (psv : Viewer) (p : SphericalCoords) (s : State) :
  match nearbyPanos s, movementEnabled s with
  | Some l, true =>
      exists best,
        closestLoop psv (Some p) l None 9999999%float = Ok best
        /\ match best with
           | Some c =>
               nearest psv p l c
               /\ _mouseMovedTo psv (Some p) s = (Ok tt, set_marker (shown c) s)
           | None =>
               (forall c, c ∈ l -> ~ qualifies psv p c)
               /\ _mouseMovedTo psv (Some p) s
                  = (Ok tt, set_marker (hidden (marker s)) s)
           end
  | _, _ => _mouseMovedTo psv (Some p) s = (Ok tt, s)
  end.
Proof.
  unfold _mouseMovedTo, _getClosestPano, _hideMarker, bind, gets, modify,
    lift, ret, throw.
  destruct (nearbyPanos s) as [l|] eqn:Hl; [|reflexivity].
  destruct (movementEnabled s) eqn:Hen; [|reflexivity]. simpl.
  destruct (closestLoop_nearest psv p l) as (best & Hrun & Hbest).
  exists best. split; [exact Hrun|]. rewrite Hl, Hrun.
  destruct best as [c|]; split; auto.
Qed.

Lemma _mouseMovedTo_lastMousePosition (psv : Viewer)
    (q : option SphericalCoords) (s : State) :
  lastMousePosition (snd (_mouseMovedTo psv q s)) = lastMousePosition s.
Proof.
  unfold _mouseMovedTo, _getClosestPano, _hideMarker, bind, gets, modify,
    lift, ret, throw.
  destruct (nearbyPanos s) as [l|] eqn:Hl; [|reflexivity].
  destruct (movementEnabled s) eqn:Hen; [|reflexivity]. simpl. rewrite Hl.
  destruct (closestLoop psv q l None 9999999%float) as [[c|]|e]; reflexivity.
Qed.

Lemma _mouseMovedTo_guarded (psv : Viewer) (q : option SphericalCoords)
    (s : State) :
  guarded s -> guarded (snd (_mouseMovedTo psv q s)).
Proof.
  unfold _mouseMovedTo, _getClosestPano, _hideMarker, bind, gets, modify,
    lift, ret, throw.
  destruct (nearbyPanos s) as [l|] eqn:Hl; [|auto].
  destruct (movementEnabled s) eqn:Hen; [|auto]. simpl. rewrite Hl.
  destruct (closestLoop psv q l None 9999999%float) as [[c|]|e]; simpl; auto;
    intros _ [H|H]; simpl in H; congruence.
Qed.

Lemma _onMouseMove_guarded (psv : Viewer) (now : Z) (x y : float) (s : State) :
  guarded s -> guarded (snd (_onMouseMove psv now x y s)).
Proof.
  intros Hs. unfold _onMouseMove, bind, gets, modify, ret; simpl.
  destruct (Qltb updateLimit _); simpl; [|exact Hs].
  destruct (viewerCoordsToVector3 psv x y) as [v|]; simpl.
  - apply _mouseMovedTo_guarded. exact Hs.
  - unfold _hideMarker, modify; simpl. intros _. by split.
Qed.

Lemma _onClick_guarded (psv : Viewer) (d : ClickData) (s : State) :
  guarded s -> guarded (snd (_onClick psv d s)).
Proof.
  intros Hs. unfold _onClick, _getClosestPano, _hideMarker, bind, gets,
    modify, lift, ret, throw; simpl.
  destruct (rightclick d || negb (movementEnabled s)); simpl; [exact Hs|].
  destruct (visible (marker s)), (data (marker s)) as [pn|]; simpl;
    try (intros _; by split);
    destruct (mouseHasMoved s); simpl; try exact Hs;
    destruct (nearbyPanos s) as [l|]; simpl; try exact Hs;
    destruct (closestLoop _ _ _ _ _) as [[c|]|e]; simpl; exact Hs.
Qed.

Lemma _onClick_resume_guarded (psv : Viewer) (n : Navigation) (s : State) :
  guarded s -> guarded (snd (_onClick_resume psv n s)).
Proof.
  intros Hs. unfold _onClick_resume.
  destruct (after n); [|exact Hs].
  unfold bind, modify, gets; simpl.
  apply _mouseMovedTo_guarded.
  intros [H|H]; [discriminate|]. apply Hs. by right.
Qed.

Lemma reachable_guarded (sys : System) : reachable sys -> guarded (plugin sys).
Proof.
  induction 1 as [|sys psv ev Hr IH].
  - intros _. by split.
  - destruct ev as [now x y|d|k|k|refPano resp]; simpl.
    + by apply _onMouseMove_guarded.
    + pose proof (_onClick_guarded psv d _ IH) as H.
      destruct (fst (_onClick psv d (plugin sys))) as [[n|]|e]; exact H.
    + destruct (inFlight sys !! k); [|exact IH].
      by apply _onClick_resume_guarded.
    + destruct (inFlight sys !! k); exact IH.
    + intros [H|H]; [|discriminate]. apply IH. by left.
Qed.

Lemma _mouseMovedTo_marker (psv : Viewer) (p : SphericalCoords) (s : State) :
  guarded s ->
  exists s' : State,
    _mouseMovedTo psv (Some p) s = (Ok tt, s')
    /\ ((exists (l : list Candidate) (c : Candidate),
           movementEnabled s = true
           /\ nearbyPanos s = Some l
           /\ nearest psv p l c
           /\ s' = set_marker (shown c) s)
        \/ (markerHidden s'
            /\ (movementEnabled s = false /\ s' = s
                \/ nearbyPanos s = None /\ s' = s
                \/ exists l : list Candidate,
                     nearbyPanos s = Some l
                     /\ forall c, c ∈ l -> ~ qualifies psv p c))).
Proof.
  intros Hg.
  pose proof (_mouseMovedTo_cases psv p s) as Hc.
  destruct (nearbyPanos s) as [l|] eqn:Hl.
  - destruct (movementEnabled s) eqn:Hen.
    + destruct Hc as (best & _ & Hbest). destruct best as [c|].
      * destruct Hbest as [Hn Hrun]. eexists. split; [exact Hrun|].
        left. exists l, c. auto.
      * destruct Hbest as [Hn Hrun]. eexists. split; [exact Hrun|].
        right. split; [by split|]. right. right. exists l. auto.
    + eexists. split; [exact Hc|]. right. split; [apply Hg; by left|].
      left. auto.
  - eexists. split; [exact Hc|]. right. split; [apply Hg; by right|].
    right. left. auto.
Qed.

(** C5. In every state the plugin can reach, a pointer move that is
    processed (it passes the rate limit and the pointer is on the sphere,
    at position [p]) raises nothing and either moves the marker to a
    nearest qualifying candidate on screen (the marker is visible at the
    candidate's pitch and yaw, 64 times its scale wide and high, and bound
    to its panorama), or leaves the marker hidden and bound to nothing,
    and that when no candidate qualifies, when navigation input is
    disabled, or when there is no candidate set yet.  While input is
    disabled the handler does not touch the marker, and the marker it
    leaves is hidden. *)
Theorem pointer_move_marker (sys : System) (psv : Viewer) (now : Z)
    (clientX clientY : float) (vector : Vector3) :
  reachable sys ->
  Qltb updateLimit (inject_Z (now - lastProcessedMoveEvent (plugin sys))) = true ->
  viewerCoordsToVector3 psv clientX clientY = Some vector ->
  let p := vector3ToSphericalCoords psv vector in
  let sys' := step psv (MouseMove now clientX clientY) sys in
  uncaught sys' = uncaught sys
  /\ lastMousePosition (plugin sys') = Some p
  /\ ((exists (l : list Candidate) (c : Candidate),
         movementEnabled (plugin sys) = true
         /\ nearbyPanos (plugin sys) = Some l
         /\ nearest psv p l c
         /\ marker (plugin sys')
            = {| marker_latitude := pitch (position c);
                 marker_longitude := yaw (position c);
                 width := (64 * scale c)%float;
                 height := (64 * scale c)%float;
                 visible := true;
                 data := Some (pano c) |})
      \/ (visible (marker (plugin sys')) = false
          /\ data (marker (plugin sys')) = None
          /\ marker_latitude (marker (plugin sys'))
             = marker_latitude (marker (plugin sys))
          /\ marker_longitude (marker (plugin sys'))
             = marker_longitude (marker (plugin sys))
          /\ width (marker (plugin sys')) = width (marker (plugin sys))
          /\ height (marker (plugin sys')) = height (marker (plugin sys))
          /\ (movementEnabled (plugin sys) = false
                /\ marker (plugin sys') = marker (plugin sys)
              \/ nearbyPanos (plugin sys) = None
                /\ marker (plugin sys') = marker (plugin sys)
              \/ exists l : list Candidate,
                   movementEnabled (plugin sys) = true
                   /\ nearbyPanos (plugin sys) = Some l
                   /\ forall c, c ∈ l -> ~ qualifies psv p c))).
Proof.
  intros Hr Hlimit Hvec p sys'.
  pose proof (reachable_guarded sys Hr) as Hg.
  set (s1 := set_lastMousePosition p
               (set_lastProcessedMoveEvent now
                  (set_mouseHasMoved true (plugin sys)))).
  assert (Hg1 : guarded s1) by exact Hg.
  pose proof (_mouseMovedTo_cases psv p s1) as Hc.
  assert (Hfields : nearbyPanos s1 = nearbyPanos (plugin sys)
                    /\ movementEnabled s1 = movementEnabled (plugin sys)
                    /\ marker s1 = marker (plugin sys)) by (by repeat split).
  destruct Hfields as (Hn1 & He1 & Hm1).
  assert (Hrun : exists s', _mouseMovedTo psv (Some p) s1 = (Ok tt, s')).
  { destruct (_mouseMovedTo_marker psv p s1 Hg1) as (s' & H & _).
    by exists s'. }
  destruct Hrun as [s' Hrun].
  assert (Hstep : _onMouseMove psv now clientX clientY (plugin sys) = (Ok tt, s')).
  { unfold _onMouseMove, bind, gets, modify; simpl.
    rewrite Hlimit; simpl. rewrite Hvec; simpl. exact Hrun. }
  subst sys'. simpl. rewrite Hstep; simpl. split; [reflexivity|].
  assert (Hlast : lastMousePosition s' = Some p).
  { change s' with (snd (Ok tt, s')). rewrite <- Hrun.
    apply _mouseMovedTo_lastMousePosition. }
  split; [exact Hlast|].
  rewrite Hn1, He1 in Hc.
  destruct (nearbyPanos (plugin sys)) as [l|] eqn:Hl.
  - destruct (movementEnabled (plugin sys)) eqn:Hen.
    + destruct Hc as (best & _ & Hbest). destruct best as [c|].
      * destruct Hbest as [Hn Hto]. rewrite Hto in Hrun.
        injection Hrun as <-. left. exists l, c.
        split; [reflexivity|]. split; [reflexivity|]. split; [exact Hn|].
        reflexivity.
      * destruct Hbest as [Hq Hto]. rewrite Hto in Hrun.
        injection Hrun as <-. right. simpl.
        repeat split; try reflexivity. right; right. by exists l.
    + rewrite Hc in Hrun. injection Hrun as <-.
      destruct (Hg (or_introl Hen)) as [Hv Hd].
      right. rewrite Hm1. repeat split; auto.
  - rewrite Hc in Hrun. injection Hrun as <-.
    destruct (Hg (or_intror Hl)) as [Hv Hd].
    right. rewrite Hm1. repeat split; auto.
Qed.

(** *** Clicks *)

(** A left click or tap at the origin of the sphere. *)
Definition tap : ClickData :=
  {| rightclick := false; click_latitude := 0; click_longitude := 0 |}.

(** C1. A left click or tap that reaches the branch without a marker (the
    marker is not visible or is bound to nothing, and the pointer never
    moved), when the search for the nearest candidate on screen returns
    [null]: [closest.pano] throws a [TypeError] out of [_onClick]; no
    navigation is started and the fields are left as they were. *)
Theorem tap_without_candidate_throws (psv : Viewer) (d : ClickData) (s : State) :
  rightclick d = false -> movementEnabled s = true ->
  visible (marker s) = false \/ data (marker s) = None ->
  mouseHasMoved s = false ->
  _getClosestPano psv
    (Some {| latitude := click_latitude d; longitude := click_longitude d |}) s
  = (Ok None, s) ->
  _onClick psv d s = (Throw TypeError, s).
Proof.
  intros Hd Hen Hm Hmv Hrun.
  unfold _onClick, bind, gets, throw, ret.
  rewrite Hd, Hen; simpl.
  destruct Hm as [Hv|Hdt];
    [rewrite Hv | rewrite Hdt; destruct (visible (marker s))];
    simpl; rewrite Hmv; simpl; rewrite Hrun; reflexivity.
Qed.

(** While navigation input is disabled a click does nothing. *)
Lemma _onClick_disabled (psv : Viewer) (d : ClickData) (s : State) :
  movementEnabled s = false -> _onClick psv d s = (Ok None, s).
Proof.
  intros Hen. unfold _onClick, bind, gets, ret. rewrite Hen.
  rewrite orb_true_r. reflexivity.
Qed.

(** A click on the bound marker hides it, disables navigation input and
    starts the navigation to the marker's panorama. *)
Lemma _onClick_marker (psv : Viewer) (d : ClickData) (s : State) (pn : Pano) :
  rightclick d = false -> movementEnabled s = true ->
  visible (marker s) = true -> data (marker s) = Some pn ->
  _onClick psv d s
  = (Ok (Some {| target := pn; after := AfterMarker |}),
     set_movementEnabled false (set_marker (hidden (marker s)) s)).
Proof.
  intros Hd Hen Hv Hdata.
  unfold _onClick, _hideMarker, bind, gets, modify, ret.
  rewrite Hd, Hen; simpl. rewrite Hv, Hdata. reflexivity.
Qed.

(** A tap that finds a candidate starts the navigation and leaves
    navigation input enabled. *)
Lemma _onClick_tap (psv : Viewer) (d : ClickData) (s : State)
    (l : list Candidate) (c : Candidate) :
  rightclick d = false -> movementEnabled s = true ->
  visible (marker s) = false \/ data (marker s) = None ->
  mouseHasMoved s = false ->
  nearbyPanos s = Some l ->
  closestLoop psv
    (Some {| latitude := click_latitude d; longitude := click_longitude d |})
    l None 9999999%float = Ok (Some c) ->
  _onClick psv d s = (Ok (Some {| target := pano c; after := AfterTap |}), s).
Proof.
  intros Hd Hen Hm Hmv Hl Hrun.
  unfold _onClick, _getClosestPano, bind, gets, lift, throw, ret.
  rewrite Hd, Hen; simpl.
  destruct Hm as [Hv|Hdt];
    [rewrite Hv | rewrite Hdt; destruct (visible (marker s))];
    simpl; rewrite Hmv, Hl; simpl; rewrite Hrun; reflexivity.
Qed.

(** C4. Two taps in a row on a device that never moved a pointer, the
    marker hidden, when the search finds a candidate: the first tap starts
    a navigation and leaves navigation input enabled, and the second, made
    while the first navigation is still in flight, starts another one. *)
Theorem second_tap_not_ignored (psv : Viewer) (d : ClickData) (sys : System)
    (l : list Candidate) (c : Candidate) :
  rightclick d = false -> movementEnabled (plugin sys) = true ->
  visible (marker (plugin sys)) = false \/ data (marker (plugin sys)) = None ->
  mouseHasMoved (plugin sys) = false ->
  nearbyPanos (plugin sys) = Some l ->
  closestLoop psv
    (Some {| latitude := click_latitude d; longitude := click_longitude d |})
    l None 9999999%float = Ok (Some c) ->
  inFlight (step psv (Click d) sys)
  = inFlight sys ++ [ {| target := pano c; after := AfterTap |} ]
  /\ plugin (step psv (Click d) sys) = plugin sys
  /\ inFlight (step psv (Click d) (step psv (Click d) sys))
     = inFlight sys ++ [ {| target := pano c; after := AfterTap |};
                         {| target := pano c; after := AfterTap |} ].
Proof.
  intros Hd Hen Hm Hmv Hl Hrun.
  pose proof (_onClick_tap psv d (plugin sys) l c Hd Hen Hm Hmv Hl Hrun) as H.
  simpl. rewrite H; simpl. rewrite H; simpl.
  repeat split. by rewrite <- app_assoc.
Qed.

(** *** The navigation gate *)

(** The navigations in flight that were started by a click on the
    marker. *)
Fixpoint gated (l : list Navigation) : nat :=
  match l with
  | [] => 0
  | n :: rest =>
      match after n with
      | AfterMarker => S (gated rest)
      | AfterTap => gated rest
      end
  end.

Lemma gated_snoc (l : list Navigation) (n : Navigation) :
  gated (l ++ [n]) = (gated l + gated [n])%nat.
Proof.
  induction l as [|x l IH]; simpl; [lia|].
  destruct (after x); simpl in *; lia.
Qed.

Lemma gated_delete (l : list Navigation) (k : nat) (n : Navigation) :
  l !! k = Some n -> gated l = (gated (delete k l) + gated [n])%nat.
Proof.
  revert k. induction l as [|x l IH]; intros [|k] H; simpl in *;
    try discriminate.
  - injection H as ->. destruct (after n); lia.
  - rewrite (IH k H). simpl. destruct (after x), (after n); lia.
Qed.

Lemma _mouseMovedTo_enabled (psv : Viewer) (q : option SphericalCoords)
    (s : State) :
  movementEnabled (snd (_mouseMovedTo psv q s)) = movementEnabled s.
Proof.
  unfold _mouseMovedTo, _getClosestPano, _hideMarker, bind, gets, modify,
    lift, ret, throw.
  destruct (nearbyPanos s) as [l|] eqn:Hl; [|reflexivity].
  destruct (movementEnabled s) eqn:Hen; [|exact Hen]. simpl. rewrite Hl.
  destruct (closestLoop psv q l None 9999999%float) as [[c|]|e]; exact Hen.
Qed.

Lemma _onMouseMove_enabled (psv : Viewer) (now : Z) (x y : float) (s : State) :
  movementEnabled (snd (_onMouseMove psv now x y s)) = movementEnabled s.
Proof.
  unfold _onMouseMove, bind, gets, modify, ret; simpl.
  destruct (Qltb updateLimit _); simpl; [|reflexivity].
  destruct (viewerCoordsToVector3 psv x y) as [v|]; simpl; [|reflexivity].
  rewrite _mouseMovedTo_enabled. reflexivity.
Qed.

(** The four ways [_onClick] can end. *)
Lemma _onClick_outcomes (psv : Viewer) (d : ClickData) (s : State) :
  _onClick psv d s = (Ok None, s)
  \/ _onClick psv d s = (Throw TypeError, s)
  \/ (exists pn, _onClick psv d s
                 = (Ok (Some {| target := pn; after := AfterTap |}), s))
  \/ (exists pn, movementEnabled s = true
        /\ _onClick psv d s
           = (Ok (Some {| target := pn; after := AfterMarker |}),
              set_movementEnabled false (set_marker (hidden (marker s)) s))).
Proof.
  unfold _onClick, _getClosestPano, _hideMarker, bind, gets, modify, lift,
    ret, throw.
  destruct (rightclick d); simpl; [by left|].
  destruct (movementEnabled s) eqn:Hen; simpl; [|by left].
  set (p := {| latitude := click_latitude d; longitude := click_longitude d |}).
  assert (Htap : forall l, exists best,
    closestLoop psv (Some p) l None 9999999%float = Ok best).
  { intros l. destruct (closestLoop_nearest psv p l) as (best & H & _).
    by exists best. }
  destruct (visible (marker s)), (data (marker s)) as [pn|]; simpl;
    try (right; right; right; exists pn; by split);
    (destruct (mouseHasMoved s); simpl; [by left|]);
    (destruct (nearbyPanos s) as [l|]; simpl; [|right; by left]);
    (destruct (Htap l) as [best ->]);
    (destruct best as [c|]; simpl;
      [right; right; left; by eexists|right; by left]).
Qed.

(** At most one navigation started from the marker is in flight, and none
    while navigation input is enabled. *)
Definition gate (sys : System) : Prop :=
  (gated (inFlight sys) <= 1)%nat
  /\ (movementEnabled (plugin sys) = true -> gated (inFlight sys) = 0%nat).

Lemma step_gate (psv : Viewer) (ev : Event) (sys : System) :
  gate sys -> gate (step psv ev sys).
Proof.
  unfold gate. intros [Hle Hen].
  destruct ev as [now x y|d|k|k|refPano resp]; simpl.
  - rewrite _onMouseMove_enabled. auto.
  - destruct (_onClick_outcomes psv d (plugin sys))
      as [H|[H|[[pn H]|[pn [He H]]]]]; rewrite H; simpl; auto.
    + rewrite gated_snoc; simpl. rewrite Nat.add_0_r. auto.
    + rewrite gated_snoc; simpl. rewrite (Hen He). split; [lia|discriminate].
  - destruct (inFlight sys !! k) as [n|] eqn:Hk; [|auto].
    pose proof (gated_delete _ _ _ Hk) as Hd. simpl in *.
    unfold _onClick_resume. destruct (after n); simpl.
    + unfold bind, modify, gets; simpl. rewrite _mouseMovedTo_enabled; simpl.
      split; [lia|intros _; lia].
    + split; [lia|]. intros He. specialize (Hen He). lia.
  - destruct (inFlight sys !! k) as [n|] eqn:Hk; [|auto].
    pose proof (gated_delete _ _ _ Hk) as Hd. simpl in *.
    split; [lia|]. intros He. specialize (Hen He). lia.
  - auto.
Qed.

Lemma reachable_steps (evs : list (Viewer * Event)) (sys : System) :
  reachable sys -> reachable (steps evs sys).
Proof.
  revert sys. induction evs as [|[psv ev] evs IH]; intros sys Hr; simpl;
    [exact Hr|].
  apply IH. by apply reachable_step.
Qed.

(** In every reachable state at most one navigation started by a click on
    the marker is in flight, and while one is, every click is ignored. *)
Theorem marker_navigation_gate (sys : System) :
  reachable sys ->
  (gated (inFlight sys) <= 1)%nat
  /\ (gated (inFlight sys) = 1%nat ->
      forall psv d, _onClick psv d (plugin sys) = (Ok None, plugin sys)).
Proof.
  intros Hr. assert (Hg : gate sys).
  { induction Hr as [|sys psv ev Hr IH].
    - split; simpl; auto.
    - by apply step_gate. }
  destruct Hg as [Hle Hen]. split; [exact Hle|].
  intros H1 psv d. apply _onClick_disabled.
  destruct (movementEnabled (plugin sys)); [|reflexivity].
  rewrite Hen in H1 by reflexivity. discriminate.
Qed.


(** *** More on the rate limiter and the candidate set *)

(** The limit lies between 16 and 17 milliseconds. *)
Lemma past_limit_iff (ms : Z) :
  Qltb updateLimit (inject_Z ms) = true <-> 17 <= ms.
Proof.
  unfold Qltb, updateLimit, inject_Z; simpl.
  rewrite Z.ltb_lt. lia.
Qed.

(** What [_mouseMovedTo] can do to the state: nothing, hide the marker, or
    show it at a candidate of the current set, the last only for a pointer
    position that is not [null]; it throws only for a [null] position. *)
Lemma _mouseMovedTo_outcomes (psv : Viewer) (q : option SphericalCoords)
    (s : State) :
  _mouseMovedTo psv q s = (Ok tt, s)
  \/ _mouseMovedTo psv q s = (Ok tt, set_marker (hidden (marker s)) s)
  \/ (exists l c, nearbyPanos s = Some l /\ c ∈ l /\ is_Some q
        /\ _mouseMovedTo psv q s = (Ok tt, set_marker (shown c) s))
  \/ (q = None /\ _mouseMovedTo psv q s = (Throw TypeError, s)).
Proof.
  unfold _mouseMovedTo, _getClosestPano, _hideMarker, bind, gets, modify,
    lift, ret, throw.
  destruct (nearbyPanos s) as [l|] eqn:Hl; [|by left].
  destruct (movementEnabled s) eqn:Hen; [|by left]. simpl. rewrite Hl.
  destruct q as [p|].
  - destruct (closestLoop_nearest psv p l) as (best & -> & Hbest).
    destruct best as [c|]; [|right; by left].
    right; right; left. exists l, c. destruct Hbest as [Hc _].
    repeat split; eauto.
  - assert (H : closestLoop psv None l None 9999999%float = Ok None
                \/ closestLoop psv None l None 9999999%float = Throw TypeError).
    { clear Hl. induction l as [|x l IH]; simpl; [by left|].
      destruct (_markerPositionIsOffScreen psv (position x)); [exact IH|].
      by right. }
    destruct H as [-> | ->]; [right; by left|].
    right; right; right. by split.
Qed.

(** An event is a sample exactly when at least 17 ms have passed since the
    last sample.  It never throws and always records that the pointer has
    moved; a sample moves [lastProcessedMoveEvent] to its time, and an
    event that is not a sample changes nothing else, not even the last
    pointer position. *)
Theorem _onMouseMove_samples (psv : Viewer) (now : Z) (clientX clientY : float)
    (s : State) :
  fst (_onMouseMove psv now clientX clientY s) = Ok tt
  /\ mouseHasMoved (snd (_onMouseMove psv now clientX clientY s)) = true
  /\ (17 <= now - lastProcessedMoveEvent s ->
      lastProcessedMoveEvent (snd (_onMouseMove psv now clientX clientY s)) = now)
  /\ (now - lastProcessedMoveEvent s < 17 ->
      snd (_onMouseMove psv now clientX clientY s) = set_mouseHasMoved true s).
Proof.
  unfold _onMouseMove, bind, gets, modify, ret; simpl.
  destruct (Qltb updateLimit (inject_Z (now - lastProcessedMoveEvent s)))
    eqn:Hq.
  - apply past_limit_iff in Hq. simpl.
    destruct (viewerCoordsToVector3 psv clientX clientY) as [v|]; simpl.
    + match goal with |- context [_mouseMovedTo psv (Some ?p) ?s1] =>
        destruct (_mouseMovedTo_outcomes psv (Some p) s1)
          as [H|[H|[(l & c & _ & _ & _ & H)|[H _]]]]; try discriminate H;
        rewrite H end; simpl; repeat split; auto; lia.
    + repeat split; auto; lia.
  - assert (~ 17 <= now - lastProcessedMoveEvent s).
    { intros H. apply past_limit_iff in H. congruence. }
    simpl. repeat split; auto; lia.
Qed.

(** The two tests of [updatePanoMarkers] on a neighbour. *)
Definition passes (refPano pano : Pano) : bool :=
  negb (strict_eq (lat refPano) (lat pano) && strict_eq (lon refPano) (lon pano))
  && negb (MAX_DISTANCE <? distance (positionOf refPano pano))%float.

(** The candidate set that [updatePanoMarkers] stores is built from the
    neighbours that pass both tests and from nothing else, in the order of
    the answer and as often as they occur in it; what the set held before
    plays no part. *)
Theorem updatePanoMarkers_keeps (refPano : Pano) (responsePanos : list Pano)
    (s : State) :
  exists l : list Candidate,
    nearbyPanos (snd (updatePanoMarkers refPano responsePanos s)) = Some l
    /\ List.map pano l = List.filter (passes refPano) responsePanos
    /\ (forall c, c ∈ l ->
          position c = positionOf refPano (pano c)
          /\ scale c = (0.05 + (0.5 - (0.5 * distance (position c)) / 100))%float)
    /\ marker (snd (updatePanoMarkers refPano responsePanos s)) = marker s
    /\ movementEnabled (snd (updatePanoMarkers refPano responsePanos s))
       = movementEnabled s.
Proof.
  exists (candidates refPano responsePanos). split; [reflexivity|].
  split; [|split; [|by split]].
  - unfold passes. induction responsePanos as [|p rest IH]; simpl;
      [reflexivity|].
    destruct (strict_eq (lat refPano) (lat p) && strict_eq (lon refPano) (lon p));
      simpl; [exact IH|].
    destruct (MAX_DISTANCE <? distance (positionOf refPano p))%float; simpl;
      [exact IH|]. by rewrite IH.
  - induction responsePanos as [|p rest IH]; simpl; intros c Hc;
      [inversion Hc|].
    destruct (strict_eq (lat refPano) (lat p) && strict_eq (lon refPano) (lon p));
      [by apply IH|].
    destruct (MAX_DISTANCE <? distance (positionOf refPano p))%float;
      [by apply IH|].
    apply elem_of_cons in Hc as [->|Hc]; [by split|by apply IH].
Qed.

(** *** More on clicks, exceptions and the marker *)

Lemma _onMouseMove_ok (psv : Viewer) (now : Z) (clientX clientY : float)
    (s : State) :
  fst (_onMouseMove psv now clientX clientY s) = Ok tt.
Proof.
  unfold _onMouseMove, bind, gets, modify, ret; simpl.
  destruct (Qltb updateLimit _); simpl; [|reflexivity].
  destruct (viewerCoordsToVector3 psv clientX clientY) as [v|]; simpl;
    [|reflexivity].
  match goal with |- context [_mouseMovedTo psv (Some ?p) ?s1] =>
    destruct (_mouseMovedTo_outcomes psv (Some p) s1)
      as [H|[H|[(l & c & _ & _ & _ & H)|[H _]]]]; try discriminate H;
    rewrite H end; reflexivity.
Qed.

(** [_onClick] throws only on the branch of a device whose pointer never
    moved, and starts a navigation from the marker only when the marker is
    visible and bound. *)
Lemma _onClick_throws (psv : Viewer) (d : ClickData) (s : State) (e : error) :
  fst (_onClick psv d s) = Throw e -> e = TypeError /\ mouseHasMoved s = false.
Proof.
  unfold _onClick, _getClosestPano, _hideMarker, bind, gets, modify, lift,
    ret, throw.
  destruct (rightclick d); simpl; [discriminate|].
  destruct (movementEnabled s); simpl; [|discriminate].
  set (p := {| latitude := click_latitude d; longitude := click_longitude d |}).
  destruct (visible (marker s)), (data (marker s)) as [pn|]; simpl;
    try discriminate;
    (destruct (mouseHasMoved s); simpl; [discriminate|]);
    (destruct (nearbyPanos s) as [l|]; simpl;
      [|intros [= <-]; by split]);
    (destruct (closestLoop_nearest psv p l) as (best & -> & _));
    (destruct best as [c|]; simpl; [discriminate|intros [= <-]; by split]).
Qed.

Lemma _onClick_from_marker (psv : Viewer) (d : ClickData) (s : State)
    (n : Navigation) :
  fst (_onClick psv d s) = Ok (Some n) -> after n = AfterMarker ->
  visible (marker s) = true /\ data (marker s) = Some (target n).
Proof.
  unfold _onClick, _getClosestPano, _hideMarker, bind, gets, modify, lift,
    ret, throw.
  destruct (rightclick d); simpl; [discriminate|].
  destruct (movementEnabled s); simpl; [|discriminate].
  set (p := {| latitude := click_latitude d; longitude := click_longitude d |}).
  destruct (visible (marker s)), (data (marker s)) as [pn|]; simpl;
    try (intros [= <-] _; by split);
    (destruct (mouseHasMoved s); simpl; [discriminate|]);
    (destruct (nearbyPanos s) as [l|]; simpl; [|discriminate]);
    (destruct (closestLoop_nearest psv p l) as (best & -> & _));
    (destruct best as [c|]; simpl; [|discriminate]);
    intros [= <-]; discriminate.
Qed.

(** The marker is visible exactly when it is bound to a panorama, and then
    a pointer position was recorded. *)
Definition bound (s : State) : Prop :=
  (visible (marker s) = true <-> is_Some (data (marker s)))
  /\ (visible (marker s) = true -> is_Some (lastMousePosition s)).

(** [bound], and a pointer position was recorded before any navigation was
    started from the marker. *)
Definition pointed (sys : System) : Prop :=
  bound (plugin sys)
  /\ (gated (inFlight sys) <> 0%nat -> is_Some (lastMousePosition (plugin sys))).

Lemma _mouseMovedTo_bound (psv : Viewer) (q : option SphericalCoords)
    (s : State) :
  q = lastMousePosition s -> bound s -> bound (snd (_mouseMovedTo psv q s)).
Proof.
  intros Hq Hb.
  destruct (_mouseMovedTo_outcomes psv q s)
    as [H|[H|[(l & c & _ & _ & Hsome & H)|[_ H]]]]; rewrite H; simpl;
    try exact Hb.
  - split; simpl; [|discriminate]. split; [discriminate|].
    intros [x Hx]. discriminate.
  - split; simpl; [|intros _; by rewrite <- Hq].
    split; [by eexists|reflexivity].
Qed.

Lemma _onMouseMove_bound (psv : Viewer) (now : Z) (x y : float) (s : State) :
  bound s
  -> bound (snd (_onMouseMove psv now x y s))
     /\ (is_Some (lastMousePosition s) ->
         is_Some (lastMousePosition (snd (_onMouseMove psv now x y s)))).
Proof.
  intros Hb. unfold _onMouseMove, bind, gets, modify, ret; simpl.
  destruct (Qltb updateLimit _); simpl; [|by split].
  destruct (viewerCoordsToVector3 psv x y) as [v|]; simpl.
  - split.
    + apply _mouseMovedTo_bound; [reflexivity|].
      destruct Hb as [Hv Hl]. split; [exact Hv|]. intros _. by eexists.
    + intros _. rewrite _mouseMovedTo_lastMousePosition. by eexists.
  - split; [|auto]. split; simpl; [|discriminate]. split; [discriminate|].
    intros [p Hp]. discriminate.
Qed.

Lemma gated_pos_lookup (l : list Navigation) (k : nat) (n : Navigation) :
  l !! k = Some n -> after n = AfterMarker -> gated l <> 0%nat.
Proof.
  intros Hk Hn. rewrite (gated_delete l k n Hk). simpl. rewrite Hn. lia.
Qed.

Lemma step_pointed (psv : Viewer) (ev : Event) (sys : System) :
  pointed sys -> pointed (step psv ev sys).
Proof.
  intros [Hb Hg]. destruct ev as [now x y|d|k|k|refPano resp]; simpl.
  - destruct (_onMouseMove_bound psv now x y (plugin sys) Hb) as [Hb' Hl'].
    split; [exact Hb'|]. intros H. apply Hl'. by apply Hg.
  - destruct (fst (_onClick psv d (plugin sys))) as [[n|]|e] eqn:Hr; simpl.
    + destruct (_onClick_outcomes psv d (plugin sys))
        as [H|[H|[[pn H]|[pn [He H]]]]]; rewrite H in Hr |- *; simpl in *;
        try discriminate.
      * injection Hr as <-. split; [exact Hb|]. simpl.
        rewrite gated_snoc. simpl. rewrite Nat.add_0_r. exact Hg.
      * injection Hr as <-.
        assert (Hv : visible (marker (plugin sys)) = true).
        { eapply (_onClick_from_marker psv d (plugin sys)
                    {| target := pn; after := AfterMarker |});
            [by rewrite H|reflexivity]. }
        split.
        -- split; simpl; [|discriminate]. split; [discriminate|].
           intros [p Hp]. discriminate.
        -- intros _. simpl. by apply Hb.
    + destruct (_onClick_outcomes psv d (plugin sys))
        as [H|[H|[[pn H]|[pn [He H]]]]]; rewrite H in Hr |- *; simpl in *;
        try discriminate. by split.
    + destruct (_onClick_outcomes psv d (plugin sys))
        as [H|[H|[[pn H]|[pn [He H]]]]]; rewrite H in Hr |- *; simpl in *;
        try discriminate. by split.
  - destruct (inFlight sys !! k) as [n|] eqn:Hk; [|by split].
    pose proof (gated_delete _ _ _ Hk) as Hd. simpl.
    unfold _onClick_resume. destruct (after n) eqn:Hn; simpl.
    + unfold bind, modify, gets; simpl.
      split.
      * apply _mouseMovedTo_bound; [reflexivity|exact Hb].
      * intros _. simpl. rewrite _mouseMovedTo_lastMousePosition. simpl.
        apply Hg. by eapply gated_pos_lookup.
    + split; [exact Hb|]. intros H. apply Hg. simpl in Hd, H.
      rewrite Hn in Hd. lia.
  - destruct (inFlight sys !! k) as [n|] eqn:Hk; [|by split].
    pose proof (gated_delete _ _ _ Hk) as Hd. simpl.
    split; [exact Hb|]. intros H. apply Hg. simpl in H. lia.
  - split; [exact Hb|exact Hg].
Qed.

Lemma reachable_pointed (sys : System) : reachable sys -> pointed sys.
Proof.
  induction 1 as [|sys psv ev Hr IH]; [|by apply step_pointed].
  split; [split|]; simpl; try discriminate; try (intros H; by destruct H).
  split; [discriminate|]. intros [p Hp]. discriminate.
Qed.

(** In every state the plugin can reach, the marker is visible exactly when
    it is bound to a panorama, and no handler throws except [_onClick] on a
    device whose pointer never moved (a [TypeError]) and a navigation that
    is rejected: pointer moves and completed navigations never
    throw. *)
Theorem exceptions_only_from_taps (sys : System) (psv : Viewer) (ev : Event) :
  reachable sys ->
  (visible (marker (plugin sys)) = true <-> is_Some (data (marker (plugin sys))))
  /\ (uncaught (step psv ev sys) = uncaught sys
      \/ (exists d, ev = Click d /\ mouseHasMoved (plugin sys) = false
            /\ uncaught (step psv ev sys) = TypeError :: uncaught sys)
      \/ (exists k, ev = NavigationFailed k
            /\ uncaught (step psv ev sys) = Rejection :: uncaught sys)).
Proof.
  intros Hr. destruct (reachable_pointed sys Hr) as [[Hvd Hvl] Hg].
  split; [exact Hvd|].
  destruct ev as [now x y|d|k|k|refPano resp]; simpl.
  - left. by rewrite _onMouseMove_ok.
  - destruct (fst (_onClick psv d (plugin sys))) as [[n|]|e] eqn:Hc; simpl;
      rewrite ?Hc; auto.
    destruct (_onClick_throws psv d (plugin sys) e Hc) as [-> Hm].
    right; left. exists d. by repeat split.
  - destruct (inFlight sys !! k) as [n|] eqn:Hk; [|by left]. left. simpl.
    unfold _onClick_resume. destruct (after n) eqn:Hn; simpl; [|reflexivity].
    unfold bind, modify, gets; simpl.
    match goal with |- context [_mouseMovedTo psv ?q ?s1] =>
      destruct (_mouseMovedTo_outcomes psv q s1)
        as [H|[H|[(l & c & _ & _ & _ & H)|[Hq H]]]]; rewrite H; simpl;
        try reflexivity end.
    simpl in Hq. destruct (Hg (gated_pos_lookup _ _ _ Hk Hn)) as [p Hp].
    congruence.
  - destruct (inFlight sys !! k) as [n|] eqn:Hk; [|by left].
    right; right. by exists k.
  - by left.
Qed.

(** A left click or tap before [updatePanoMarkers] has ever run, on a
    device whose pointer never moved: [_getClosestPano] iterates over an
    [undefined] candidate set and the [TypeError] leaves [_onClick]; the
    fields are left as they were.  ([_mouseMovedTo] tests for the missing
    set and returns.) *)
Theorem tap_before_candidates_throws (psv : Viewer) (d : ClickData) (s : State) :
  rightclick d = false -> movementEnabled s = true ->
  visible (marker s) = false \/ data (marker s) = None ->
  mouseHasMoved s = false ->
  nearbyPanos s = None ->
  _onClick psv d s = (Throw TypeError, s)
  /\ forall q, _mouseMovedTo psv q s = (Ok tt, s).
Proof.
  intros Hd Hen Hm Hmv Hl. split.
  - unfold _onClick, _getClosestPano, bind, gets, throw, ret.
    rewrite Hd, Hen; simpl.
    destruct Hm as [Hv|Hdt];
      [rewrite Hv | rewrite Hdt; destruct (visible (marker s))];
      simpl; rewrite Hmv; simpl; rewrite Hl; reflexivity.
  - intros q. unfold _mouseMovedTo, bind, gets, ret. rewrite Hl. reflexivity.
Qed.

(** With a pointer position and a candidate set, [_getClosestPano] does
    not throw and changes nothing; it returns a candidate of the set that
    is on screen and nearer than the starting bound, such that no candidate
    on screen is strictly nearer, and it returns [null] only when no
    candidate is on screen and nearer than the bound. *)
Theorem _getClosestPano_nearest (psv : Viewer) (p : SphericalCoords)
    (s : State) (l : list Candidate) :
  nearbyPanos s = Some l ->
  exists best : option Candidate,
    _getClosestPano psv (Some p) s = (Ok best, s)
    /\ match best with
       | Some c => nearest psv p l c
       | None => forall c, c ∈ l -> ~ qualifies psv p c
       end.
Proof.
  intros Hl. destruct (closestLoop_nearest psv p l) as (best & Hrun & Hbest).
  exists best. split; [|exact Hbest].
  unfold _getClosestPano, bind, gets, lift. rewrite Hl, Hrun. reflexivity.
Qed.

(** Navigation input is disabled while no navigation started from the
    marker is in flight: the navigation was rejected, so the line of
    [_onClick] that enables input again never ran. *)
Definition locked (sys : System) : Prop :=
  movementEnabled (plugin sys) = false /\ gated (inFlight sys) = 0%nat.

Lemma step_locked (psv : Viewer) (ev : Event) (sys : System) :
  locked sys ->
  locked (step psv ev sys)
  /\ inFlight (step psv ev sys) `sublist_of` inFlight sys.
Proof.
  unfold locked. intros [Hen Hg].
  destruct ev as [now x y|d|k|k|refPano resp]; simpl.
  - rewrite _onMouseMove_enabled. by repeat split.
  - rewrite (_onClick_disabled psv d (plugin sys) Hen). simpl.
    by repeat split.
  - destruct (inFlight sys !! k) as [n|] eqn:Hk; [|by repeat split].
    pose proof (gated_delete _ _ _ Hk) as Hd. simpl in *.
    unfold _onClick_resume. destruct (after n); [lia|]. simpl.
    repeat split; auto; [lia|apply sublist_delete].
  - destruct (inFlight sys !! k) as [n|] eqn:Hk; [|by repeat split].
    pose proof (gated_delete _ _ _ Hk) as Hd. simpl in *.
    repeat split; auto; [lia|apply sublist_delete].
  - by repeat split.
Qed.

(** After a rejected navigation from the marker, input stays disabled
    whatever happens next: [movementEnabled] stays false, the marker stays
    hidden, no navigation is started, and every click is ignored. *)
Theorem rejected_navigation_locks (sys : System) (evs : list (Viewer * Event)) :
  reachable sys -> locked sys ->
  movementEnabled (plugin (steps evs sys)) = false
  /\ visible (marker (plugin (steps evs sys))) = false
  /\ inFlight (steps evs sys) `sublist_of` inFlight sys
  /\ forall psv d, _onClick psv d (plugin (steps evs sys))
                   = (Ok None, plugin (steps evs sys)).
Proof.
  intros Hr Hl.
  assert (H : locked (steps evs sys)
              /\ inFlight (steps evs sys) `sublist_of` inFlight sys).
  { clear Hr. revert sys Hl. induction evs as [|[psv ev] evs IH];
      intros sys Hl; simpl; [by split|].
    destruct (step_locked psv ev sys Hl) as (Hl' & Hs).
    destruct (IH _ Hl') as [Hl'' Hs']. split; [exact Hl''|].
    by etrans. }
  destruct H as [[Hen Hg] Hs].
  pose proof (reachable_guarded _ (reachable_steps evs sys Hr)) as Hgd.
  repeat split; auto.
  - apply Hgd. by left.
  - intros psv d. by apply _onClick_disabled.
Qed.

(** *** Where navigation targets come from *)

(** Every candidate of the set and the panorama the marker is bound to
    satisfy [P]. *)
Definition kept (P : Pano -> Prop) (s : State) : Prop :=
  (forall l c, nearbyPanos s = Some l -> c ∈ l -> P (pano c))
  /\ (forall p, data (marker s) = Some p -> P p).

(** So do the targets of the navigations in flight and the panoramas
    notified as [moved]. *)
Definition sourced (P : Pano -> Prop) (sys : System) : Prop :=
  kept P (plugin sys)
  /\ (forall n, n ∈ inFlight sys -> P (target n))
  /\ (forall p, p ∈ moved sys -> P p).

(** The neighbour [p] came with an answer to [updatePanoMarkers] during
    [evs] and passed its two tests. *)
Definition answered (evs : list (Viewer * Event)) (p : Pano) : Prop :=
  exists psv refPano responsePanos,
    (psv, PanoMarkers refPano responsePanos) ∈ evs
    /\ p ∈ responsePanos /\ passes refPano p = true.

Lemma _mouseMovedTo_kept (P : Pano -> Prop) (psv : Viewer)
    (q : option SphericalCoords) (s : State) :
  kept P s -> kept P (snd (_mouseMovedTo psv q s)).
Proof.
  intros [Hl Hm].
  destruct (_mouseMovedTo_outcomes psv q s)
    as [H|[H|[(l & c & Hn & Hc & _ & H)|[_ H]]]]; rewrite H; simpl;
    try (by split).
  split; [exact Hl|]. simpl. intros p [= <-]. by apply (Hl l).
Qed.

Lemma _onMouseMove_kept (P : Pano -> Prop) (psv : Viewer) (now : Z)
    (x y : float) (s : State) :
  kept P s -> kept P (snd (_onMouseMove psv now x y s)).
Proof.
  intros Hk. unfold _onMouseMove, bind, gets, modify, ret; simpl.
  destruct (Qltb updateLimit _); simpl; [|exact Hk].
  destruct (viewerCoordsToVector3 psv x y) as [v|]; simpl.
  - apply _mouseMovedTo_kept. exact Hk.
  - destruct Hk as [Hl Hm]. split; [exact Hl|]. simpl. discriminate.
Qed.

Lemma _onClick_kept (P : Pano -> Prop) (psv : Viewer) (d : ClickData)
    (s : State) :
  kept P s -> kept P (snd (_onClick psv d s)).
Proof.
  intros Hk.
  destruct (_onClick_outcomes psv d s) as [H|[H|[[pn H]|(pn & _ & H)]]];
    rewrite H; simpl; try exact Hk.
  destruct Hk as [Hl Hm]. split; [exact Hl|]. simpl. discriminate.
Qed.

Lemma _onClick_target (psv : Viewer) (d : ClickData) (s : State)
    (n : Navigation) :
  fst (_onClick psv d s) = Ok (Some n) ->
  data (marker s) = Some (target n)
  \/ exists l c, nearbyPanos s = Some l /\ c ∈ l /\ target n = pano c.
Proof.
  unfold _onClick, _getClosestPano, _hideMarker, bind, gets, modify, lift,
    ret, throw.
  destruct (rightclick d); simpl; [discriminate|].
  destruct (movementEnabled s); simpl; [|discriminate].
  set (p := {| latitude := click_latitude d; longitude := click_longitude d |}).
  destruct (visible (marker s)), (data (marker s)) as [pn|]; simpl;
    try (intros [= <-]; by left);
    (destruct (mouseHasMoved s); simpl; [discriminate|]);
    (destruct (nearbyPanos s) as [l|]; simpl; [|discriminate]);
    (destruct (closestLoop_nearest psv p l) as (best & -> & Hbest));
    (destruct best as [c|]; simpl; [|discriminate]);
    intros [= <-]; right; exists l, c; destruct Hbest as [Hc _];
    by repeat split.
Qed.

Lemma _onClick_resume_kept (P : Pano -> Prop) (psv : Viewer) (n : Navigation)
    (s : State) :
  kept P s -> kept P (snd (_onClick_resume psv n s)).
Proof.
  intros Hk. unfold _onClick_resume.
  destruct (after n); simpl; [|exact Hk].
  unfold bind, modify, gets; simpl. apply _mouseMovedTo_kept. exact Hk.
Qed.

Lemma updatePanoMarkers_kept (P : Pano -> Prop) (refPano : Pano)
    (responsePanos : list Pano) (s : State) :
  (forall p, p ∈ responsePanos -> passes refPano p = true -> P p) ->
  kept P s -> kept P (snd (updatePanoMarkers refPano responsePanos s)).
Proof.
  intros Hp [_ Hm]. split; [|exact Hm]. simpl. intros l c [= <-] Hc.
  destruct (candidates_sound refPano responsePanos c Hc)
    as (Hin & Hpos & Hd & He).
  apply Hp; [exact Hin|]. unfold passes. rewrite He, <- Hpos, Hd. reflexivity.
Qed.

Lemma step_sourced (P : Pano -> Prop) (psv : Viewer) (ev : Event)
    (sys : System) :
  (forall refPano responsePanos p,
     ev = PanoMarkers refPano responsePanos ->
     p ∈ responsePanos -> passes refPano p = true -> P p) ->
  sourced P sys -> sourced P (step psv ev sys).
Proof.
  intros Hp (Hk & Hf & Hmv).
  destruct ev as [now x y|d|k|k|refPano resp]; simpl.
  - split; [|by split]. by apply _onMouseMove_kept.
  - pose proof (_onClick_kept P psv d (plugin sys) Hk) as Hk'.
    destruct (fst (_onClick psv d (plugin sys))) as [[n|]|e] eqn:Hc;
      simpl; try (split; [exact Hk'|by split]).
    split; [exact Hk'|]. split; [|exact Hmv].
    intros n' Hn'. apply elem_of_app in Hn' as [Hn'|Hn']; [by apply Hf|].
    apply elem_of_cons in Hn' as [->|Hn']; [|inversion Hn'].
    destruct (_onClick_target psv d (plugin sys) n Hc)
      as [Hd|(l & c & Hl & Hcl & ->)].
    + by apply (proj2 Hk).
    + by apply (proj1 Hk l).
  - destruct (inFlight sys !! k) as [n|] eqn:Hn; [|by split].
    assert (Hdel : forall n', n' ∈ delete k (inFlight sys) -> P (target n')).
    { intros n' Hn'. apply Hf. by apply list_elem_of_delete_inv in Hn'. }
    split; [by apply _onClick_resume_kept|]. split; [exact Hdel|].
    simpl. intros p Hpm. apply elem_of_cons in Hpm as [->|Hpm];
      [|by apply Hmv].
    apply Hf. by apply list_elem_of_lookup_2 in Hn.
  - destruct (inFlight sys !! k) as [n|] eqn:Hn; [|by split].
    split; [exact Hk|]. split; [|exact Hmv]. simpl.
    intros n' Hn'. apply Hf. by apply list_elem_of_delete_inv in Hn'.
  - split; [|by split]. simpl. apply updatePanoMarkers_kept; [|exact Hk].
    intros p. by apply Hp.
Qed.

Lemma steps_sourced (P : Pano -> Prop) (evs : list (Viewer * Event))
    (sys : System) :
  (forall psv refPano responsePanos p,
     (psv, PanoMarkers refPano responsePanos) ∈ evs ->
     p ∈ responsePanos -> passes refPano p = true -> P p) ->
  sourced P sys -> sourced P (steps evs sys).
Proof.
  revert sys. induction evs as [|[psv ev] evs IH]; intros sys Hp Hs; simpl;
    [exact Hs|].
  apply IH.
  - intros psv' refPano resp p Hin. apply (Hp psv'). apply elem_of_cons.
    by right.
  - apply step_sourced; [|exact Hs].
    intros refPano resp p -> Hin Hpass. apply (Hp psv refPano resp);
      [apply elem_of_cons; by left|exact Hin|exact Hpass].
Qed.

(** The plugin navigates only to neighbours it was given: whatever
    happened since the constructor, the target of every navigation in
    flight, every panorama notified as [moved] and the panorama the marker
    is bound to came with an answer to [updatePanoMarkers] and passed its
    two tests there (not the panorama the answer was asked for, and not
    farther than [MAX_DISTANCE]). *)
Theorem targets_were_answered (evs : list (Viewer * Event)) :
  let sys := steps evs boot in
  (forall n, n ∈ inFlight sys -> answered evs (target n))
  /\ (forall p, p ∈ moved sys -> answered evs p)
  /\ (forall p, data (marker (plugin sys)) = Some p -> answered evs p).
Proof.
  assert (H : sourced (answered evs) (steps evs boot)).
  { apply steps_sourced.
    - intros psv refPano resp p Hin Hp Hpass. by exists psv, refPano, resp.
    - split; [split|split]; simpl; try discriminate;
        intros ? Hin; inversion Hin. }
  destruct H as ((_ & Hm) & Hf & Hmv). simpl. by repeat split.
Qed.

End WithGeo.

(** *** Runs of the model *)

(** Stand-ins for [geo.js] and for the viewer, used only to run the model
    on examples (every theorem above holds whatever these functions are):
    a flat east-north-up offset with fixed metres per degree, the
    straight-line distance of that offset, a planar pointer distance, and
    a viewer of 1920 by 1080 that shows the position (pitch, yaw) at the
    pixel (yaw, pitch). *)
Definition flatEnu (lon lat elevDelta refLon refLat refHeight : float)
  : float * float * float :=
  ((lon - refLon) * 111320, (lat - refLat) * 110574, elevDelta - refHeight)%float.

Definition flatPhotoSphere (enu : float * float * float) (offset : float)
  : Position :=
  let '(e, n, u) := enu in
  {| yaw := (e + offset)%float; pitch := n;
     distance := PrimFloat.sqrt (e * e + n * n + u * u)%float |}.

Definition flatDistance (lat1 lon1 lat2 lon2 scale : float) : float :=
  (PrimFloat.sqrt ((lat1 - lat2) * (lat1 - lat2) + (lon1 - lon2) * (lon1 - lon2))
   * scale)%float.

Definition flatViewer : Viewer :=
  {| viewerCoordsToVector3 := fun x y => Some (x, y, 1%float);
     vector3ToSphericalCoords :=
       fun v => {| latitude := snd (fst v); longitude := fst (fst v) |};
     sphericalCoordsToViewerCoords := fun c => (longitude c, latitude c);
     size_width := 1920;
     size_height := 1080 |}.

(** The scenario of the specification: a reference panorama, a neighbour
    about 11 m north of it and one about 1.1 km north of it. *)
Definition refPano : Pano :=
  {| panoid := 0; lat := 48.0000; lon := 11.0000; rawElevation := 1000 |}.
Definition neighbourA : Pano :=
  {| panoid := 1; lat := 48.0001; lon := 11.0000; rawElevation := 1000 |}.
Definition neighbourB : Pano :=
  {| panoid := 2; lat := 48.0100; lon := 11.0000; rawElevation := 1000 |}.

(** A touch device showing [refPano]: the candidate set is loaded, no
    pointer ever moved, the marker is hidden. *)
Definition touchDevice : System :=
  step flatEnu flatPhotoSphere flatDistance flatViewer
    (PanoMarkers refPano [refPano; neighbourA; neighbourB]) boot.

Example touchDevice_candidates :
  option_map (map pano) (nearbyPanos (plugin touchDevice)) = Some [neighbourA].
Proof. vm_compute. reflexivity. Qed.

(** The test [distance > MAX_DISTANCE] lets a distance that is not a
    number through: a neighbour whose elevation is NaN is kept by these
    stand-ins, with a NaN distance. *)
Example nan_distance_kept :
  PrimFloat.is_nan <$>
    (distance <$>
       (position <$>
          candidates flatEnu flatPhotoSphere refPano
            [ {| panoid := 3; lat := 48.0001; lon := 11.0000;
                 rawElevation := PrimFloat.nan |} ]))
  = [true].
Proof. vm_compute. reflexivity. Qed.

(** Not C2 as stated: the neighbour whose elevation is NaN is stored by
    [updatePanoMarkers] with a distance that is not at most 100. *)
Lemma nan_distance_stored :
  exists c : Candidate,
    nearbyPanos
      (snd (updatePanoMarkers flatEnu flatPhotoSphere refPano
              [ {| panoid := 3; lat := 48.0001; lon := 11.0000;
                   rawElevation := PrimFloat.nan |} ] constructor))
    = Some [c]
    /\ (distance (position c) <=? 100)%float = false.
Proof. eexists. vm_compute. split; reflexivity. Qed.

Lemma tap_without_candidate_throws_witness :
  _onClick flatDistance flatViewer tap (set_nearbyPanos [] constructor)
  = (Throw TypeError, set_nearbyPanos [] constructor).
Proof.
  apply (tap_without_candidate_throws flatDistance flatViewer tap
           (set_nearbyPanos [] constructor)); try reflexivity.
  by left.
Defined.

(** The candidate [updatePanoMarkers] builds for [neighbourA]. *)
Definition candidateA : Candidate :=
  {| pano := neighbourA;
     position := positionOf flatEnu flatPhotoSphere refPano neighbourA;
     scale := (0.05 + (0.5 - (0.5 * distance
                 (positionOf flatEnu flatPhotoSphere refPano neighbourA))
                 / 100))%float |}.

Lemma touchDevice_tap :
  movementEnabled (plugin touchDevice) = true
  /\ visible (marker (plugin touchDevice)) = false
  /\ mouseHasMoved (plugin touchDevice) = false
  /\ nearbyPanos (plugin touchDevice) = Some [candidateA]
  /\ closestLoop flatDistance flatViewer
       (Some {| latitude := click_latitude tap;
                longitude := click_longitude tap |})
       [candidateA] None 9999999%float = Ok (Some candidateA).
Proof. vm_compute. repeat split; reflexivity. Qed.

Lemma second_tap_not_ignored_witness :
  inFlight (step flatEnu flatPhotoSphere flatDistance flatViewer (Click tap)
              (step flatEnu flatPhotoSphere flatDistance flatViewer
                 (Click tap) touchDevice))
  = inFlight touchDevice ++ [ {| target := neighbourA; after := AfterTap |};
                              {| target := neighbourA; after := AfterTap |} ].
Proof.
  destruct touchDevice_tap as (Hen & Hv & Hmv & Hl & Hrun).
  exact (proj2 (proj2
    (second_tap_not_ignored flatEnu flatPhotoSphere flatDistance flatViewer
       tap touchDevice [candidateA] candidateA eq_refl Hen (or_introl Hv)
       Hmv Hl Hrun))).
Defined.

(** A desktop showing [refPano]: the pointer moved over the candidate and
    the marker was clicked, then clicked again. *)
Definition clickedTwice : System :=
  steps flatEnu flatPhotoSphere flatDistance
    [ (flatViewer, PanoMarkers refPano [refPano; neighbourA; neighbourB]);
      (flatViewer, MouseMove 1000 0 11);
      (flatViewer, Click tap);
      (flatViewer, Click tap) ]
    boot.

Example clickedTwice_inFlight :
  inFlight clickedTwice = [ {| target := neighbourA; after := AfterMarker |} ]
  /\ movementEnabled (plugin clickedTwice) = false
  /\ visible (marker (plugin clickedTwice)) = false.
Proof. vm_compute. repeat split; reflexivity. Qed.

Lemma marker_navigation_gate_witness :
  (gated (inFlight clickedTwice) <= 1)%nat.
Proof.
  apply (marker_navigation_gate flatEnu flatPhotoSphere flatDistance
           clickedTwice).
  apply reachable_steps, reachable_boot.
Defined.

Lemma touchDevice_reachable :
  reachable flatEnu flatPhotoSphere flatDistance touchDevice.
Proof. apply reachable_step, reachable_boot. Qed.

Lemma touchDevice_move :
  Qltb updateLimit
    (inject_Z (1000 - lastProcessedMoveEvent (plugin touchDevice))) = true
  /\ viewerCoordsToVector3 flatViewer 0 10 = Some (0, 10, 1)%float.
Proof. vm_compute. split; reflexivity. Qed.

Example touchDevice_move_shows :
  marker (plugin (step flatEnu flatPhotoSphere flatDistance flatViewer
                    (MouseMove 1000 0 10) touchDevice))
  = shown candidateA.
Proof. vm_compute. reflexivity. Qed.

Lemma pointer_move_marker_witness :
  uncaught (step flatEnu flatPhotoSphere flatDistance flatViewer
              (MouseMove 1000 0 10) touchDevice) = uncaught touchDevice
  /\ lastMousePosition
       (plugin (step flatEnu flatPhotoSphere flatDistance flatViewer
                  (MouseMove 1000 0 10) touchDevice))
     = Some {| latitude := 10; longitude := 0 |}
  /\ visible
       (marker (plugin (step flatEnu flatPhotoSphere flatDistance flatViewer
                          (MouseMove 1000 0 10) touchDevice))) = true.
Proof.
  destruct (pointer_move_marker flatEnu flatPhotoSphere flatDistance
              touchDevice flatViewer 1000 0 10 (0, 10, 1)%float
              touchDevice_reachable (proj1 touchDevice_move)
              (proj2 touchDevice_move))
    as (H1 & H2 & [(l & c & _ & _ & _ & Hm)|(Hv & _)]).
  - split; [exact H1|]. split; [exact H2|]. rewrite Hm. reflexivity.
  - rewrite touchDevice_move_shows in Hv. discriminate Hv.
Defined.

(** *** Runs for the properties above *)

Lemma clickedTwice_reachable :
  reachable flatEnu flatPhotoSphere flatDistance clickedTwice.
Proof. apply reachable_steps, reachable_boot. Qed.

Lemma exceptions_only_from_taps_witness :
  (visible (marker (plugin clickedTwice)) = true
   <-> is_Some (data (marker (plugin clickedTwice))))
  /\ (uncaught (step flatEnu flatPhotoSphere flatDistance flatViewer
                  (NavigationDone 0) clickedTwice) = uncaught clickedTwice
      \/ (exists d, NavigationDone 0 = Click d
            /\ mouseHasMoved (plugin clickedTwice) = false
            /\ uncaught (step flatEnu flatPhotoSphere flatDistance flatViewer
                           (NavigationDone 0) clickedTwice)
               = TypeError :: uncaught clickedTwice)
      \/ (exists k, NavigationDone 0 = NavigationFailed k
            /\ uncaught (step flatEnu flatPhotoSphere flatDistance flatViewer
                           (NavigationDone 0) clickedTwice)
               = Rejection :: uncaught clickedTwice)).
Proof.
  exact (exceptions_only_from_taps flatEnu flatPhotoSphere flatDistance
           clickedTwice flatViewer (NavigationDone 0) clickedTwice_reachable).
Defined.

Lemma tap_before_candidates_throws_witness :
  _onClick flatDistance flatViewer tap constructor
  = (Throw TypeError, constructor)
  /\ forall q, _mouseMovedTo flatDistance flatViewer q constructor
               = (Ok tt, constructor).
Proof.
  apply (tap_before_candidates_throws flatDistance flatViewer tap constructor);
    try reflexivity.
  by left.
Defined.

Lemma _getClosestPano_nearest_witness :
  exists best : option Candidate,
    _getClosestPano flatDistance flatViewer
      (Some {| latitude := 10; longitude := 0 |}) (plugin touchDevice)
    = (Ok best, plugin touchDevice)
    /\ match best with
       | Some c =>
           nearest flatDistance flatViewer {| latitude := 10; longitude := 0 |}
             [candidateA] c
       | None =>
           forall c, c ∈ [candidateA] ->
             ~ qualifies flatDistance flatViewer
                 {| latitude := 10; longitude := 0 |} c
       end.
Proof.
  exact (_getClosestPano_nearest flatEnu flatPhotoSphere flatDistance flatViewer
           {| latitude := 10; longitude := 0 |} (plugin touchDevice)
           [candidateA] (proj1 (proj2 (proj2 (proj2 touchDevice_tap))))).
Defined.

(** The desktop of [clickedTwice] after its navigation was rejected. *)
Definition rejected : System :=
  step flatEnu flatPhotoSphere flatDistance flatViewer (NavigationFailed 0)
    clickedTwice.

Lemma rejected_locked :
  reachable flatEnu flatPhotoSphere flatDistance rejected /\ locked rejected.
Proof.
  split; [apply reachable_step, clickedTwice_reachable|].
  vm_compute. split; reflexivity.
Qed.

Lemma rejected_navigation_locks_witness :
  movementEnabled
    (plugin (steps flatEnu flatPhotoSphere flatDistance
               [(flatViewer, MouseMove 5000 0 11); (flatViewer, Click tap)]
               rejected)) = false
  /\ inFlight (steps flatEnu flatPhotoSphere flatDistance
                 [(flatViewer, MouseMove 5000 0 11); (flatViewer, Click tap)]
                 rejected) `sublist_of` inFlight rejected.
Proof.
  destruct (rejected_navigation_locks flatEnu flatPhotoSphere flatDistance
              rejected
              [(flatViewer, MouseMove 5000 0 11); (flatViewer, Click tap)]
              (proj1 rejected_locked) (proj2 rejected_locked))
    as (H1 & _ & H2 & _).
  split; [exact H1|exact H2].
Defined.

End Movement.

(* ===================================================================== *)
(** ** The Look Around adapter ([LookaroundAdapter]) *)

Module Adapter.
Import Js.

(** *** Data *)

Definition FACES : nat := 6.

(** The inner panorama object: [panorama.projection.latitude_size], the
    face extents, and [panorama.url] as the constructor reads it (the text
    a template gives for it). *)
Record Panorama : Type := {
  latitude_size : list float;
  panorama_url : string;
}.

(** The argument of [loadTexture]: [{ panorama, url }]. *)
Record PanoramaMetadata : Type := {
  md_panorama : Panorama;
  md_url : string;
}.

(** A texture made by [__loadOneTexture]: the image it was created from
    (named by the address it was fetched from) and its [userData], that is
    [zoom], [url] and, once [__refreshFaces] has written it, [refreshing]
    (absent counts as [false], as [!undefined] does). *)
Record Texture : Type := {
  image : string;
  zoom : Z;
  url : string;
  refreshing : bool;
}.

(** A [THREE.MeshBasicMaterial], of which the adapter reads and writes the
    [map] only. *)
Record Material : Type := {
  map : option Texture;
}.

(** The arguments of [new THREE.SphereGeometry(...)]. *)
Record SphereParams : Type := {
  radius : float;
  widthSegments : Z;
  heightSegments : Z;
  phiStart : float;
  phiLength : float;
  thetaStart : float;
  thetaLength : option float;
}.

(** A buffer geometry: its [position] and [uv] attributes, one entry per
    vertex.  [getX], [getY], [getZ] and [setXY] of an attribute read and
    write these entries.  Both attributes are backed by a [Float32Array],
    so a write keeps [fround] of the number it is given. *)
Record Geometry : Type := {
  position : list (float * float * float);
  uv : list (float * float);
}.

(** A [THREE.Mesh]: the geometries merged into it, one group per face, and
    its material array. *)
Record Mesh : Type := {
  geometry : list Geometry;
  material : list Material;
}.

(** A [THREE.Group], by identity, with the meshes added to it. *)
Record Group : Type := {
  group_id : nat;
  children : list nat;
}.

(** A texture request that has not settled: the arguments of
    [__loadOneTexture], the address it asked for, and the [oldUrl] that the
    callback of [__refreshFaces] holds. *)
Record Fetch : Type := {
  fetch_zoom : Z;
  fetch_faceIdx : nat;
  fetch_faceUrl : string;
  oldUrl : string;
}.

(** The adapter and the objects it shares with the viewer.  Meshes are
    mutable objects reached from [this.mesh] and from
    [psv.renderer.mesh]: they live in [meshes] and are named by identity;
    [fresh] is the next unused identity.  [pending] holds the upgrade
    requests in flight, oldest first; [needsUpdate] counts the calls of
    [psv.needsUpdate()]. *)
Record World : Type := {
  endpoint : string;
  panorama : Panorama;
  this_url : string;
  previousThetaLength : option float;
  dynamicLoadingEnabled : bool;
  mesh : option nat;
  meshesForFrustum : list Geometry;
  meshes : gmap nat Mesh;
  fresh : nat;
  renderer_mesh : nat;
  renderer_meshContainer : Group;
  scene : list Group;
  pending : list Fetch;
  needsUpdate : nat;
}.

Definition SPHERE_HORIZONTAL_SEGMENTS : Z := 32.

Definition set_panorama (md : PanoramaMetadata) (w : World) : World :=
  {| endpoint := endpoint w; panorama := md_panorama md; this_url := md_url md;
     previousThetaLength := previousThetaLength w;
     dynamicLoadingEnabled := dynamicLoadingEnabled w;
     mesh := mesh w; meshesForFrustum := meshesForFrustum w;
     meshes := meshes w; fresh := fresh w;
     renderer_mesh := renderer_mesh w;
     renderer_meshContainer := renderer_meshContainer w; scene := scene w;
     pending := pending w; needsUpdate := needsUpdate w |}.

Definition set_previousThetaLength (t : option float) (w : World) : World :=
  {| endpoint := endpoint w; panorama := panorama w; this_url := this_url w;
     previousThetaLength := t;
     dynamicLoadingEnabled := dynamicLoadingEnabled w;
     mesh := mesh w; meshesForFrustum := meshesForFrustum w;
     meshes := meshes w; fresh := fresh w;
     renderer_mesh := renderer_mesh w;
     renderer_meshContainer := renderer_meshContainer w; scene := scene w;
     pending := pending w; needsUpdate := needsUpdate w |}.

(** [this.meshesForFrustum = gs; this.mesh = new THREE.Mesh(...)]: the new
    mesh [m] takes the identity [fresh w]. *)
Definition new_mesh (gs : list Geometry) (m : Mesh) (w : World) : World :=
  {| endpoint := endpoint w; panorama := panorama w; this_url := this_url w;
     previousThetaLength := previousThetaLength w;
     dynamicLoadingEnabled := dynamicLoadingEnabled w;
     mesh := Some (fresh w); meshesForFrustum := gs;
     meshes := <[fresh w := m]> (meshes w); fresh := S (fresh w);
     renderer_mesh := renderer_mesh w;
     renderer_meshContainer := renderer_meshContainer w; scene := scene w;
     pending := pending w; needsUpdate := needsUpdate w |}.

(** Writes of the mesh's material array. *)
Definition set_meshes (ms : gmap nat Mesh) (w : World) : World :=
  {| endpoint := endpoint w; panorama := panorama w; this_url := this_url w;
     previousThetaLength := previousThetaLength w;
     dynamicLoadingEnabled := dynamicLoadingEnabled w;
     mesh := mesh w; meshesForFrustum := meshesForFrustum w;
     meshes := ms; fresh := fresh w;
     renderer_mesh := renderer_mesh w;
     renderer_meshContainer := renderer_meshContainer w; scene := scene w;
     pending := pending w; needsUpdate := needsUpdate w |}.

(** The writes of [__recreateMeshIfNecessary] into [psv.renderer]; the new
    group takes the identity [fresh w]. *)
Definition set_renderer (id : nat) (w : World) : World :=
  let meshContainer := {| group_id := fresh w; children := [id] |} in
  {| endpoint := endpoint w; panorama := panorama w; this_url := this_url w;
     previousThetaLength := previousThetaLength w;
     dynamicLoadingEnabled := dynamicLoadingEnabled w;
     mesh := mesh w; meshesForFrustum := meshesForFrustum w;
     meshes := meshes w; fresh := S (fresh w);
     renderer_mesh := id;
     renderer_meshContainer := meshContainer;
     scene := scene w ++ [meshContainer];
     pending := pending w; needsUpdate := needsUpdate w |}.

(** [scene.remove(object)]: by identity. *)
Definition set_scene (sc : list Group) (w : World) : World :=
  {| endpoint := endpoint w; panorama := panorama w; this_url := this_url w;
     previousThetaLength := previousThetaLength w;
     dynamicLoadingEnabled := dynamicLoadingEnabled w;
     mesh := mesh w; meshesForFrustum := meshesForFrustum w;
     meshes := meshes w; fresh := fresh w;
     renderer_mesh := renderer_mesh w;
     renderer_meshContainer := renderer_meshContainer w; scene := sc;
     pending := pending w; needsUpdate := needsUpdate w |}.

Definition set_pending (fs : list Fetch) (w : World) : World :=
  {| endpoint := endpoint w; panorama := panorama w; this_url := this_url w;
     previousThetaLength := previousThetaLength w;
     dynamicLoadingEnabled := dynamicLoadingEnabled w;
     mesh := mesh w; meshesForFrustum := meshesForFrustum w;
     meshes := meshes w; fresh := fresh w;
     renderer_mesh := renderer_mesh w;
     renderer_meshContainer := renderer_meshContainer w; scene := scene w;
     pending := fs; needsUpdate := needsUpdate w |}.

Definition request_update (w : World) : World :=
  {| endpoint := endpoint w; panorama := panorama w; this_url := this_url w;
     previousThetaLength := previousThetaLength w;
     dynamicLoadingEnabled := dynamicLoadingEnabled w;
     mesh := mesh w; meshesForFrustum := meshesForFrustum w;
     meshes := meshes w; fresh := fresh w;
     renderer_mesh := renderer_mesh w;
     renderer_meshContainer := renderer_meshContainer w; scene := scene w;
     pending := pending w; needsUpdate := S (needsUpdate w) |}.

Section WithThree.

#[local] Set Warnings "-inexact-float".

(** three.js and the viewer's constants are not among the sources:
    [SphereGeometry] stands for [new THREE.SphereGeometry(...)] and
    [SPHERE_RADIUS] for [PhotoSphereViewer.CONSTANTS.SPHERE_RADIUS]. *)
Variable SphereGeometry : SphereParams -> Geometry.
Variable SPHERE_RADIUS : float.

(** *** Building the mesh *)

Definition degToRad (deg : float) : float := (deg * PI / 180)%float.

(** [vector.applyMatrix4(m)] of three.js for the matrix of
    [makeScale(sx, sy, sz)], whose other entries are 0 and whose last is
    1: the three rows of the product, each multiplied by the perspective
    divisor. *)
Definition applyScale (sx sy sz : float) (p : float * float * float)
  : float * float * float :=
  let '(x, y, z) := p in
  let w := (1 / (0 * x + 0 * y + 0 * z + 1))%float in
  ((sx * x + 0 * y + 0 * z + 0) * w,
   (0 * x + sy * y + 0 * z + 0) * w,
   (0 * x + 0 * y + sz * z + 0) * w)%float.

(** [geom.scale(-1, 1, 1)]: every vertex of the position attribute is
    read, multiplied by the scaling matrix and written back; the [uv]
    attribute is not touched. *)
Definition scale_x (geom : Geometry) : Geometry :=
  {| position := (fun p => let '(x, y, z) := applyScale (-1) 1 1 p in
                           (fround x, fround y, fround z))
                   <$> position geom;
     uv := uv geom |}.

(** The overlap factor of [__setSideUV]. *)
Definition overlap (faceIdx : nat) : float :=
  if (faceIdx mod 2 =? 0)%nat
  then (1 - 1 / 22)%float   (* 120° faces *)
  else (1 - 1 / 12)%float.  (* 60° faces *)

(** [uv.setXY(i, u, v)] writes into the [Float32Array] of the
    attribute. *)
Definition __setSideUV (geom : Geometry) (faceIdx : nat) : Geometry :=
  {| position := position geom;
     uv := (fun c => let u := fst c in
                     let v := snd c in
                     let u := (u * overlap faceIdx)%float in
                     (fround u, fround v)) <$> uv geom |}.

(** [attribute.getX(i)] and [getZ(i)] of the position attribute; an index
    past the end reads [undefined]. *)
Definition getX (ps : list (float * float * float)) (i : nat) : float :=
  to_number ((fun p => fst (fst p)) <$> ps !! i).

Definition getZ (ps : list (float * float * float)) (i : nat) : float :=
  to_number ((fun p => snd p) <$> ps !! i).

Definition __setTopBottomUV (geom : Geometry) (faceIdx : nat) : Geometry :=
  if (faceIdx <? 4)%nat then geom
  else
    let position := Adapter.position geom in
    let largestX :=
      if (faceIdx =? 4)%nat then getX position (length position - 1)
      else getX position 0 in
    {| position := position;
       uv := imap (fun i _ =>
                     let u := getX position i in
                     let v := getZ position i in
                     let u := if (i =? 4)%nat
                              then (u / (2 * largestX) + 0.5)%float
                              else (u / (2 * - largestX) + 0.5)%float in
                     let v := (v / (2 * largestX) + 0.5)%float in
                     (fround u, fround v)) (uv geom) |}.

(** The table [faces] of [createMesh]. *)
Definition faces (panorama : Panorama) (radius : float) : list SphereParams :=
  let normalThetaLength := 1.614429558%float in
  let normalThetaStart := degToRad 28 in
  let dTheta :=
    (to_number (latitude_size panorama !! 0%nat) - normalThetaLength)%float in
  let sideFacesThetaStart := (normalThetaStart - (dTheta / 2))%float in
  [ {| radius := radius; widthSegments := 12 * 2;
       heightSegments := SPHERE_HORIZONTAL_SEGMENTS;
       phiStart := degToRad (0 - 90); phiLength := degToRad 120;
       thetaStart := sideFacesThetaStart;
       thetaLength := latitude_size panorama !! 0%nat |};
    {| radius := radius; widthSegments := 6 * 2;
       heightSegments := SPHERE_HORIZONTAL_SEGMENTS;
       phiStart := degToRad (120 - 90); phiLength := degToRad 60;
       thetaStart := sideFacesThetaStart;
       thetaLength := latitude_size panorama !! 1%nat |};
    {| radius := radius; widthSegments := 12 * 2;
       heightSegments := SPHERE_HORIZONTAL_SEGMENTS;
       phiStart := degToRad (180 - 90); phiLength := degToRad 120;
       thetaStart := sideFacesThetaStart;
       thetaLength := latitude_size panorama !! 2%nat |};
    {| radius := radius; widthSegments := 6 * 2;
       heightSegments := SPHERE_HORIZONTAL_SEGMENTS;
       phiStart := degToRad (300 - 90); phiLength := degToRad 60;
       thetaStart := sideFacesThetaStart;
       thetaLength := latitude_size panorama !! 3%nat |} ].

(** One turn of the loop of [createMesh] over [faces].  The table has
    four entries, so the index never reaches 5 and [rotateY] is never
    called. *)
Definition faceGeometry (i : nat) (params : SphereParams) : Geometry :=
  let geom := scale_x (SphereGeometry params) in
  if (i <? 4)%nat then __setSideUV geom i else __setTopBottomUV geom i.

Definition geometries (panorama : Panorama) (scale : float) : list Geometry :=
  imap faceGeometry (faces panorama (SPHERE_RADIUS * scale)%float).

(** [createMesh(scale)]: the geometries are merged with one group each,
    and every entry of the material array is the one fresh material, which
    has no [map].  The identity of the new mesh is returned. *)
Definition createMesh (scale : float) : M World nat :=
  do! panorama := gets panorama in
  let gs := geometries panorama scale in
  do! id := gets fresh in
  modify (new_mesh gs {| geometry := gs;
                         material := replicate FACES {| map := None |} |}) ;;;
  ret id.

Definition __recreateMeshIfNecessary : M World unit :=
  do! panorama := gets panorama in
  let thetaLength := latitude_size panorama !! 0%nat in
  do! previous := gets previousThetaLength in
  (if negb (strict_eq_opt previous thetaLength) then
     do! old := gets renderer_meshContainer in
     modify (fun w =>
       set_scene (filter (fun g => group_id g <> group_id old) (scene w)) w) ;;;
     do! mesh := createMesh 1 in
     modify (set_renderer mesh)
   else ret tt) ;;;
  modify (set_previousThetaLength thetaLength).

(** *** Streaming textures *)

(** The address [__loadOneTexture] asks for:
    [`${this.endpoint}${this.url}${zoom}/${faceIdx}/`]. *)
Definition faceUrl (w : World) (zoom : Z) (faceIdx : nat) : string :=
  endpoint w +:+ this_url w +:+ pretty zoom +:+ "/" +:+ pretty faceIdx +:+ "/".

(** The callback of [__loadOneTexture] once the image of [address] is
    there: the texture it returns.  [this.url] is read when the callback
    runs. *)
Definition loaded (address : string) (zoom : Z) : M World Texture :=
  do! url := gets this_url in
  ret {| image := address; zoom := zoom; url := url; refreshing := false |}.

(** [this.mesh.material]; reading it throws while [this.mesh] is
    [undefined]. *)
Definition this_mesh : M World (nat * Mesh) :=
  do! mesh := gets mesh in
  do! meshes := gets meshes in
  match mesh ≫= fun id => (fun m => (id, m)) <$> meshes !! id with
  | Some m => ret m
  | None => throw TypeError
  end.

(** [this.mesh.material[faceIdx]]: [undefined] past the end of the
    array. *)
Definition slot (w : World) (faceIdx : nat) : option Material :=
  mesh w ≫= fun id => meshes w !! id ≫= fun m => material m !! faceIdx.

(** [mesh.material[faceIdx] = m] on the mesh [id]. *)
Definition set_material (id : nat) (faceIdx : nat) (m : Material) (w : World)
  : World :=
  set_meshes
    (alter (fun me => {| geometry := geometry me;
                         material := <[faceIdx := m]> (material me) |})
           id (meshes w)) w.

(** One turn of the loop of [__refreshFaces]. *)
Definition refreshFace (zoom : Z) (faceIdx : nat) : M World unit :=
  do! me := this_mesh in
  match material (snd me) !! faceIdx with
  | None => throw TypeError
  | Some m =>
      match map m with
      | Some t =>
          if (zoom <? Adapter.zoom t) && negb (refreshing t) then
            modify (set_material (fst me) faceIdx
                      {| map := Some {| image := image t; zoom := Adapter.zoom t;
                                        url := url t; refreshing := true |} |}) ;;;
            let oldUrl := url t in
            do! address := gets (fun w => faceUrl w zoom faceIdx) in
            modify (fun w =>
              set_pending (pending w ++ [ {| fetch_zoom := zoom;
                                             fetch_faceIdx := faceIdx;
                                             fetch_faceUrl := address;
                                             oldUrl := oldUrl |} ]) w)
          else ret tt
      | None => ret tt
      end
  end.

Definition __refreshFaces (faces : list nat) (zoom : Z) : M World unit :=
  for_of faces (refreshFace zoom).

(** [__refresh(position)]: [visibleFaces] is what [__getVisibleFaces]
    answers and [vFov] is [psv.renderer.prop.vFov]; both come from the
    camera. *)
Definition __refresh (visibleFaces : list nat) (vFov : float) : M World unit :=
  do! mesh := gets mesh in
  match mesh with
  | None => ret tt
  | Some _ =>
      do! me := this_mesh in
      if (length (material (snd me)) =? 0)%nat then ret tt
      else
        do! enabled := gets dynamicLoadingEnabled in
        if negb enabled then ret tt
        else if (vFov <? 55)%float
             then __refreshFaces visibleFaces 0
             else __refreshFaces visibleFaces 2
  end.

(** The callback of [__refreshFaces] for the request [f], run with the
    texture [__loadOneTexture] resolved to. *)
Definition upgrade (f : Fetch) (texture : Texture) : M World unit :=
  do! me := this_mesh in
  match material (snd me) !! fetch_faceIdx f ≫= map with
  | None => throw TypeError
  | Some t =>
      if String.eqb (url t) (oldUrl f) then
        modify (set_material (fst me) (fetch_faceIdx f)
                  {| map := Some {| image := image texture;
                                    zoom := zoom texture;
                                    url := url texture;
                                    refreshing := false |} |}) ;;;
        modify request_update
      else ret tt
  end.

(** The request [f] resolves. *)
Definition fetchDone (f : Fetch) : M World unit :=
  do! texture := loaded (fetch_faceUrl f) (fetch_zoom f) in
  upgrade f texture.

(** [setTexture(mesh, textureData)] on the mesh [id], with the camera as
    [__refresh] finds it.  The material array has [FACES] entries. *)
Definition setTexture (id : nat) (texture : list (option Texture))
    (visibleFaces : list nat) (vFov : float) : M World unit :=
  for_of (seq 0 FACES) (fun i =>
    match texture !! i with
    | Some (Some t) => modify (set_material id i {| map := Some t |})
    | _ => ret tt
    end) ;;;
  __refresh visibleFaces vFov.

(** [loadTexture(panoramaMetadata)] up to its four requests, which it
    returns as (zoom, face, address); the viewer installs what they load
    with [setTexture]. *)
Definition loadTexture (md : PanoramaMetadata) : M World (list (Z * nat * string)) :=
  modify (set_panorama md) ;;;
  __recreateMeshIfNecessary ;;;
  let startZoom := 5 in
  do! w := gets id in
  ret ((fun i => (startZoom, i, faceUrl w startZoom i)) <$> seq 0 4).

(** The adapter in its event loop: the viewer asks for a panorama, the
    viewer installs the loaded textures on its renderer's mesh, the camera
    changes ([ZOOM_UPDATED], [BEFORE_ROTATE]), and the [k]-th request in
    flight resolves or is rejected (a rejected request runs no callback). *)
Inductive Event : Type :=
| LoadTexture (md : PanoramaMetadata)
| SetTexture (texture : list (option Texture))
    (visibleFaces : list nat) (vFov : float)
| Refresh (visibleFaces : list nat) (vFov : float)
| FetchDone (k : nat)
| FetchFailed (k : nat).

Definition step (ev : Event) (w : World) : World :=
  match ev with
  | LoadTexture md => snd (loadTexture md w)
  | SetTexture texture visibleFaces vFov =>
      snd (setTexture (renderer_mesh w) texture visibleFaces vFov w)
  | Refresh visibleFaces vFov => snd (__refresh visibleFaces vFov w)
  | FetchDone k =>
      match pending w !! k with
      | Some f => snd (fetchDone f (set_pending (delete k (pending w)) w))
      | None => w
      end
  | FetchFailed k => set_pending (delete k (pending w)) w
  end.

Fixpoint steps (evs : list Event) (w : World) : World :=
  match evs with
  | [] => w
  | ev :: rest => steps rest (step ev w)
  end.

(** The adapter after its constructor: no mesh is built yet, the store
    and the scene are empty, and the renderer's fields name nothing. *)
Definition constructor (endpoint : string) (md : PanoramaMetadata) : World :=
  {| endpoint := endpoint;
     panorama := md_panorama md;
     this_url := panorama_url (md_panorama md);
     previousThetaLength := latitude_size (md_panorama md) !! 0%nat;
     dynamicLoadingEnabled := true;
     mesh := None; meshesForFrustum := [];
     meshes := ∅; fresh := 1;
     renderer_mesh := 0;
     renderer_meshContainer := {| group_id := 0; children := [] |};
     scene := [];
     pending := []; needsUpdate := 0 |}.

(** The viewer's renderer then builds the first mesh with [createMesh]
    and puts it into the scene inside a group, the way
    [__recreateMeshIfNecessary] does later. *)
Definition boot (endpoint : string) (md : PanoramaMetadata) : World :=
  snd ((do! mesh := createMesh 1 in modify (set_renderer mesh))
         (constructor endpoint md)).

(** *** Observations *)

(** The texture in the slot of a face, and its quality level. *)
Definition texture (w : World) (faceIdx : nat) : option Texture :=
  slot w faceIdx ≫= map.

Definition level (w : World) (faceIdx : nat) : option Z :=
  zoom <$> texture w faceIdx.

(** The number of upgrade requests in flight for a face. *)
Fixpoint inFlightFor (faceIdx : nat) (fs : list Fetch) : nat :=
  match fs with
  | [] => 0
  | f :: rest =>
      if (fetch_faceIdx f =? faceIdx)%nat then S (inFlightFor faceIdx rest)
      else inFlightFor faceIdx rest
  end.

(** Events that install no texture set: everything but [setTexture]. *)
Definition installs (ev : Event) : bool :=
  match ev with
  | SetTexture _ _ _ => true
  | _ => false
  end.

(** Events during the display of one panorama: camera changes and
    settling requests. *)
Definition navigates (ev : Event) : bool :=
  match ev with
  | LoadTexture _ | SetTexture _ _ _ => true
  | _ => false
  end.

(** Identities are handed out in order: what exists is below [fresh]. *)
Definition wf (w : World) : Prop :=
  (forall id : nat, is_Some (meshes w !! id) -> (id < fresh w)%nat)
  /\ (forall g : Group, g ∈ scene w -> (group_id g < fresh w)%nat)
  /\ (renderer_mesh w < fresh w)%nat
  /\ (group_id (renderer_meshContainer w) < fresh w)%nat.

(** *** The mesh across a navigation *)

Lemma wf_constructor (endpoint : string) (md : PanoramaMetadata) :
  wf (constructor endpoint md).
Proof.
  repeat split; simpl; try lia.
  - intros id H. rewrite lookup_empty in H. by destruct H.
  - intros g H. inversion H.
Qed.

Lemma wf_new_mesh (gs : list Geometry) (m : Mesh) (w : World) :
  wf w -> wf (new_mesh gs m w).
Proof.
  intros (Hm & Hs & Hr & Hc). repeat split; simpl; try lia.
  - intros id H. destruct (decide (fresh w = id)) as [<-|Hne]; [lia|].
    rewrite lookup_insert_ne in H by done. specialize (Hm id H). lia.
  - intros g H. specialize (Hs g H). lia.
Qed.

Lemma wf_set_renderer (id : nat) (w : World) :
  (id < fresh w)%nat -> wf w -> wf (set_renderer id w).
Proof.
  intros Hid (Hm & Hs & Hr & Hc). repeat split; simpl; try lia.
  - intros i H. specialize (Hm i H). lia.
  - intros g H. apply elem_of_app in H as [H|H].
    + specialize (Hs g H). lia.
    + apply elem_of_cons in H as [->|H]; [simpl; lia|inversion H].
Qed.

Lemma wf_boot (endpoint : string) (md : PanoramaMetadata) :
  wf (boot endpoint md).
Proof.
  unfold boot, createMesh, bind, gets, modify, ret; simpl.
  apply wf_set_renderer; [simpl; lia|].
  apply wf_new_mesh, wf_constructor.
Qed.

(** C6. On a navigation ([loadTexture] with the new panorama): when the
    first face extent of the new panorama is [===] the one recorded for
    the previous panorama, the renderer's mesh, its group, the scene, the
    adapter's mesh and every mesh object are what they were; when it is
    not, the old group is taken out of the scene and a mesh with a new
    identity, built by [createMesh] from the new panorama, is installed in
    the renderer and in the scene, the older meshes being left alone. *)
Theorem mesh_reused_or_rebuilt (md : PanoramaMetadata) (w : World) :
  wf w ->
  exists (requests : list (Z * nat * string)) (w' : World),
    loadTexture md w = (Ok requests, w')
    /\ previousThetaLength w' = latitude_size (md_panorama md) !! 0%nat
    /\ if strict_eq_opt (previousThetaLength w)
            (latitude_size (md_panorama md) !! 0%nat)
       then renderer_mesh w' = renderer_mesh w
            /\ renderer_meshContainer w' = renderer_meshContainer w
            /\ scene w' = scene w
            /\ mesh w' = mesh w
            /\ meshes w' = meshes w
            /\ meshesForFrustum w' = meshesForFrustum w
       else renderer_mesh w' <> renderer_mesh w
            /\ meshes w !! renderer_mesh w' = None
            /\ mesh w' = Some (renderer_mesh w')
            /\ meshes w' !! renderer_mesh w'
               = Some {| geometry := geometries (md_panorama md) 1;
                         material := replicate FACES {| map := None |} |}
            /\ (forall id : nat, id <> renderer_mesh w' ->
                  meshes w' !! id = meshes w !! id)
            /\ (renderer_meshContainer w ∉ scene w')
            /\ (renderer_meshContainer w' ∉ scene w)
            /\ children (renderer_meshContainer w') = [renderer_mesh w']
            /\ scene w'
               = (filter (fun g => group_id g <> group_id (renderer_meshContainer w))
                    (scene w)) ++ [renderer_meshContainer w'].
Proof.
  intros (Hm & Hs & Hr & Hc).
  unfold loadTexture, __recreateMeshIfNecessary, createMesh, bind, gets,
    modify, ret; simpl.
  destruct (strict_eq_opt (previousThetaLength w)
              (latitude_size (md_panorama md) !! 0%nat)); simpl.
  - eexists _, _. split; [reflexivity|]. simpl. repeat split.
  - eexists _, _. split; [reflexivity|]. simpl.
    assert (Hnone : meshes w !! fresh w = None).
    { destruct (meshes w !! fresh w) eqn:E; [|reflexivity].
      assert (fresh w < fresh w)%nat by (apply Hm; by rewrite E). lia. }
    repeat split.
    + lia.
    + exact Hnone.
    + apply lookup_insert_eq.
    + intros id Hne. by apply lookup_insert_ne.
    + rewrite elem_of_app, list_elem_of_filter, elem_of_cons, elem_of_nil.
      intros [[H _]|[H|[]]]; [by apply H|].
      rewrite H in Hc. simpl in Hc. lia.
    + intros H. specialize (Hs _ H). simpl in Hs. lia.
Qed.

(** *** Texture coordinates *)

(** C7, as the code has it.  In a mesh built by [createMesh], the [uv] attribute
    of every side face is that of its sphere segment with each U
    multiplied by a constant and stored in single precision, and with each
    V kept (V is read from the attribute, so it is a single already): the
    constant is [1 - 1/22] for the faces 0 and 2, whose span is 120°, and
    [1 - 1/12] for the faces 1 and 3, whose span is 60°.  U = 1 is stored
    as the single nearest to the constant, 0.9545454382896423 on the wide
    faces and 0.9166666865348816 on the narrow ones. *)
Theorem side_uv_trimmed (w : World) (scale : float) (i : nat)
    (params : SphereParams) :
  faces (panorama w) (SPHERE_RADIUS * scale)%float !! i = Some params ->
  exists (k : float) (m : Mesh) (geom : Geometry),
    meshes (snd (createMesh scale w)) !! fresh w = Some m
    /\ fst (createMesh scale w) = Ok (fresh w)
    /\ geometry m !! i = Some geom
    /\ uv geom = (fun c => (fround (fst c * k), fround (snd c)))
                   <$> uv (SphereGeometry params)
    /\ (forall (j : nat) (u v : float),
          uv (SphereGeometry params) !! j = Some (u, v) -> fround v = v ->
          uv geom !! j = Some (fround (u * k), v))
    /\ (i = 0%nat \/ i = 2%nat ->
        phiLength params = degToRad 120 /\ k = (1 - 1 / 22)%float
        /\ fround (1 * k) = 0.9545454382896423%float)
    /\ (i = 1%nat \/ i = 3%nat ->
        phiLength params = degToRad 60 /\ k = (1 - 1 / 12)%float
        /\ fround (1 * k) = 0.9166666865348816%float)
    /\ (i < 4)%nat.
Proof.
  intros Hi. exists (overlap i).
  unfold createMesh, bind, gets, modify, ret; simpl.
  rewrite lookup_insert_eq. eexists _, (faceGeometry i params).
  split; [reflexivity|]. split; [reflexivity|]. simpl.
  split; [unfold geometries; rewrite list_lookup_imap, Hi; reflexivity|].
  assert (Hlt : (i < 4)%nat).
  { apply lookup_lt_Some in Hi. exact Hi. }
  assert (Huv : uv (faceGeometry i params)
                = (fun c => (fround (fst c * overlap i), fround (snd c)))
                    <$> uv (SphereGeometry params)).
  { unfold faceGeometry. apply Nat.ltb_lt in Hlt. rewrite Hlt. reflexivity. }
  split; [exact Huv|]. split.
  { intros j u v Hj Hv. rewrite Huv, list_lookup_fmap, Hj. simpl.
    by rewrite Hv. }
  destruct i as [|[|[|[|i]]]]; simpl in Hi; try lia;
    injection Hi as <-; simpl.
  all: repeat split; try lia.
  all: try (intros [H|H]; discriminate H).
  all: intros _; repeat split; vm_compute; reflexivity.
Qed.

(** *** Reading and writing slots *)

Lemma texture_set_material_eq (w : World) (id faceIdx : nat) (m0 m : Material) :
  mesh w = Some id -> slot w faceIdx = Some m0 ->
  texture (set_material id faceIdx m w) faceIdx = map m.
Proof.
  unfold texture, slot, set_material; simpl. intros -> H; simpl in *.
  rewrite lookup_alter_eq.
  destruct (meshes w !! id) as [me|]; simpl in *; [|discriminate].
  rewrite list_lookup_insert_eq; [reflexivity|].
  by eapply lookup_lt_Some.
Qed.

Lemma texture_set_material_ne (w : World) (id faceIdx j : nat) (m : Material) :
  mesh w = Some id -> faceIdx <> j ->
  texture (set_material id faceIdx m w) j = texture w j.
Proof.
  unfold texture, slot, set_material; simpl. intros -> Hne; simpl.
  rewrite lookup_alter_eq.
  destruct (meshes w !! id) as [me|]; simpl; [|reflexivity].
  by rewrite list_lookup_insert_ne.
Qed.

(** The request [__refreshFaces] issues for a face whose slot holds [t],
    and the state it leaves: the slot marked, the request in flight. *)
Definition request (w : World) (zoom : Z) (faceIdx : nat) (t : Texture) : Fetch :=
  {| fetch_zoom := zoom; fetch_faceIdx := faceIdx;
     fetch_faceUrl := faceUrl w zoom faceIdx; oldUrl := url t |}.

Definition marked (t : Texture) : Texture :=
  {| image := image t; zoom := zoom t; url := url t; refreshing := true |}.

(** What one turn of the loop does to the slots, to the requests in flight
    and to [this.url]. *)
Lemma refreshFace_effect (target : Z) (faceIdx : nat) (w : World) :
  let w' := snd (refreshFace target faceIdx w) in
  this_url w' = this_url w
  /\ (forall j, faceIdx <> j -> texture w' j = texture w j)
  /\ (w' = w
      \/ exists t, texture w faceIdx = Some t
           /\ refreshing t = false /\ target < zoom t
           /\ fst (refreshFace target faceIdx w) = Ok tt
           /\ texture w' faceIdx = Some (marked t)
           /\ pending w' = pending w ++ [request w target faceIdx t]).
Proof.
  unfold refreshFace, this_mesh, bind, gets, modify, ret, throw; simpl.
  destruct (mesh w) as [id|] eqn:Hid; simpl; [|by auto].
  destruct (meshes w !! id) as [me|] eqn:Hme; simpl; [|by auto].
  destruct (material me !! faceIdx) as [m|] eqn:Hm; simpl; [|by auto].
  destruct (map m) as [t|] eqn:Ht; simpl; [|by auto].
  destruct ((target <? zoom t) && negb (refreshing t)) eqn:Hc; simpl;
    [|by auto].
  apply andb_true_iff in Hc as [Hz Hr].
  apply Z.ltb_lt in Hz. apply negb_true_iff in Hr.
  assert (Hslot : slot w faceIdx = Some m).
  { unfold slot. rewrite Hid; simpl. rewrite Hme; simpl. exact Hm. }
  split; [reflexivity|]. split.
  - intros j Hj. by apply (texture_set_material_ne w id faceIdx j).
  - right. exists t. repeat split; auto.
    + unfold texture. rewrite Hslot. exact Ht.
    + exact (texture_set_material_eq w id faceIdx m _ Hid Hslot).
Qed.

(** A slot that is marked, or that is at the target level or better, or
    that has no texture, is passed over. *)
Lemma refreshFace_skips (target : Z) (faceIdx : nat) (w : World) (m : Material) :
  slot w faceIdx = Some m ->
  match map m with
  | Some t => refreshing t = true \/ zoom t <= target
  | None => True
  end ->
  refreshFace target faceIdx w = (Ok tt, w).
Proof.
  unfold slot, refreshFace, this_mesh, bind, gets, modify, ret, throw; simpl.
  destruct (mesh w) as [id|]; simpl; [|discriminate].
  destruct (meshes w !! id) as [me|]; simpl; [|discriminate].
  intros ->. destruct (map m) as [t|]; [|reflexivity].
  intros [->|Hz].
  - by rewrite andb_false_r.
  - replace (target <? zoom t) with false; [reflexivity|].
    symmetry. apply Z.ltb_ge. exact Hz.
Qed.

(** The state after a resolved request was applied on the mesh [id]. *)
Definition applied (f : Fetch) (id : nat) (w : World) : World :=
  request_update
    (set_material id (fetch_faceIdx f)
       {| map := Some {| image := fetch_faceUrl f; zoom := fetch_zoom f;
                         url := this_url w; refreshing := false |} |} w).

Lemma fetchDone_cases (f : Fetch) (w : World) :
  match mesh w, texture w (fetch_faceIdx f) with
  | Some id, Some t =>
      if String.eqb (url t) (oldUrl f)
      then fetchDone f w = (Ok tt, applied f id w)
      else fetchDone f w = (Ok tt, w)
  | _, _ => fetchDone f w = (Throw TypeError, w)
  end.
Proof.
  unfold texture, slot, fetchDone, loaded, upgrade, this_mesh, applied, bind,
    gets, modify, ret, throw; simpl.
  destruct (mesh w) as [id|]; simpl; [|reflexivity].
  destruct (meshes w !! id) as [me|]; simpl; [|reflexivity].
  destruct (material me !! fetch_faceIdx f) as [m|]; simpl; [|reflexivity].
  destruct (map m) as [t|]; simpl; [|reflexivity].
  destruct (String.eqb (url t) (oldUrl f)); reflexivity.
Qed.

Lemma applied_changes (f : Fetch) (id : nat) (w : World) : applied f id w <> w.
Proof.
  intros H. apply (f_equal needsUpdate) in H. simpl in H. lia.
Qed.

Lemma refreshFace_issues (target : Z) (faceIdx : nat) (w : World)
    (t : Texture) :
  texture w faceIdx = Some t -> refreshing t = false -> target < zoom t ->
  exists id, mesh w = Some id
    /\ refreshFace target faceIdx w
       = (Ok tt, set_pending (pending w ++ [request w target faceIdx t])
                   (set_material id faceIdx {| map := Some (marked t) |} w)).
Proof.
  unfold texture, slot, refreshFace, this_mesh, bind, gets, modify, ret,
    throw; simpl.
  destruct (mesh w) as [id|]; simpl; [|discriminate].
  destruct (meshes w !! id) as [me|]; simpl; [|discriminate].
  destruct (material me !! faceIdx) as [m|]; simpl; [|discriminate].
  intros -> Hr Hz. exists id. split; [reflexivity|].
  rewrite Hr. apply Z.ltb_lt in Hz. rewrite Hz. reflexivity.
Qed.

(** C3. A refresh of a face whose slot holds a texture of a higher level
    that is not marked issues a request, and every request it issues holds
    the [url] that the slot's texture has at that moment.  When a request
    resolves, the fetched texture is put into the slot exactly when the
    slot holds a texture whose [url] is still the one the request holds;
    then that slot gets the fetched texture and no other slot changes.  In
    every other case nothing at all is changed: the callback returns when
    the [url]s differ, and it throws when the slot holds no texture (the
    mesh was rebuilt in between). *)
Theorem stale_result_discarded :
  (forall (w : World) (target : Z) (faceIdx : nat) (t : Texture),
      texture w faceIdx = Some t -> refreshing t = false -> target < zoom t ->
      fst (refreshFace target faceIdx w) = Ok tt
      /\ pending (snd (refreshFace target faceIdx w))
         = pending w ++ [ {| fetch_zoom := target; fetch_faceIdx := faceIdx;
                             fetch_faceUrl := faceUrl w target faceIdx;
                             oldUrl := url t |} ])
  /\ (forall (w : World) (target : Z) (faceIdx : nat) (f : Fetch),
        pending (snd (refreshFace target faceIdx w)) = pending w ++ [f] ->
        exists t : Texture,
          texture w faceIdx = Some t /\ oldUrl f = url t
          /\ fetch_faceIdx f = faceIdx /\ fetch_zoom f = target)
  /\ (forall (f : Fetch) (w : World),
        (exists (id : nat) (t : Texture),
           mesh w = Some id /\ texture w (fetch_faceIdx f) = Some t
           /\ url t = oldUrl f
           /\ fetchDone f w = (Ok tt, applied f id w)
           /\ texture (applied f id w) (fetch_faceIdx f)
              = Some {| image := fetch_faceUrl f; zoom := fetch_zoom f;
                        url := this_url w; refreshing := false |}
           /\ (forall j : nat, j <> fetch_faceIdx f ->
                 texture (applied f id w) j = texture w j))
        \/ (exists t : Texture,
              texture w (fetch_faceIdx f) = Some t /\ url t <> oldUrl f
              /\ fetchDone f w = (Ok tt, w))
        \/ (texture w (fetch_faceIdx f) = None
            /\ fetchDone f w = (Throw TypeError, w)))
  /\ (forall (f : Fetch) (w : World),
        snd (fetchDone f w) <> w
        <-> exists t : Texture,
              texture w (fetch_faceIdx f) = Some t /\ url t = oldUrl f).
Proof.
  assert (Hmesh : forall w faceIdx t,
             texture w faceIdx = Some t -> exists id, mesh w = Some id).
  { intros w faceIdx t. unfold texture, slot.
    destruct (mesh w) as [id|]; [by exists id|discriminate]. }
  split; [|split; [|split]].
  - intros w target faceIdx t Ht Hr Hz.
    destruct (refreshFace_issues target faceIdx w t Ht Hr Hz)
      as (id & _ & ->). by split.
  - intros w target faceIdx f H.
    destruct (refreshFace_effect target faceIdx w) as (_ & _ & [Hw|Hw]).
    + rewrite Hw in H. apply (f_equal length) in H.
      rewrite length_app in H. simpl in H. lia.
    + destruct Hw as (t & Ht & _ & _ & _ & _ & Hp).
      rewrite Hp in H. apply app_inv_head in H. injection H as <-.
      exists t. repeat split; auto.
  - intros f w. pose proof (fetchDone_cases f w) as H.
    destruct (texture w (fetch_faceIdx f)) as [t|] eqn:Ht.
    + destruct (Hmesh _ _ _ Ht) as [id Hid]. rewrite Hid in H.
      destruct (String.eqb_spec (url t) (oldUrl f)) as [He|He].
      * left. exists id, t. repeat split; auto.
        -- unfold texture in Ht.
           destruct (slot w (fetch_faceIdx f)) as [m0|] eqn:Hs;
             [|discriminate].
           exact (texture_set_material_eq w id (fetch_faceIdx f) m0 _ Hid Hs).
        -- intros j Hj. unfold applied.
           apply (texture_set_material_ne w id (fetch_faceIdx f) j); auto.
      * right; left. exists t. auto.
    + right; right. split; [reflexivity|].
      destruct (mesh w); exact H.
  - intros f w. pose proof (fetchDone_cases f w) as H.
    destruct (texture w (fetch_faceIdx f)) as [t|] eqn:Ht.
    + destruct (Hmesh _ _ _ Ht) as [id Hid]. rewrite Hid in H.
      destruct (String.eqb_spec (url t) (oldUrl f)) as [He|He]; rewrite H;
        simpl.
      * split; [intros _; by exists t|intros _; apply applied_changes].
      * split; [congruence|]. intros (t' & [= <-] & He'). congruence.
    + assert (Hs : snd (fetchDone f w) = w) by (destruct (mesh w); by rewrite H).
      split; [congruence|]. intros (t' & Ht' & _). discriminate.
Qed.

(** *** Loops *)

Lemma for_of_preserves {A : Type} (P : World -> Prop) (body : A -> M World unit)
    (l : list A) :
  (forall x w, P w -> P (snd (body x w))) ->
  forall w, P w -> P (snd (for_of l body w)).
Proof.
  intros Hbody. induction l as [|x l IH]; intros w Hw; simpl; [exact Hw|].
  unfold bind. specialize (Hbody x w Hw).
  destruct (body x w) as [[[]|e] w1]; simpl in *; auto.
Qed.

Lemma __refresh_preserves (P : World -> Prop) (visibleFaces : list nat)
    (vFov : float) :
  (forall target faceIdx w, P w -> P (snd (refreshFace target faceIdx w))) ->
  forall w, P w -> P (snd (__refresh visibleFaces vFov w)).
Proof.
  intros Hbody w Hw.
  unfold __refresh, this_mesh, bind, gets, ret, throw; simpl.
  destruct (mesh w) as [id|] eqn:Hid; simpl; [|exact Hw].
  rewrite Hid; simpl.
  destruct (meshes w !! id) as [me|]; simpl; [|exact Hw].
  destruct (length (material me) =? 0)%nat; simpl; [exact Hw|].
  destruct (dynamicLoadingEnabled w); simpl; [|exact Hw].
  destruct (vFov <? 55)%float; unfold __refreshFaces;
    apply for_of_preserves; auto.
Qed.

(** *** One request per slot *)

Lemma inFlightFor_app (faceIdx : nat) (l l' : list Fetch) :
  inFlightFor faceIdx (l ++ l')
  = (inFlightFor faceIdx l + inFlightFor faceIdx l')%nat.
Proof.
  induction l as [|f l IH]; simpl; [reflexivity|].
  destruct (fetch_faceIdx f =? faceIdx)%nat; simpl; lia.
Qed.

Lemma inFlightFor_delete (faceIdx : nat) (l : list Fetch) (k : nat) (f : Fetch) :
  l !! k = Some f ->
  inFlightFor faceIdx l
  = (inFlightFor faceIdx (delete k l) + inFlightFor faceIdx [f])%nat.
Proof.
  revert k. induction l as [|x l IH]; intros [|k] H; simpl in *;
    try discriminate.
  - injection H as ->. destruct (fetch_faceIdx f =? faceIdx)%nat; lia.
  - rewrite (IH k H). simpl.
    destruct (fetch_faceIdx x =? faceIdx)%nat,
      (fetch_faceIdx f =? faceIdx)%nat; lia.
Qed.

Lemma inFlightFor_delete_le (faceIdx : nat) (l : list Fetch) (k : nat) :
  (inFlightFor faceIdx (delete k l) <= inFlightFor faceIdx l)%nat.
Proof.
  revert k. induction l as [|x l IH]; intros [|k]; simpl; try lia.
  - destruct (fetch_faceIdx x =? faceIdx)%nat; lia.
  - specialize (IH k). destruct (fetch_faceIdx x =? faceIdx)%nat; lia.
Qed.

(** Whether the slot of a face holds a texture that is not marked
    [refreshing]: 1 if so, 0 if not. *)
Definition unmarked (w : World) (faceIdx : nat) : nat :=
  match texture w faceIdx with
  | Some t => if refreshing t then 0 else 1
  | None => 0
  end.

(** A face has a request in flight only while its slot is not open for
    another one. *)
Definition budget (faceIdx : nat) (w : World) : Prop :=
  (inFlightFor faceIdx (pending w) + unmarked w faceIdx <= 1)%nat.

Lemma refreshFace_budget (faceIdx : nat) (target : Z) (i : nat) (w : World) :
  budget faceIdx w -> budget faceIdx (snd (refreshFace target i w)).
Proof.
  unfold budget, unmarked. intros Hb.
  destruct (refreshFace_effect target i w) as (_ & Hother & [->|Hw]);
    [exact Hb|].
  destruct Hw as (t & Ht & Hr & _ & _ & Ht' & Hp).
  rewrite Hp, inFlightFor_app. simpl.
  destruct (decide (i = faceIdx)) as [->|Hne].
  - rewrite Ht'. rewrite Ht, Hr in Hb. simpl.
    rewrite Nat.eqb_refl. lia.
  - rewrite (Hother faceIdx Hne).
    destruct (Nat.eqb_spec i faceIdx); [contradiction|]. lia.
Qed.

Lemma fetchDone_budget (faceIdx : nat) (k : nat) (f : Fetch) (w : World) :
  pending w !! k = Some f ->
  budget faceIdx w ->
  budget faceIdx (snd (fetchDone f (set_pending (delete k (pending w)) w))).
Proof.
  unfold budget. intros Hk Hb.
  pose proof (inFlightFor_delete faceIdx _ _ _ Hk) as Hd.
  set (w0 := set_pending (delete k (pending w)) w).
  assert (Hu0 : unmarked w0 faceIdx = unmarked w faceIdx) by reflexivity.
  assert (Hb0 : (inFlightFor faceIdx (pending w0) + unmarked w0 faceIdx <= 1)%nat).
  { rewrite Hu0. simpl. lia. }
  pose proof (fetchDone_cases f w0) as H.
  destruct (mesh w0) as [id|] eqn:Hid; [|by rewrite H].
  destruct (texture w0 (fetch_faceIdx f)) as [t|] eqn:Ht; [|by rewrite H].
  destruct (String.eqb (url t) (oldUrl f)); rewrite H; simpl; [|exact Hb0].
  unfold unmarked.
  destruct (decide (fetch_faceIdx f = faceIdx)) as [He|Hne].
  - simpl in Hd. rewrite He, Nat.eqb_refl in Hd.
    destruct (texture (applied f id w0) faceIdx) as [t'|]; [|lia].
    destruct (refreshing t'); lia.
  - change (texture (applied f id w0) faceIdx)
      with (texture (set_material id (fetch_faceIdx f)
                       {| map := Some {| image := fetch_faceUrl f;
                                         zoom := fetch_zoom f;
                                         url := this_url w0;
                                         refreshing := false |} |} w0) faceIdx).
    rewrite (texture_set_material_ne w0 id _ faceIdx _ Hid Hne).
    exact Hb0.
Qed.

Lemma loadTexture_textures (md : PanoramaMetadata) (w : World) (faceIdx : nat) :
  pending (snd (loadTexture md w)) = pending w
  /\ (texture (snd (loadTexture md w)) faceIdx = texture w faceIdx
      \/ texture (snd (loadTexture md w)) faceIdx = None).
Proof.
  unfold loadTexture, __recreateMeshIfNecessary, createMesh, bind, gets,
    modify, ret; simpl.
  destruct (strict_eq_opt _ _); simpl; [by auto|].
  split; [reflexivity|]. right.
  unfold texture, slot; simpl. rewrite lookup_insert_eq; simpl.
  destruct faceIdx as [|[|[|[|[|[|?]]]]]]; reflexivity.
Qed.

Lemma step_budget (faceIdx : nat) (ev : Event) (w : World) :
  installs ev = false -> budget faceIdx w -> budget faceIdx (step ev w).
Proof.
  intros Hev Hb. destruct ev as [md|? ? ?|faces vFov|k|k]; simpl;
    try discriminate.
  - unfold budget, unmarked in *.
    destruct (loadTexture_textures md w faceIdx) as [-> [->| ->]]; [exact Hb|].
    destruct (texture w faceIdx) as [t|]; [destruct (refreshing t)|]; lia.
  - apply __refresh_preserves; [|exact Hb].
    intros target i w1. apply refreshFace_budget.
  - destruct (pending w !! k) as [f|] eqn:Hk; [|exact Hb].
    by apply fetchDone_budget.
  - unfold budget in *.
    pose proof (inFlightFor_delete_le faceIdx (pending w) k) as Hd.
    change (unmarked (set_pending (delete k (pending w)) w) faceIdx)
      with (unmarked w faceIdx). simpl. lia.
Qed.

Lemma steps_budget (faceIdx : nat) (evs : list Event) (w : World) :
  forallb (fun ev => negb (installs ev)) evs = true ->
  budget faceIdx w -> budget faceIdx (steps evs w).
Proof.
  revert w. induction evs as [|ev evs IH]; intros w Hevs Hb; simpl;
    [exact Hb|].
  simpl in Hevs. apply andb_true_iff in Hevs as [Hev Hevs].
  apply IH; [exact Hevs|]. apply step_budget; [|exact Hb].
  by apply negb_true_iff.
Qed.

(** Every event keeps the identities in order. *)
Lemma wf_set_material (id faceIdx : nat) (m : Material) (w : World) :
  wf w -> wf (set_material id faceIdx m w).
Proof.
  intros (Hm & Hs & Hr & Hc). repeat split; simpl; auto.
  intros i H. apply lookup_alter_is_Some in H. by apply Hm.
Qed.

Lemma refreshFace_wf (target : Z) (faceIdx : nat) (w : World) :
  wf w -> wf (snd (refreshFace target faceIdx w)).
Proof.
  intros Hw. unfold refreshFace, this_mesh, bind, gets, modify, ret, throw;
    simpl.
  destruct (mesh w) as [id|]; simpl; [|exact Hw].
  destruct (meshes w !! id) as [me|]; simpl; [|exact Hw].
  destruct (material me !! faceIdx) as [m|]; simpl; [|exact Hw].
  destruct (map m) as [t|]; simpl; [|exact Hw].
  destruct ((target <? zoom t) && negb (refreshing t)); simpl; [|exact Hw].
  exact (wf_set_material id faceIdx _ w Hw).
Qed.

Lemma loadTexture_wf (md : PanoramaMetadata) (w : World) :
  wf w -> wf (snd (loadTexture md w)).
Proof.
  intros Hw. unfold loadTexture, __recreateMeshIfNecessary, createMesh, bind,
    gets, modify, ret; simpl.
  destruct (strict_eq_opt _ _); simpl; [exact Hw|].
  destruct Hw as (Hm & Hs & Hr & Hc). repeat split; simpl; try lia.
  - intros i H. destruct (decide (fresh w = i)) as [<-|Hne]; [lia|].
    rewrite lookup_insert_ne in H by done. specialize (Hm i H). lia.
  - intros g H. apply elem_of_app in H as [H|H].
    + apply list_elem_of_filter in H as [_ H]. specialize (Hs g H). lia.
    + apply elem_of_cons in H as [->|H]; [simpl; lia|inversion H].
Qed.

Lemma step_wf (ev : Event) (w : World) : wf w -> wf (step ev w).
Proof.
  intros Hw. destruct ev as [md|tx faces vFov|faces vFov|k|k]; simpl.
  - by apply loadTexture_wf.
  - unfold setTexture, bind.
    pose proof (for_of_preserves wf
      (fun i => match tx !! i with
                | Some (Some t) =>
                    modify (set_material (renderer_mesh w) i {| map := Some t |})
                | _ => ret tt
                end) (seq 0 FACES)) as Hloop.
    match goal with |- context [for_of ?l ?b w] =>
      assert (H : wf (snd (for_of l b w))) end.
    { apply Hloop; [|exact Hw]. intros i w1 Hw1.
      destruct (tx !! i) as [[t|]|]; simpl; auto.
      by apply wf_set_material. }
    destruct (for_of _ _ w) as [[[]|e] w1]; simpl in *; [|exact H].
    apply __refresh_preserves; [|exact H].
    intros target i w2. apply refreshFace_wf.
  - apply __refresh_preserves; [|exact Hw].
    intros target i w1. apply refreshFace_wf.
  - destruct (pending w !! k) as [f|]; [|exact Hw].
    set (w0 := set_pending (delete k (pending w)) w).
    assert (Hw0 : wf w0) by exact Hw.
    pose proof (fetchDone_cases f w0) as H.
    destruct (mesh w0) as [id|]; [|by rewrite H].
    destruct (texture w0 (fetch_faceIdx f)) as [t|]; [|by rewrite H].
    destruct (String.eqb (url t) (oldUrl f)); rewrite H; [|exact Hw0].
    exact (wf_set_material id (fetch_faceIdx f) _ w0 Hw0).
  - exact Hw.
Qed.

(** C8, as the code has it.  A refresh request for a face whose slot is
    marked [refreshing] issues nothing and changes nothing; a refresh
    either changes nothing or marks an unmarked slot and issues one
    request for that face, the two together; and from a state with no
    request in flight, as long as no texture set is installed
    ([setTexture]), no face ever has more than one request in flight. *)
Theorem one_upgrade_per_slot :
  (forall (w : World) (target : Z) (faceIdx : nat) (t : Texture),
      texture w faceIdx = Some t -> refreshing t = true ->
      refreshFace target faceIdx w = (Ok tt, w)
      /\ __refreshFaces [faceIdx] target w = (Ok tt, w))
  /\ (forall (w : World) (target : Z) (faceIdx : nat),
        snd (refreshFace target faceIdx w) = w
        \/ exists t : Texture,
             texture w faceIdx = Some t /\ refreshing t = false
             /\ texture (snd (refreshFace target faceIdx w)) faceIdx
                = Some (marked t)
             /\ pending (snd (refreshFace target faceIdx w))
                = pending w ++ [request w target faceIdx t])
  /\ (forall (w : World) (evs : list Event) (faceIdx : nat),
        pending w = [] ->
        forallb (fun ev => negb (installs ev)) evs = true ->
        (inFlightFor faceIdx (pending (steps evs w)) <= 1)%nat).
Proof.
  split; [|split].
  - intros w target faceIdx t Ht Hr. unfold texture in Ht.
    destruct (slot w faceIdx) as [m|] eqn:Hs; [|discriminate]. simpl in Ht.
    assert (H : refreshFace target faceIdx w = (Ok tt, w)).
    { apply (refreshFace_skips target faceIdx w m Hs). rewrite Ht. by left. }
    split; [exact H|].
    unfold __refreshFaces; simpl. unfold bind. rewrite H. reflexivity.
  - intros w target faceIdx.
    destruct (refreshFace_effect target faceIdx w) as (_ & _ & [H|H]);
      [by left|right].
    destruct H as (t & ? & ? & _ & _ & ? & ?). exists t. auto.
  - intros w evs faceIdx Hp Hevs.
    assert (Hb : budget faceIdx w).
    { unfold budget, unmarked. rewrite Hp; simpl.
      destruct (texture w faceIdx) as [t|]; [destruct (refreshing t)|]; lia. }
    pose proof (steps_budget faceIdx evs w Hevs Hb) as H.
    unfold budget in H. lia.
Qed.

(** *** Quality levels *)

(** The requests in flight for a face that hold the [url] [u]. *)
Fixpoint liveIn (u : string) (faceIdx : nat) (fs : list Fetch) : nat :=
  match fs with
  | [] => 0
  | f :: rest =>
      if (fetch_faceIdx f =? faceIdx)%nat && String.eqb (oldUrl f) u
      then S (liveIn u faceIdx rest)
      else liveIn u faceIdx rest
  end.

Lemma liveIn_app (u : string) (faceIdx : nat) (l l' : list Fetch) :
  liveIn u faceIdx (l ++ l') = (liveIn u faceIdx l + liveIn u faceIdx l')%nat.
Proof.
  induction l as [|f l IH]; simpl; [reflexivity|].
  destruct (_ && _); simpl; lia.
Qed.

Lemma liveIn_delete (u : string) (faceIdx : nat) (l : list Fetch) (k : nat)
    (f : Fetch) :
  l !! k = Some f ->
  liveIn u faceIdx l
  = (liveIn u faceIdx (delete k l) + liveIn u faceIdx [f])%nat.
Proof.
  revert k. induction l as [|x l IH]; intros [|k] H; simpl in *;
    try discriminate.
  - injection H as ->. destruct (_ && _); lia.
  - rewrite (IH k H). simpl.
    destruct ((fetch_faceIdx x =? faceIdx)%nat && String.eqb (oldUrl x) u),
      ((fetch_faceIdx f =? faceIdx)%nat && String.eqb (oldUrl f) u); lia.
Qed.

Lemma liveIn_delete_le (u : string) (faceIdx : nat) (l : list Fetch) (k : nat) :
  (liveIn u faceIdx (delete k l) <= liveIn u faceIdx l)%nat.
Proof.
  revert k. induction l as [|x l IH]; intros [|k]; simpl; try lia.
  - destruct (_ && _); lia.
  - specialize (IH k). destruct (_ && _); lia.
Qed.

Lemma liveIn_zero (u : string) (faceIdx : nat) (l : list Fetch) :
  liveIn u faceIdx l = 0%nat <->
  forall f, f ∈ l -> fetch_faceIdx f = faceIdx -> oldUrl f = u -> False.
Proof.
  induction l as [|x l IH]; simpl.
  - split; [|reflexivity]. intros _ f H. inversion H.
  - destruct (Nat.eqb_spec (fetch_faceIdx x) faceIdx) as [Hf|Hf],
      (String.eqb_spec (oldUrl x) u) as [Hu|Hu]; simpl.
    + split; [discriminate|]. intros H. exfalso.
      apply (H x); auto. apply elem_of_cons; by left.
    + rewrite IH. split; intros H f Hin.
      * apply elem_of_cons in Hin as [->|Hin]; [by intros _ ?|by apply H].
      * apply H. apply elem_of_cons; by right.
    + rewrite IH. split; intros H f Hin.
      * apply elem_of_cons in Hin as [->|Hin]; [by intros ? _|by apply H].
      * apply H. apply elem_of_cons; by right.
    + rewrite IH. split; intros H f Hin.
      * apply elem_of_cons in Hin as [->|Hin]; [by intros ? _|by apply H].
      * apply H. apply elem_of_cons; by right.
Qed.

(** What holds for a face while one panorama is displayed: the slot's
    texture carries [this.url]; at most one request in flight for the face
    holds that [url]; and such a request asks for a level better than the
    slot's, which is marked. *)
Definition steady (faceIdx : nat) (w : World) : Prop :=
  (forall t, texture w faceIdx = Some t -> url t = this_url w)
  /\ (liveIn (this_url w) faceIdx (pending w) <= 1)%nat
  /\ (forall f, f ∈ pending w -> fetch_faceIdx f = faceIdx ->
        oldUrl f = this_url w ->
        exists t, texture w faceIdx = Some t /\ refreshing t = true
                  /\ fetch_zoom f < zoom t).

(** The state in which a panorama starts to be displayed: every slot's
    texture carries [this.url] and no request in flight holds it. *)
Definition settled (w : World) : Prop :=
  (forall faceIdx t, texture w faceIdx = Some t -> url t = this_url w)
  /\ (forall f, f ∈ pending w -> oldUrl f <> this_url w).

Lemma settled_steady (faceIdx : nat) (w : World) : settled w -> steady faceIdx w.
Proof.
  intros [Hu Hp]. split; [by apply Hu|].
  assert (H0 : liveIn (this_url w) faceIdx (pending w) = 0%nat).
  { apply liveIn_zero. intros f Hf _ He. by apply (Hp f Hf). }
  split; [lia|]. intros f Hf _ He. by destruct (Hp f Hf).
Qed.

Lemma refreshFace_steady (faceIdx : nat) (target : Z) (i : nat) (w : World) :
  steady faceIdx w ->
  steady faceIdx (snd (refreshFace target i w))
  /\ level (snd (refreshFace target i w)) faceIdx = level w faceIdx.
Proof.
  intros (Hu & Hl & Hp).
  destruct (refreshFace_effect target i w) as (Hurl & Hother & [->|Hw]);
    [by repeat split|].
  destruct Hw as (t & Ht & Hr & Hz & _ & Ht' & Hpend).
  set (w' := snd (refreshFace target i w)) in *.
  destruct (decide (i = faceIdx)) as [->|Hne].
  - assert (H0 : liveIn (this_url w) faceIdx (pending w) = 0%nat).
    { apply liveIn_zero. intros f Hf Hface He.
      destruct (Hp f Hf Hface He) as (t0 & Ht0 & Hr0 & _). congruence. }
    split; [|unfold level; by rewrite Ht', Ht].
    split; [|split].
    + intros t1 Ht1. rewrite Ht' in Ht1. injection Ht1 as <-. simpl.
      rewrite Hurl. by apply Hu.
    + rewrite Hurl, Hpend, liveIn_app, H0. simpl. destruct (_ && _); lia.
    + intros f Hf Hface He. rewrite Hpend in Hf. rewrite Hurl in He.
      apply elem_of_app in Hf as [Hf|Hf].
      * exfalso. revert H0. rewrite liveIn_zero. intros H0. by apply (H0 f).
      * apply elem_of_cons in Hf as [->|Hf]; [|inversion Hf].
        exists (marked t). by repeat split.
  - split; [|unfold level; by rewrite (Hother faceIdx Hne)].
    split; [|split].
    + intros t1 Ht1. rewrite (Hother faceIdx Hne) in Ht1. rewrite Hurl.
      by apply Hu.
    + rewrite Hurl, Hpend, liveIn_app. simpl.
      destruct (Nat.eqb_spec i faceIdx); [contradiction|]. simpl. lia.
    + intros f Hf Hface He. rewrite Hpend in Hf. rewrite Hurl in He.
      rewrite (Hother faceIdx Hne).
      apply elem_of_app in Hf as [Hf|Hf]; [by apply Hp|].
      apply elem_of_cons in Hf as [->|Hf]; [|inversion Hf].
      simpl in Hface. contradiction.
Qed.

Lemma dropped_steady (faceIdx : nat) (k : nat) (w : World) :
  steady faceIdx w -> steady faceIdx (set_pending (delete k (pending w)) w).
Proof.
  intros (Hu & Hl & Hp). split; [exact Hu|]. split; simpl.
  - pose proof (liveIn_delete_le (this_url w) faceIdx (pending w) k). lia.
  - intros f Hf. apply Hp. by eapply list_elem_of_delete_inv.
Qed.

Lemma fetchDone_steady (faceIdx : nat) (k : nat) (f : Fetch) (w : World) :
  pending w !! k = Some f ->
  steady faceIdx w ->
  let w' := snd (fetchDone f (set_pending (delete k (pending w)) w)) in
  steady faceIdx w'
  /\ forall z, level w faceIdx = Some z ->
       exists z', level w' faceIdx = Some z' /\ z' <= z
         /\ (texture w' faceIdx <> texture w faceIdx -> z' < z).
Proof.
  intros Hk Hs.
  pose proof (dropped_steady faceIdx k w Hs) as Hs0.
  set (w0 := set_pending (delete k (pending w)) w) in *.
  assert (Hsame : forall z, level w0 faceIdx = Some z ->
            exists z', level w0 faceIdx = Some z' /\ z' <= z
              /\ (texture w0 faceIdx <> texture w faceIdx -> z' < z)).
  { intros z Hz. exists z. split; [exact Hz|]. split; [lia|].
    intros H. by destruct H. }
  pose proof (fetchDone_cases f w0) as H. simpl.
  destruct (mesh w0) as [id|] eqn:Hid; [|by rewrite H].
  destruct (texture w0 (fetch_faceIdx f)) as [t|] eqn:Ht; [|by rewrite H].
  destruct (String.eqb_spec (url t) (oldUrl f)) as [He|He]; rewrite H;
    [|by split]. simpl.
  destruct (decide (fetch_faceIdx f = faceIdx)) as [Hface|Hne].
  - destruct Hs as (Hu & Hl & Hp).
    assert (Hold : oldUrl f = this_url w).
    { rewrite <- He. apply Hu. by rewrite <- Hface. }
    destruct (Hp f (list_elem_of_lookup_2 _ _ _ Hk) Hface Hold)
      as (t0 & Ht0 & Hr0 & Hz0).
    assert (t0 = t) as -> by (rewrite <- Hface in Ht0;
      change (texture w (fetch_faceIdx f)) with (texture w0 (fetch_faceIdx f))
        in Ht0; congruence).
    assert (H0 : liveIn (this_url w) faceIdx (delete k (pending w)) = 0%nat).
    { pose proof (liveIn_delete (this_url w) faceIdx _ _ _ Hk) as Hd.
      simpl in Hd. rewrite Hface, Nat.eqb_refl in Hd. simpl in Hd.
      destruct (String.eqb_spec (oldUrl f) (this_url w)); [lia|contradiction]. }
    assert (Hnew : texture (applied f id w0) faceIdx
                   = Some {| image := fetch_faceUrl f; zoom := fetch_zoom f;
                             url := this_url w0; refreshing := false |}).
    { unfold texture in Ht.
      destruct (slot w0 (fetch_faceIdx f)) as [m0|] eqn:Hslot; [|discriminate].
      rewrite <- Hface.
      exact (texture_set_material_eq w0 id (fetch_faceIdx f) m0 _ Hid Hslot). }
    split.
    + split; [|split].
      * intros t1 Ht1. rewrite Hnew in Ht1. by injection Ht1 as <-.
      * simpl. rewrite H0. lia.
      * intros f' Hf' Hface' He'. exfalso. revert H0. rewrite liveIn_zero.
        intros H0. by apply (H0 f').
    + intros z Hz. unfold level in *. rewrite Hnew. simpl.
      rewrite <- Hface in Hz.
      change (texture w (fetch_faceIdx f)) with (texture w0 (fetch_faceIdx f))
        in Hz. rewrite Ht in Hz. simpl in Hz. injection Hz as <-.
      exists (fetch_zoom f). split; [reflexivity|]. split; [lia|]. intros _.
      exact Hz0.
  - assert (Hkeep : texture (applied f id w0) faceIdx = texture w0 faceIdx).
    { exact (texture_set_material_ne w0 id _ faceIdx _ Hid Hne). }
    split.
    + destruct Hs0 as (Hu0 & Hl0 & Hp0). split; [|split].
      * intros t1. rewrite Hkeep. apply Hu0.
      * exact Hl0.
      * intros f' Hf' Hface' He'. rewrite Hkeep. by apply Hp0.
    + intros z Hz. unfold level. rewrite Hkeep. by apply Hsame.
Qed.

Lemma step_steady (faceIdx : nat) (ev : Event) (w : World) :
  navigates ev = false ->
  steady faceIdx w ->
  steady faceIdx (step ev w)
  /\ forall z, level w faceIdx = Some z ->
       exists z', level (step ev w) faceIdx = Some z' /\ z' <= z
         /\ (forall k, ev = FetchDone k ->
               texture (step ev w) faceIdx <> texture w faceIdx -> z' < z)
         /\ (forall visibleFaces vFov, ev = Refresh visibleFaces vFov -> z' = z).
Proof.
  intros Hev Hs. destruct ev as [md|? ? ?|faces vFov|k|k]; simpl;
    try discriminate.
  - assert (H : steady faceIdx (snd (__refresh faces vFov w))
                /\ level (snd (__refresh faces vFov w)) faceIdx = level w faceIdx).
    { apply (__refresh_preserves
               (fun w' => steady faceIdx w' /\ level w' faceIdx = level w faceIdx));
        [|by split].
      intros target i w1 [Hs1 Hl1].
      destruct (refreshFace_steady faceIdx target i w1 Hs1) as [Hs2 Hl2].
      split; [exact Hs2|congruence]. }
    destruct H as [Hs' Hl']. split; [exact Hs'|].
    intros z Hz. exists z. rewrite Hl'. repeat split; auto; try lia.
    intros k' Hk'. discriminate.
  - destruct (pending w !! k) as [f|] eqn:Hk.
    + destruct (fetchDone_steady faceIdx k f w Hk Hs) as [Hs' Hl'].
      split; [exact Hs'|]. intros z Hz.
      destruct (Hl' z Hz) as (z' & ? & ? & ?). exists z'.
      repeat split; auto. intros ? ? H'. discriminate.
    + split; [exact Hs|]. intros z Hz. exists z. repeat split; auto; try lia.
      all: try (intros ? _ H; by destruct H).
      all: try (intros ? ? H'; discriminate).
  - split; [by apply dropped_steady|]. intros z Hz. exists z.
    repeat split; auto; try lia; intros; discriminate.
Qed.

Lemma steps_steady (faceIdx : nat) (evs : list Event) (w : World) :
  forallb (fun e => negb (navigates e)) evs = true ->
  steady faceIdx w -> steady faceIdx (steps evs w).
Proof.
  revert w. induction evs as [|ev evs IH]; intros w Hevs Hs; simpl;
    [exact Hs|].
  simpl in Hevs. apply andb_true_iff in Hevs as [Hev Hevs].
  apply IH; [exact Hevs|]. apply step_steady; [|exact Hs].
  by apply negb_true_iff.
Qed.

Lemma steps_snoc (evs : list Event) (ev : Event) (w : World) :
  steps (evs ++ [ev]) w = step ev (steps evs w).
Proof.
  revert w. induction evs as [|e evs IH]; intros w; simpl; [reflexivity|].
  apply IH.
Qed.

(** With a wide field of view the target level is 2: a face at level 2 or
    better is left alone. *)
Lemma __refresh_wide (w : World) (faceIdx : nat) (vFov : float) (t : Texture) :
  texture w faceIdx = Some t -> zoom t <= 2 -> (vFov <? 55)%float = false ->
  __refresh [faceIdx] vFov w = (Ok tt, w).
Proof.
  intros Ht Hz Hv. unfold texture in Ht.
  destruct (slot w faceIdx) as [m|] eqn:Hs; [|discriminate]. simpl in Ht.
  assert (H : refreshFace 2 faceIdx w = (Ok tt, w)).
  { apply (refreshFace_skips 2 faceIdx w m Hs). rewrite Ht. by right. }
  unfold slot in Hs.
  unfold __refresh, this_mesh, bind, gets, ret, throw; simpl.
  destruct (mesh w) as [id|] eqn:Hid; simpl in *; [|discriminate].
  rewrite Hid; simpl.
  destruct (meshes w !! id) as [me|]; simpl in *; [|discriminate].
  destruct (length (material me) =? 0)%nat; [reflexivity|].
  destruct (dynamicLoadingEnabled w); simpl; [|reflexivity].
  rewrite Hv. unfold __refreshFaces; simpl. unfold bind. rewrite H.
  reflexivity.
Qed.

(** C9, as the code has it.  While one panorama is displayed, from a state
    in which every slot's texture carries [this.url] and no request in
    flight holds that [url], the level stored in a slot never rises: every
    event leaves a level that is at most the one before; a resolved request
    that changes the slot's texture leaves a strictly smaller one; a
    refresh leaves the level as it is; and a refresh whose target is not
    better than the slot's level (the target 2 of a wide field of view, for
    a slot at 2 or better) neither issues a request nor changes the
    slot. *)
Theorem level_never_rises (w : World) (evs : list Event) (ev : Event)
    (faceIdx : nat) (z : Z) :
  settled w ->
  forallb (fun e => negb (navigates e)) (evs ++ [ev]) = true ->
  level (steps evs w) faceIdx = Some z ->
  (exists z' : Z,
     level (steps (evs ++ [ev]) w) faceIdx = Some z' /\ z' <= z
     /\ (forall k, ev = FetchDone k ->
           texture (steps (evs ++ [ev]) w) faceIdx
             <> texture (steps evs w) faceIdx -> z' < z)
     /\ (forall visibleFaces vFov, ev = Refresh visibleFaces vFov -> z' = z))
  /\ (forall (w0 : World) (target : Z) (t : Texture),
        texture w0 faceIdx = Some t -> zoom t <= target ->
        refreshFace target faceIdx w0 = (Ok tt, w0))
  /\ (forall (w0 : World) (vFov : float) (t : Texture),
        texture w0 faceIdx = Some t -> zoom t <= 2 ->
        (vFov <? 55)%float = false ->
        __refresh [faceIdx] vFov w0 = (Ok tt, w0)).
Proof.
  intros Hw Hevs Hz. split; [|split].
  - rewrite forallb_app in Hevs. apply andb_true_iff in Hevs as [Hevs Hev].
    simpl in Hev. rewrite andb_true_r in Hev. apply negb_true_iff in Hev.
    pose proof (steps_steady faceIdx evs w Hevs (settled_steady faceIdx w Hw))
      as Hs.
    destruct (step_steady faceIdx ev (steps evs w) Hev Hs) as [_ Hl].
    rewrite steps_snoc. by apply Hl.
  - intros w0 target t Ht Hle. unfold texture in Ht.
    destruct (slot w0 faceIdx) as [m|] eqn:Hs; [|discriminate]. simpl in Ht.
    apply (refreshFace_skips target faceIdx w0 m Hs). rewrite Ht. by right.
  - intros w0 vFov t. apply __refresh_wide.
Qed.

(** A whole navigation to [md]: [loadTexture], its four requests resolve
    to the textures [loadedTextures], and the viewer hands them to
    [setTexture] while the camera shows [visibleFaces] under [vFov]. *)
Definition loadedTextures (w : World) : list (option Texture) :=
  (fun i => Some {| image := faceUrl w 5 i; zoom := 5; url := this_url w;
                    refreshing := false |}) <$> seq 0 4.

Definition display (md : PanoramaMetadata) (visibleFaces : list nat)
    (vFov : float) (w : World) : World :=
  let w1 := step (LoadTexture md) w in
  step (SetTexture (loadedTextures w1) visibleFaces vFov) w1.

Lemma loadedTextures_loaded (md : PanoramaMetadata) (w : World) :
  let r := loadTexture md w in
  match fst r with
  | Ok requests =>
      (fun q : Z * nat * string =>
         match fst (loaded (snd q) (fst (fst q)) (snd r)) with
         | Ok t => Some t
         | Throw _ => None
         end) <$> requests
  | Throw _ => []
  end = loadedTextures (snd r).
Proof.
  unfold loadTexture, __recreateMeshIfNecessary, createMesh, bind, gets,
    modify, ret; simpl.
  destruct (strict_eq_opt _ _); reflexivity.
Qed.

(** *** The faces in view *)

(** The entries of [l] that the loop [for (i = 0; i < count; i += step)]
    reads, [skip] entries from now. *)
Fixpoint sampled {A : Type} (step skip : nat) (l : list A) : list A :=
  match l with
  | [] => []
  | x :: rest =>
      match skip with
      | O => x :: sampled step (step - 1) rest
      | S k => sampled step k rest
      end
  end.

(** The inner loop of [__getVisibleFaces] for one face: whether one of
    the sampled vertices is inside the frustum.  [containsPoint] is
    [this.screenFrustum.frustum.containsPoint] once [update] has run. *)
Definition faceInView (containsPoint : float * float * float -> bool)
    (geom : Geometry) : bool :=
  existsb containsPoint (sampled 20 0 (position geom)).

(** The outer loop, from index [meshIdx] on. *)
Fixpoint visibleFrom (containsPoint : float * float * float -> bool)
    (meshIdx : nat) (ms : list Geometry) : list nat :=
  match ms with
  | [] => []
  | geom :: rest =>
      if faceInView containsPoint geom
      then meshIdx :: visibleFrom containsPoint (S meshIdx) rest
      else visibleFrom containsPoint (S meshIdx) rest
  end.

Definition __getVisibleFaces (containsPoint : float * float * float -> bool)
    (w : World) : list nat :=
  visibleFrom containsPoint 0 (meshesForFrustum w).

(** The events the adapter subscribes to. *)
Inductive EventType : Type :=
| POSITION_UPDATED
| ZOOM_UPDATED
| BEFORE_ROTATE.

(** [handleEvent(e)]: [containsPoint] is the frustum for the event (for
    [BEFORE_ROTATE], the one of the rotation it announces). *)
Definition handleEvent (e : EventType)
    (containsPoint : float * float * float -> bool) (vFov : float)
  : M World unit :=
  match e with
  | BEFORE_ROTATE | ZOOM_UPDATED =>
      do! faces := gets (__getVisibleFaces containsPoint) in
      __refresh faces vFov
  | POSITION_UPDATED => ret tt
  end.

Lemma sampled_lookup {A : Type} (step : nat) (l : list A) :
  forall skip k,
    sampled (S step) skip l !! k = l !! (skip + k * S step)%nat.
Proof.
  induction l as [|x l IH]; intros skip k; simpl.
  - by rewrite !lookup_nil.
  - destruct skip as [|skip].
    + destruct k as [|k]; simpl; [reflexivity|].
      rewrite Nat.sub_0_r, IH. f_equal; lia.
    + simpl. apply IH.
Qed.

Lemma faceInView_iff (containsPoint : float * float * float -> bool)
    (geom : Geometry) :
  faceInView containsPoint geom = true <->
  exists k pt, position geom !! (20 * k)%nat = Some pt
               /\ containsPoint pt = true.
Proof.
  unfold faceInView. rewrite existsb_exists. split.
  - intros (pt & Hin & Hc). apply list_elem_of_In in Hin.
    apply list_elem_of_lookup in Hin as [k Hk].
    rewrite (sampled_lookup 19) in Hk. exists k, pt. split; [|exact Hc].
    rewrite <- Hk. f_equal. lia.
  - intros (k & pt & Hk & Hc). exists pt. split; [|exact Hc].
    apply list_elem_of_In. apply list_elem_of_lookup. exists k.
    rewrite (sampled_lookup 19). rewrite <- Hk. f_equal. lia.
Qed.

Lemma visibleFrom_spec (containsPoint : float * float * float -> bool)
    (ms : list Geometry) :
  forall (meshIdx i : nat),
    i ∈ visibleFrom containsPoint meshIdx ms <->
    exists geom, (meshIdx <= i)%nat /\ ms !! (i - meshIdx)%nat = Some geom
                 /\ faceInView containsPoint geom = true.
Proof.
  induction ms as [|g ms IH]; intros meshIdx i; simpl.
  - rewrite elem_of_nil. split; [done|]. intros (geom & _ & H & _).
    by rewrite lookup_nil in H.
  - assert (Hrest : i ∈ visibleFrom containsPoint (S meshIdx) ms <->
              exists geom, (S meshIdx <= i)%nat
                /\ (g :: ms) !! (i - meshIdx)%nat = Some geom
                /\ faceInView containsPoint geom = true).
    { rewrite IH. split; intros (geom & Hle & Hl & Hv); exists geom;
        (split; [exact Hle|split; [|exact Hv]]).
      - replace (i - meshIdx)%nat with (S (i - S meshIdx)) by lia. exact Hl.
      - replace (i - meshIdx)%nat with (S (i - S meshIdx)) in Hl by lia.
        exact Hl. }
    destruct (faceInView containsPoint g) eqn:Hg.
    + rewrite elem_of_cons, Hrest. split.
      * intros [->|(geom & Hle & Hl & Hv)].
        -- exists g. rewrite Nat.sub_diag. by repeat split.
        -- exists geom. repeat split; auto. lia.
      * intros (geom & Hle & Hl & Hv).
        destruct (decide (i = meshIdx)) as [->|Hne]; [by left|].
        right. exists geom. repeat split; auto. lia.
    + rewrite Hrest. split.
      * intros (geom & Hle & Hl & Hv). exists geom. repeat split; auto. lia.
      * intros (geom & Hle & Hl & Hv).
        destruct (decide (i = meshIdx)) as [->|Hne].
        -- rewrite Nat.sub_diag in Hl. simpl in Hl. injection Hl as <-.
           congruence.
        -- exists geom. repeat split; auto. lia.
Qed.

Lemma visibleFrom_sorted (containsPoint : float * float * float -> bool)
    (ms : list Geometry) :
  forall meshIdx, StronglySorted lt (visibleFrom containsPoint meshIdx ms).
Proof.
  induction ms as [|g ms IH]; intros meshIdx; simpl; [constructor|].
  destruct (faceInView containsPoint g); [|apply IH].
  constructor; [apply IH|].
  apply Forall_forall. intros i Hi.
  apply visibleFrom_spec in Hi as (geom & Hle & _). lia.
Qed.

Lemma __getVisibleFaces_bound (containsPoint : float * float * float -> bool)
    (w : World) (i : nat) :
  i ∈ __getVisibleFaces containsPoint w <->
  exists geom, meshesForFrustum w !! i = Some geom
               /\ faceInView containsPoint geom = true.
Proof.
  unfold __getVisibleFaces. rewrite visibleFrom_spec.
  rewrite Nat.sub_0_r. split.
  - intros (geom & _ & H). by exists geom.
  - intros (geom & H). exists geom. split; [lia|exact H].
Qed.

(** The faces [__getVisibleFaces] answers are the faces of
    [meshesForFrustum] that have a vertex inside the frustum at an index
    that is a multiple of 20 (a vertex at any other index is not looked
    at); they come in increasing order, each once. *)
Theorem __getVisibleFaces_sampled (containsPoint : float * float * float -> bool)
    (w : World) :
  (forall i : nat,
     i ∈ __getVisibleFaces containsPoint w <->
     exists geom k pt,
       meshesForFrustum w !! i = Some geom
       /\ position geom !! (20 * k)%nat = Some pt
       /\ containsPoint pt = true)
  /\ StronglySorted lt (__getVisibleFaces containsPoint w).
Proof.
  split; [|apply visibleFrom_sorted].
  intros i. unfold __getVisibleFaces. rewrite visibleFrom_spec. split.
  - intros (geom & _ & Hl & Hv). rewrite Nat.sub_0_r in Hl.
    apply faceInView_iff in Hv as (k & pt & Hk & Hc).
    by exists geom, k, pt.
  - intros (geom & k & pt & Hl & Hk & Hc). exists geom.
    rewrite Nat.sub_0_r. repeat split; [lia|exact Hl|].
    apply faceInView_iff. by exists k, pt.
Qed.

(** *** The shape of the mesh *)

(** The adapter's mesh is the renderer's mesh; it has [FACES] material
    slots and the four geometries the frustum test samples; the renderer's
    group holds it and is in the scene. *)
Definition shaped (w : World) : Prop :=
  mesh w = Some (renderer_mesh w)
  /\ (exists me, meshes w !! renderer_mesh w = Some me
        /\ length (material me) = FACES
        /\ geometry me = meshesForFrustum w)
  /\ length (meshesForFrustum w) = 4%nat
  /\ children (renderer_meshContainer w) = [renderer_mesh w]
  /\ renderer_meshContainer w ∈ scene w.

Lemma shaped_set_material (id faceIdx : nat) (m : Material) (w : World) :
  shaped w -> shaped (set_material id faceIdx m w).
Proof.
  intros (Hm & (me & Hme & Hlen & Hgeo) & Hf & Hc & Hs).
  repeat split; simpl; auto.
  destruct (decide (id = renderer_mesh w)) as [->|Hne].
  - eexists. rewrite lookup_alter_eq, Hme. simpl. split; [reflexivity|].
    simpl. rewrite length_insert. by split.
  - exists me. rewrite lookup_alter_ne by done. by repeat split.
Qed.

Lemma shaped_boot (endpoint : string) (md : PanoramaMetadata) :
  shaped (boot endpoint md).
Proof.
  unfold boot, createMesh, bind, gets, modify, ret; simpl.
  repeat split; simpl.
  - eexists. rewrite lookup_insert_eq. by repeat split.
  - apply elem_of_cons. by left.
Qed.

Lemma refreshFace_shaped (target : Z) (faceIdx : nat) (w : World) :
  shaped w -> shaped (snd (refreshFace target faceIdx w)).
Proof.
  intros Hw. unfold refreshFace, this_mesh, bind, gets, modify, ret, throw;
    simpl.
  destruct (mesh w) as [id|]; simpl; [|exact Hw].
  destruct (meshes w !! id) as [me|]; simpl; [|exact Hw].
  destruct (material me !! faceIdx) as [m|]; simpl; [|exact Hw].
  destruct (map m) as [t|]; simpl; [|exact Hw].
  destruct ((target <? zoom t) && negb (refreshing t)); simpl; [|exact Hw].
  exact (shaped_set_material id faceIdx _ w Hw).
Qed.

Lemma loadTexture_shaped (md : PanoramaMetadata) (w : World) :
  shaped w -> shaped (snd (loadTexture md w)).
Proof.
  intros Hw. unfold loadTexture, __recreateMeshIfNecessary, createMesh, bind,
    gets, modify, ret; simpl.
  destruct (strict_eq_opt _ _); simpl; [exact Hw|].
  repeat split; simpl.
  - eexists. rewrite lookup_insert_eq. by repeat split.
  - apply elem_of_app. right. apply elem_of_cons. by left.
Qed.

Lemma step_shaped (ev : Event) (w : World) : shaped w -> shaped (step ev w).
Proof.
  intros Hw. destruct ev as [md|tx faces vFov|faces vFov|k|k]; simpl.
  - by apply loadTexture_shaped.
  - unfold setTexture, bind.
    match goal with |- context [for_of ?l ?b w] =>
      assert (H : shaped (snd (for_of l b w))) end.
    { apply (for_of_preserves shaped); [|exact Hw]. intros i w1 Hw1.
      destruct (tx !! i) as [[t|]|]; simpl; auto.
      by apply shaped_set_material. }
    destruct (for_of _ _ w) as [[[]|e] w1]; simpl in *; [|exact H].
    apply __refresh_preserves; [|exact H].
    intros target i w2. apply refreshFace_shaped.
  - apply __refresh_preserves; [|exact Hw].
    intros target i w1. apply refreshFace_shaped.
  - destruct (pending w !! k) as [f|]; [|exact Hw].
    set (w0 := set_pending (delete k (pending w)) w).
    assert (Hw0 : shaped w0) by exact Hw.
    pose proof (fetchDone_cases f w0) as H.
    destruct (mesh w0) as [id|]; [|by rewrite H].
    destruct (texture w0 (fetch_faceIdx f)) as [t|]; [|by rewrite H].
    destruct (String.eqb (url t) (oldUrl f)); rewrite H; [|exact Hw0].
    exact (shaped_set_material id (fetch_faceIdx f) _ w0 Hw0).
  - exact Hw.
Qed.

Lemma steps_shaped (evs : list Event) (w : World) :
  shaped w -> shaped (steps evs w).
Proof.
  revert w. induction evs as [|ev evs IH]; intros w Hw; simpl; [exact Hw|].
  by apply IH, step_shaped.
Qed.

Lemma steps_wf (evs : list Event) (w : World) : wf w -> wf (steps evs w).
Proof.
  revert w. induction evs as [|ev evs IH]; intros w Hw; simpl; [exact Hw|].
  by apply IH, step_wf.
Qed.

(** Whatever happens after the viewer has started, the adapter and the
    renderer hold the same mesh object, that mesh has six material slots
    and the four geometries the frustum test samples, the renderer's group
    holds exactly that mesh and is in the scene, and every identity in use
    is older than the next fresh one. *)
Theorem mesh_stays_in_shape (endpoint : string) (md : PanoramaMetadata)
    (evs : list Event) :
  let w := steps evs (boot endpoint md) in
  mesh w = Some (renderer_mesh w)
  /\ (exists me, meshes w !! renderer_mesh w = Some me
        /\ length (material me) = 6%nat
        /\ geometry me = meshesForFrustum w
        /\ length (geometry me) = 4%nat)
  /\ children (renderer_meshContainer w) = [renderer_mesh w]
  /\ renderer_meshContainer w ∈ scene w
  /\ (renderer_mesh w < fresh w)%nat.
Proof.
  intros w.
  assert (Hs : shaped w) by apply steps_shaped, shaped_boot.
  assert (Hwf : wf w) by apply steps_wf, wf_boot.
  destruct Hs as (Hm & (me & Hme & Hlen & Hgeo) & Hf & Hc & Hsc).
  destruct Hwf as (_ & _ & Hr & _).
  repeat split; auto. exists me. repeat split; auto. by rewrite Hgeo.
Qed.

(** *** Refreshing never goes out of range *)

Lemma slot_shaped (w : World) (faceIdx : nat) :
  shaped w -> (faceIdx < FACES)%nat -> is_Some (slot w faceIdx).
Proof.
  intros (Hm & (me & Hme & Hlen & _) & _) Hlt.
  unfold slot. rewrite Hm; simpl. rewrite Hme; simpl.
  apply lookup_lt_is_Some. by rewrite Hlen.
Qed.

Lemma refreshFace_ok (target : Z) (faceIdx : nat) (w : World) :
  is_Some (slot w faceIdx) -> fst (refreshFace target faceIdx w) = Ok tt.
Proof.
  unfold slot, refreshFace, this_mesh, bind, gets, modify, ret, throw; simpl.
  destruct (mesh w) as [id|]; simpl; [|by intros [? ?]].
  destruct (meshes w !! id) as [me|]; simpl; [|by intros [? ?]].
  destruct (material me !! faceIdx) as [m|]; simpl; [|by intros [? ?]].
  intros _. destruct (map m) as [t|]; simpl; [|reflexivity].
  destruct ((target <? zoom t) && negb (refreshing t)); reflexivity.
Qed.

Lemma __refreshFaces_ok (faces : list nat) (target : Z) (w : World) :
  shaped w -> Forall (fun i => (i < FACES)%nat) faces ->
  fst (__refreshFaces faces target w) = Ok tt.
Proof.
  unfold __refreshFaces. intros Hw Hf. revert w Hw.
  induction Hf as [|i faces Hi Hf IH]; intros w Hw; simpl; [reflexivity|].
  unfold bind.
  pose proof (refreshFace_ok target i w (slot_shaped w i Hw Hi)) as Hok.
  pose proof (refreshFace_shaped target i w Hw) as Hw'.
  destruct (refreshFace target i w) as [[[]|e] w1]; simpl in *;
    [|discriminate].
  by apply IH.
Qed.

Lemma __refresh_ok (faces : list nat) (vFov : float) (w : World) :
  shaped w -> Forall (fun i => (i < FACES)%nat) faces ->
  fst (__refresh faces vFov w) = Ok tt.
Proof.
  intros Hw Hf. pose proof Hw as (Hm & (me & Hme & Hlen & _) & _).
  unfold __refresh, this_mesh, bind, gets, ret, throw; simpl.
  rewrite Hm; simpl. rewrite Hm; simpl. rewrite Hme; simpl.
  destruct (length (material me) =? 0)%nat; [reflexivity|].
  destruct (dynamicLoadingEnabled w); simpl; [|reflexivity].
  destruct (vFov <? 55)%float; by apply __refreshFaces_ok.
Qed.

(** Whatever happened since the viewer started, handling a camera event
    never throws: the faces [__getVisibleFaces] answers are among the four
    of [meshesForFrustum], and the mesh has a material slot for each. *)
Theorem handleEvent_never_throws (endpoint : string) (md : PanoramaMetadata)
    (evs : list Event) (e : EventType)
    (containsPoint : float * float * float -> bool) (vFov : float) :
  let w := steps evs (boot endpoint md) in
  fst (handleEvent e containsPoint vFov w) = Ok tt
  /\ Forall (fun i => (i < 4)%nat) (__getVisibleFaces containsPoint w).
Proof.
  intros w.
  assert (Hs : shaped w) by apply steps_shaped, shaped_boot.
  assert (Hv : Forall (fun i => (i < 4)%nat) (__getVisibleFaces containsPoint w)).
  { apply Forall_forall. intros i Hi.
    apply (proj1 (__getVisibleFaces_bound containsPoint w i)) in Hi.
    destruct Hi as (geom & Hi & _). apply lookup_lt_Some in Hi.
    destruct Hs as (_ & _ & Hf & _). by rewrite <- Hf. }
  split; [|exact Hv].
  assert (Hv6 : Forall (fun i => (i < FACES)%nat)
                  (__getVisibleFaces containsPoint w)).
  { eapply Forall_impl; [exact Hv|]. simpl. unfold FACES. lia. }
  destruct e; simpl; try reflexivity;
    unfold bind, gets; simpl; by apply __refresh_ok.
Qed.

(** *** Requests across a rebuild, and requests that fail *)

(** When a navigation rebuilds the mesh, no slot of the new mesh holds a
    texture until [setTexture] runs: a refresh in between issues nothing,
    and a request that was in flight throws a [TypeError] from its
    callback when it resolves (it reads [map.userData] of a material
    without a map) and changes nothing. *)
Theorem request_across_rebuild_throws (md : PanoramaMetadata) (w : World)
    (f : Fetch) :
  strict_eq_opt (previousThetaLength w)
    (latitude_size (md_panorama md) !! 0%nat) = false ->
  (forall faceIdx, texture (snd (loadTexture md w)) faceIdx = None)
  /\ fetchDone f (snd (loadTexture md w))
     = (Throw TypeError, snd (loadTexture md w))
  /\ (forall target faceIdx, (faceIdx < FACES)%nat ->
        refreshFace target faceIdx (snd (loadTexture md w))
        = (Ok tt, snd (loadTexture md w))).
Proof.
  intros Hne.
  assert (Hmesh : mesh (snd (loadTexture md w)) = Some (fresh w)
                  /\ meshes (snd (loadTexture md w)) !! fresh w
                     = Some {| geometry := geometries (md_panorama md) 1;
                               material := replicate FACES {| map := None |} |}).
  { unfold loadTexture, __recreateMeshIfNecessary, createMesh, bind, gets,
      modify, ret; simpl. rewrite Hne; simpl.
    split; [reflexivity|apply lookup_insert_eq]. }
  destruct Hmesh as [Hm Hme].
  assert (Hslot : forall faceIdx,
            slot (snd (loadTexture md w)) faceIdx
            = replicate FACES {| map := None |} !! faceIdx).
  { intros faceIdx. unfold slot. rewrite Hm; simpl. by rewrite Hme. }
  assert (Htex : forall faceIdx, texture (snd (loadTexture md w)) faceIdx = None).
  { intros faceIdx. unfold texture. rewrite Hslot.
    destruct faceIdx as [|[|[|[|[|[|?]]]]]]; reflexivity. }
  split; [exact Htex|]. split.
  - pose proof (fetchDone_cases f (snd (loadTexture md w))) as H.
    by rewrite Hm, Htex in H.
  - intros target faceIdx Hlt.
    apply (refreshFace_skips target faceIdx _ {| map := None |}); [|done].
    rewrite Hslot. apply lookup_replicate_2. exact Hlt.
Qed.

(** Events of the display of one panorama. *)
Definition quiet (evs : list Event) : Prop :=
  forallb (fun e => negb (navigates e)) evs = true.

Lemma refreshFace_stuck (faceIdx : nat) (t : Texture) (target : Z) (i : nat)
    (w : World) :
  refreshing t = true ->
  texture w faceIdx = Some t /\ inFlightFor faceIdx (pending w) = 0%nat ->
  texture (snd (refreshFace target i w)) faceIdx = Some t
  /\ inFlightFor faceIdx (pending (snd (refreshFace target i w))) = 0%nat.
Proof.
  intros Hr [Ht Hp].
  destruct (refreshFace_effect target i w) as (_ & Hother & [->|Hw]);
    [by split|].
  destruct Hw as (t0 & Ht0 & Hr0 & _ & _ & Ht' & Hpend).
  destruct (decide (i = faceIdx)) as [->|Hne]; [congruence|].
  rewrite (Hother faceIdx Hne), Hpend, inFlightFor_app, Hp. simpl.
  destruct (Nat.eqb_spec i faceIdx); [contradiction|]. by split.
Qed.

Lemma step_stuck (faceIdx : nat) (t : Texture) (ev : Event) (w : World) :
  navigates ev = false -> refreshing t = true ->
  texture w faceIdx = Some t /\ inFlightFor faceIdx (pending w) = 0%nat ->
  texture (step ev w) faceIdx = Some t
  /\ inFlightFor faceIdx (pending (step ev w)) = 0%nat.
Proof.
  intros Hev Hr [Ht Hp]. destruct ev as [md|? ? ?|faces vFov|k|k]; simpl;
    try discriminate.
  - apply (__refresh_preserves
             (fun w' => texture w' faceIdx = Some t
                        /\ inFlightFor faceIdx (pending w') = 0%nat));
      [|by split].
    intros target i w1. by apply refreshFace_stuck.
  - destruct (pending w !! k) as [f|] eqn:Hk; [|by split].
    pose proof (inFlightFor_delete faceIdx _ _ _ Hk) as Hd.
    simpl in Hd. rewrite Hp in Hd.
    destruct (Nat.eqb_spec (fetch_faceIdx f) faceIdx) as [He|Hne]; [lia|].
    set (w0 := set_pending (delete k (pending w)) w).
    pose proof (fetchDone_cases f w0) as H.
    destruct (mesh w0) as [id|] eqn:Hid; [|rewrite H; split; [exact Ht|simpl; lia]].
    destruct (texture w0 (fetch_faceIdx f)) as [t0|];
      [|rewrite H; split; [exact Ht|simpl; lia]].
    destruct (String.eqb (url t0) (oldUrl f)); rewrite H;
      [|split; [exact Ht|simpl; lia]].
    split; [|simpl; lia]. simpl.
    change (texture (applied f id w0) faceIdx)
      with (texture (set_material id (fetch_faceIdx f)
                       {| map := Some {| image := fetch_faceUrl f;
                                         zoom := fetch_zoom f;
                                         url := this_url w0;
                                         refreshing := false |} |} w0) faceIdx).
    rewrite (texture_set_material_ne w0 id _ faceIdx _ Hid Hne). exact Ht.
  - split; [exact Ht|]. simpl.
    pose proof (inFlightFor_delete_le faceIdx (pending w) k). lia.
Qed.

(** A face whose slot is marked [refreshing] while no request for the face
    is in flight (its request was rejected: nothing clears the mark)
    stays as it is for the rest of the panorama's display: no refresh
    issues a request for it, and its texture and level never change. *)
Theorem rejected_upgrade_is_final (w : World) (evs : list Event)
    (faceIdx : nat) (t : Texture) :
  texture w faceIdx = Some t -> refreshing t = true ->
  inFlightFor faceIdx (pending w) = 0%nat ->
  quiet evs ->
  texture (steps evs w) faceIdx = Some t
  /\ inFlightFor faceIdx (pending (steps evs w)) = 0%nat.
Proof.
  intros Ht Hr Hp Hq. revert w Ht Hp.
  induction evs as [|ev evs IH]; intros w Ht Hp; simpl; [by split|].
  unfold quiet in Hq. simpl in Hq. apply andb_true_iff in Hq as [Hev Hq].
  apply negb_true_iff in Hev.
  destruct (step_stuck faceIdx t ev w Hev Hr (conj Ht Hp)) as [Ht' Hp'].
  by apply IH.
Qed.

(** *** A navigation, and the upgrade that follows it *)

Lemma loadTexture_fields (md : PanoramaMetadata) (w : World) :
  let w1 := snd (loadTexture md w) in
  endpoint w1 = endpoint w /\ this_url w1 = md_url md
  /\ pending w1 = pending w
  /\ dynamicLoadingEnabled w1 = dynamicLoadingEnabled w
  /\ needsUpdate w1 = needsUpdate w.
Proof.
  unfold loadTexture, __recreateMeshIfNecessary, createMesh, bind, gets,
    modify, ret; simpl.
  destruct (strict_eq_opt _ _); simpl; by repeat split.
Qed.

(** The texture [__loadOneTexture] makes for a face at the start level. *)
Definition coarse (w : World) (faceIdx : nat) : Texture :=
  {| image := faceUrl w 5 faceIdx; zoom := 5; url := this_url w;
     refreshing := false |}.

(** The state after the loop of [setTexture] over the textures of
    [loadedTextures]. *)
Definition installed (w : World) : World :=
  set_material (renderer_mesh w) 3 {| map := Some (coarse w 3) |}
    (set_material (renderer_mesh w) 2 {| map := Some (coarse w 2) |}
       (set_material (renderer_mesh w) 1 {| map := Some (coarse w 1) |}
          (set_material (renderer_mesh w) 0 {| map := Some (coarse w 0) |} w))).

Lemma setTexture_loaded (w : World) (faces : list nat) (vFov : float) :
  setTexture (renderer_mesh w) (loadedTextures w) faces vFov w
  = __refresh faces vFov (installed w).
Proof. reflexivity. Qed.

Lemma texture_set_material_shaped (w : World) (faceIdx : nat) (m : Material) :
  shaped w -> (faceIdx < FACES)%nat ->
  texture (set_material (renderer_mesh w) faceIdx m w) faceIdx = map m.
Proof.
  intros Hw Hlt. destruct (slot_shaped w faceIdx Hw Hlt) as [m0 Hm0].
  destruct Hw as (Hm & _).
  exact (texture_set_material_eq w (renderer_mesh w) faceIdx m0 m Hm Hm0).
Qed.

Lemma installed_textures (w : World) (faceIdx : nat) :
  shaped w -> (faceIdx < 4)%nat ->
  texture (installed w) faceIdx = Some (coarse w faceIdx).
Proof.
  intros Hw Hlt. unfold installed.
  set (r := renderer_mesh w).
  set (w0 := set_material r 0 {| map := Some (coarse w 0) |} w).
  set (w1 := set_material r 1 {| map := Some (coarse w 1) |} w0).
  set (w2 := set_material r 2 {| map := Some (coarse w 2) |} w1).
  assert (H0 : shaped w0) by by apply shaped_set_material.
  assert (H1 : shaped w1) by by apply shaped_set_material.
  assert (H2 : shaped w2) by by apply shaped_set_material.
  assert (Hm : forall w', shaped w' -> renderer_mesh w' = r ->
                 mesh w' = Some r).
  { intros w' (Hm' & _) <-. exact Hm'. }
  destruct faceIdx as [|[|[|[|?]]]]; try lia.
  - rewrite (texture_set_material_ne w2 r 3 0) by (auto; lia). unfold w2.
    rewrite (texture_set_material_ne w1 r 2 0) by (auto; lia). unfold w1.
    rewrite (texture_set_material_ne w0 r 1 0) by (auto; lia). unfold w0.
    apply (texture_set_material_shaped w 0); [exact Hw|unfold FACES; lia].
  - rewrite (texture_set_material_ne w2 r 3 1) by (auto; lia). unfold w2.
    rewrite (texture_set_material_ne w1 r 2 1) by (auto; lia). unfold w1.
    apply (texture_set_material_shaped w0 1); [exact H0|unfold FACES; lia].
  - rewrite (texture_set_material_ne w2 r 3 2) by (auto; lia). unfold w2.
    apply (texture_set_material_shaped w1 2); [exact H1|unfold FACES; lia].
  - apply (texture_set_material_shaped w2 3); [exact H2|unfold FACES; lia].
Qed.

Lemma installed_shaped (w : World) : shaped w -> shaped (installed w).
Proof. intros Hw. unfold installed. by repeat apply shaped_set_material. Qed.

(** A refresh marks textures and changes nothing else of them. *)
Lemma refreshFace_same_image (target : Z) (i faceIdx : nat) (w : World)
    (t : Texture) :
  texture w faceIdx = Some t ->
  exists t', texture (snd (refreshFace target i w)) faceIdx = Some t'
             /\ image t' = image t /\ zoom t' = zoom t /\ url t' = url t.
Proof.
  intros Ht.
  destruct (refreshFace_effect target i w) as (_ & Hother & [->|Hw]);
    [by exists t|].
  destruct Hw as (t0 & Ht0 & _ & _ & _ & Ht' & _).
  destruct (decide (i = faceIdx)) as [->|Hne].
  - exists (marked t0). rewrite Ht'. split; [reflexivity|].
    assert (t0 = t) as -> by congruence. by repeat split.
  - exists t. rewrite (Hother faceIdx Hne). by repeat split.
Qed.

(** After a navigation ([loadTexture], its four requests resolved, then
    [setTexture]) each of the four side faces holds the texture of the new
    panorama at the start level 5, fetched from the new panorama's
    address, whatever the slots held before and whether or not the mesh
    was rebuilt; [this.url] is the new panorama's. *)
Theorem display_installs (md : PanoramaMetadata) (visibleFaces : list nat)
    (vFov : float) (w : World) (faceIdx : nat) :
  shaped w -> (faceIdx < 4)%nat ->
  let w' := display md visibleFaces vFov w in
  this_url w' = md_url md
  /\ shaped w'
  /\ exists t : Texture,
       texture w' faceIdx = Some t
       /\ zoom t = 5
       /\ url t = md_url md
       /\ image t = endpoint w +:+ md_url md +:+ "5/" +:+ pretty faceIdx +:+ "/".
Proof.
  intros Hw Hlt. unfold display. simpl.
  set (w1 := snd (loadTexture md w)).
  destruct (loadTexture_fields md w) as (He & Hu & _). fold w1 in He, Hu.
  assert (H1 : shaped w1) by by apply loadTexture_shaped.
  destruct H1 as (Hm1 & Hrest1). pose proof (conj Hm1 Hrest1) as H1.
  change (step (SetTexture (loadedTextures w1) visibleFaces vFov) w1)
    with (snd (setTexture (renderer_mesh w1) (loadedTextures w1)
                 visibleFaces vFov w1)).
  rewrite setTexture_loaded.
  pose proof (installed_textures w1 faceIdx H1 Hlt) as Ht.
  pose proof (installed_shaped w1 H1) as Hs.
  assert (Hgoal :
    this_url (snd (__refresh visibleFaces vFov (installed w1))) = this_url w1
    /\ shaped (snd (__refresh visibleFaces vFov (installed w1)))
    /\ exists t, texture (snd (__refresh visibleFaces vFov (installed w1)))
                   faceIdx = Some t
         /\ image t = image (coarse w1 faceIdx)
         /\ zoom t = zoom (coarse w1 faceIdx)
         /\ url t = url (coarse w1 faceIdx)).
  { apply (__refresh_preserves
             (fun w2 => this_url w2 = this_url w1 /\ shaped w2
                /\ exists t, texture w2 faceIdx = Some t
                     /\ image t = image (coarse w1 faceIdx)
                     /\ zoom t = zoom (coarse w1 faceIdx)
                     /\ url t = url (coarse w1 faceIdx))).
    - intros target i w2 (Hu2 & Hs2 & t & Ht2 & Hi & Hz & Hurl).
      destruct (refreshFace_effect target i w2) as (Hu3 & _).
      destruct (refreshFace_same_image target i faceIdx w2 t Ht2)
        as (t' & Ht' & Hi' & Hz' & Hurl').
      split; [congruence|]. split; [by apply refreshFace_shaped|].
      exists t'. repeat split; congruence.
    - split; [reflexivity|]. split; [exact Hs|].
      exists (coarse w1 faceIdx). by repeat split. }
  destruct Hgoal as (Hu' & Hs' & t & Ht' & Hi & Hz & Hurl).
  split; [congruence|]. split; [exact Hs'|].
  exists t. split; [exact Ht'|]. split; [exact Hz|].
  split; [simpl in Hurl; congruence|].
  rewrite Hi. simpl. unfold faceUrl. rewrite He, Hu. reflexivity.
Qed.

(** The whole cycle for one face in view: after a navigation with nothing
    in flight, the refresh that [setTexture] ends with issues one request
    for the face, at level 0 under a field of view below 55 and at level 2
    otherwise; when that request resolves, the slot holds the texture of
    that level, fetched from the new panorama's address and not marked,
    nothing is in flight, and one repaint was asked for. *)
Theorem upgrade_cycle (md : PanoramaMetadata) (vFov : float) (w : World)
    (faceIdx : nat) :
  shaped w -> dynamicLoadingEnabled w = true -> pending w = [] ->
  (faceIdx < 4)%nat ->
  let target := if (vFov <? 55)%float then 0 else 2 in
  pending (display md [faceIdx] vFov w)
  = [ {| fetch_zoom := target; fetch_faceIdx := faceIdx;
         fetch_faceUrl := endpoint w +:+ md_url md +:+ pretty target +:+ "/"
                          +:+ pretty faceIdx +:+ "/";
         oldUrl := md_url md |} ]
  /\ texture (step (FetchDone 0) (display md [faceIdx] vFov w)) faceIdx
     = Some {| image := endpoint w +:+ md_url md +:+ pretty target +:+ "/"
                        +:+ pretty faceIdx +:+ "/";
               zoom := target; url := md_url md; refreshing := false |}
  /\ pending (step (FetchDone 0) (display md [faceIdx] vFov w)) = []
  /\ needsUpdate (step (FetchDone 0) (display md [faceIdx] vFov w))
     = S (needsUpdate w).
Proof.
  intros Hw Hdyn Hp Hlt target. unfold display. simpl.
  set (w1 := snd (loadTexture md w)).
  destruct (loadTexture_fields md w) as (He & Hu & Hp1 & Hd1 & Hn1).
  fold w1 in He, Hu, Hp1, Hd1, Hn1.
  assert (H1 : shaped w1) by by apply loadTexture_shaped.
  destruct H1 as (Hm1 & Hrest1). pose proof (conj Hm1 Hrest1) as H1.
  change (step (SetTexture (loadedTextures w1) [faceIdx] vFov) w1)
    with (snd (setTexture (renderer_mesh w1) (loadedTextures w1)
                 [faceIdx] vFov w1)).
  rewrite setTexture_loaded.
  pose proof (installed_textures w1 faceIdx H1 Hlt) as Ht.
  pose proof (installed_shaped w1 H1) as Hs.
  assert (Hsame : pending (installed w1) = pending w1
                  /\ dynamicLoadingEnabled (installed w1)
                     = dynamicLoadingEnabled w1
                  /\ needsUpdate (installed w1) = needsUpdate w1
                  /\ endpoint (installed w1) = endpoint w1
                  /\ this_url (installed w1) = this_url w1)
    by by repeat split.
  destruct Hsame as (Hp2 & Hd2 & Hn2 & He2 & Hu2).
  remember (installed w1) as w2 eqn:Hw2. clear Hw2.
  assert (Hz : target < zoom (coarse w1 faceIdx)).
  { subst target. simpl. destruct (vFov <? 55)%float; lia. }
  destruct (refreshFace_issues target faceIdx w2 _ Ht eq_refl Hz)
    as (id & Hid & Hrun).
  assert (Hrefresh : __refresh [faceIdx] vFov w2
            = (Ok tt, set_pending (pending w2
                                   ++ [request w2 target faceIdx (coarse w1 faceIdx)])
                        (set_material id faceIdx
                           {| map := Some (marked (coarse w1 faceIdx)) |} w2))).
  { pose proof Hs as (Hm2 & (me & Hme & Hlen & _) & _).
    unfold __refresh, this_mesh, bind, gets, ret, throw; simpl.
    rewrite Hm2; simpl. rewrite Hm2; simpl. rewrite Hme; simpl.
    rewrite Hlen; simpl.
    rewrite Hd2, Hd1, Hdyn; simpl. subst target.
    destruct (vFov <? 55)%float; unfold __refreshFaces; simpl; unfold bind;
      rewrite Hrun; reflexivity. }
  rewrite Hrefresh. simpl.
  rewrite Hp2, Hp1, Hp. simpl.
  unfold request, faceUrl; simpl. rewrite He2, Hu2, He, Hu.
  split; [reflexivity|].
  set (f := {| fetch_zoom := target; fetch_faceIdx := faceIdx;
               fetch_faceUrl := endpoint w +:+ md_url md +:+ pretty target
                                +:+ "/" +:+ pretty faceIdx +:+ "/";
               oldUrl := md_url md |}).
  set (w3 := set_pending []
               (set_pending [f]
                  (set_material id faceIdx
                     {| map := Some (marked (coarse w1 faceIdx)) |} w2))).
  assert (Ht3 : texture w3 faceIdx = Some (marked (coarse w1 faceIdx))).
  { destruct (slot_shaped w2 faceIdx Hs) as [m0 Hm0]; [unfold FACES; lia|].
    exact (texture_set_material_eq w2 id faceIdx m0 _ Hid Hm0). }
  assert (Hu3 : this_url w3 = md_url md) by (simpl; congruence).
  pose proof (fetchDone_cases f w3) as Hdone.
  change (mesh w3) with (mesh w2) in Hdone. rewrite Hid in Hdone.
  change (fetch_faceIdx f) with faceIdx in Hdone. rewrite Ht3 in Hdone.
  simpl in Hdone. rewrite Hu, String.eqb_refl in Hdone.
  change (fetchDone f w3 = (Ok tt, applied f id w3)) in Hdone.
  rewrite Hdone. simpl.
  split; [|split; [reflexivity|]].
  - assert (Hslot3 : is_Some (slot w3 faceIdx)).
    { unfold texture in Ht3. destruct (slot w3 faceIdx); [by eexists|].
      discriminate. }
    destruct Hslot3 as [m3 Hm3].
    pose proof (texture_set_material_eq w3 id faceIdx m3
                  {| map := Some {| image := fetch_faceUrl f;
                                    zoom := fetch_zoom f;
                                    url := this_url w3;
                                    refreshing := false |} |} Hid Hm3) as Hnew.
    etrans; [exact Hnew|]. simpl. by rewrite Hu2, Hu.
  - congruence.
Qed.

(** *** Dynamic loading switched off *)

Lemma __refresh_disabled (visibleFaces : list nat) (vFov : float) (w : World) :
  dynamicLoadingEnabled w = false -> snd (__refresh visibleFaces vFov w) = w.
Proof.
  intros Hd. unfold __refresh, this_mesh, bind, gets, ret, throw; simpl.
  destruct (mesh w) as [id|] eqn:Hid; simpl; [|reflexivity].
  rewrite Hid; simpl.
  destruct (meshes w !! id) as [me|]; simpl; [|reflexivity].
  destruct (length (material me) =? 0)%nat; simpl; [reflexivity|].
  rewrite Hd. reflexivity.
Qed.

Lemma step_disabled (ev : Event) (w : World) :
  dynamicLoadingEnabled w = false ->
  dynamicLoadingEnabled (step ev w) = false
  /\ pending (step ev w) `sublist_of` pending w.
Proof.
  intros Hd. destruct ev as [md|tex vf vFov|vf vFov|k|k]; simpl.
  - destruct (loadTexture_fields md w) as (_ & _ & -> & -> & _). by split.
  - unfold setTexture, bind.
    match goal with |- context [for_of ?l ?body w] =>
      pose proof (for_of_preserves
        (fun w' => dynamicLoadingEnabled w' = false /\ pending w' = pending w)
        body l) as H;
      destruct (for_of l body w) as [[[]|e] w1] eqn:Hw1 end; simpl in *.
    + destruct (H ltac:(intros x w' [H1 H2]; destruct (tex !! x) as [[t|]|];
                        simpl; by split) w (conj Hd eq_refl)) as [Hd1 Hp1].
      rewrite Hw1 in Hd1, Hp1. simpl in Hd1, Hp1.
      rewrite (__refresh_disabled vf vFov w1 Hd1), Hp1. by split.
    + destruct (H ltac:(intros x w' [H1 H2]; destruct (tex !! x) as [[t|]|];
                        simpl; by split) w (conj Hd eq_refl)) as [Hd1 Hp1].
      rewrite Hw1 in Hd1, Hp1. simpl in Hd1, Hp1. rewrite Hp1. by split.
  - rewrite (__refresh_disabled vf vFov w Hd). by split.
  - destruct (pending w !! k) as [f|] eqn:Hk; [|by split].
    pose proof (fetchDone_cases f (set_pending (delete k (pending w)) w)) as H.
    destruct (mesh (set_pending (delete k (pending w)) w)) as [id|];
      [destruct (texture (set_pending (delete k (pending w)) w)
                   (fetch_faceIdx f)) as [t|];
       [destruct (String.eqb (url t) (oldUrl f))|]|];
      rewrite H; simpl; (split; [exact Hd|apply sublist_delete]).
  - split; [exact Hd|apply sublist_delete].
Qed.

(** With dynamic loading switched off the adapter never asks for a better
    texture: whatever happens, the switch stays off and the requests in
    flight are among those that were in flight before, so with none in
    flight none ever is. *)
Theorem no_request_when_disabled (w : World) (evs : list Event) :
  dynamicLoadingEnabled w = false ->
  dynamicLoadingEnabled (steps evs w) = false
  /\ pending (steps evs w) `sublist_of` pending w
  /\ (pending w = [] -> pending (steps evs w) = []).
Proof.
  intros Hd.
  assert (H : dynamicLoadingEnabled (steps evs w) = false
              /\ pending (steps evs w) `sublist_of` pending w).
  { revert w Hd. induction evs as [|ev evs IH]; intros w Hd; simpl;
      [by split|].
    destruct (step_disabled ev w Hd) as [Hd' Hs].
    destruct (IH _ Hd') as [Hd'' Hs']. split; [exact Hd''|]. by etrans. }
  destruct H as [Hd' Hs]. repeat split; auto.
  intros Hp. rewrite Hp in Hs. by apply sublist_nil_r in Hs.
Qed.

End WithThree.

(** *** Runs of the model *)

#[local] Set Warnings "-inexact-float".

(** Stand-ins for three.js, used only to run the model on examples: a
    sphere segment of three vertices, and the viewer's radius. *)
Definition threeVertices (p : SphereParams) : Geometry :=
  {| position := [(radius p, 0, 0); (0, radius p, 0); (0, 0, radius p)]%float;
     uv := [(0, 1); (0.5, 0.5); (1, 0)]%float |}.

Definition viewerRadius : float := 10%float.

(** Two panoramas of the usual rig and one of a rig with longer side
    faces. *)
Definition carExtents : list float :=
  [1.614429558; 1.614429558; 1.614429558; 1.614429558]%float.

Definition panoA : PanoramaMetadata :=
  {| md_panorama := {| latitude_size := carExtents;
                       panorama_url := "/pano/A/" |};
     md_url := "/pano/A/" |}.

Definition panoB : PanoramaMetadata :=
  {| md_panorama := {| latitude_size := carExtents;
                       panorama_url := "/pano/B/" |};
     md_url := "/pano/B/" |}.

Definition panoTrekker : PanoramaMetadata :=
  {| md_panorama := {| latitude_size := [1.8; 1.8; 1.8; 1.8]%float;
                       panorama_url := "/pano/T/" |};
     md_url := "/pano/T/" |}.

(** The viewer opened on [panoA]. *)
Definition opened : World := boot threeVertices viewerRadius "" panoA.

(** [panoA] displayed, face 0 in view under a wide field of view: face 0
    is being upgraded to level 2. *)
Definition showingA : World :=
  display threeVertices viewerRadius panoA [0%nat] 60 opened.

Example showingA_pending :
  pending showingA
  = [ {| fetch_zoom := 2; fetch_faceIdx := 0;
         fetch_faceUrl := "/pano/A/2/0/"; oldUrl := "/pano/A/" |} ]
  /\ level showingA 0 = Some 5.
Proof. vm_compute. split; reflexivity. Qed.

(** The events of [showingA], of a navigation to [panoB] with face 0 in
    view, and of a return to [panoA] zoomed in. *)
Definition toA : list Event :=
  [ LoadTexture panoA;
    SetTexture (loadedTextures
                  (step threeVertices viewerRadius (LoadTexture panoA) opened))
      [0%nat] 60 ].

Definition toB (visibleFaces : list nat) : list Event :=
  [ LoadTexture panoB;
    SetTexture (loadedTextures
                  (step threeVertices viewerRadius (LoadTexture panoB) showingA))
      visibleFaces 60 ].

Definition backToA : list Event :=
  [ LoadTexture panoA;
    SetTexture (loadedTextures
                  (step threeVertices viewerRadius (LoadTexture panoA)
                     (steps threeVertices viewerRadius (toB []) showingA)))
      [0%nat] 50 ].

Example toA_showingA : steps threeVertices viewerRadius toA opened = showingA.
Proof. vm_compute. reflexivity. Qed.

(** Not C8 as stated: after a navigation, the request issued for face 0
    before it is still in flight when the new panorama's face 0 gets a
    request of its own. *)
Lemma second_request_after_navigation :
  ~ (forall (evs : list Event) (faceIdx : nat),
       (inFlightFor faceIdx
          (pending (steps threeVertices viewerRadius evs opened)) <= 1)%nat).
Proof.
  intros H. specialize (H (toA ++ toB [0%nat]) 0%nat).
  vm_compute in H. lia.
Qed.

(** Not C9 as stated: [panoA] is left for [panoB] and displayed again
    while the request issued for face 0 during the first visit (level 2)
    is still in flight.  Zoomed in, face 0 is upgraded to level 0; the old
    request then resolves, finds the [url] of [panoA] in the slot, and
    puts its level 2 texture there. *)
Lemma stale_request_raises_level :
  ~ (forall (evs : list Event) (ev : Event) (faceIdx : nat) (z z' : Z),
       let w := steps threeVertices viewerRadius evs opened in
       navigates ev = false ->
       (forall i t, texture w i = Some t -> url t = this_url w) ->
       level w faceIdx = Some z ->
       level (step threeVertices viewerRadius ev w) faceIdx = Some z' ->
       z' <= z).
Proof.
  intros H.
  specialize (H (toA ++ toB [] ++ backToA ++ [FetchDone 1]) (FetchDone 0)
                0%nat 0 2).
  cbv zeta in H.
  assert (2 <= 0); [|lia].
  apply H.
  - reflexivity.
  - intros i t. destruct i as [|[|[|[|[|[|i]]]]]]; vm_compute;
      intros [= <-]; reflexivity.
  - vm_compute. reflexivity.
  - vm_compute. reflexivity.
Qed.

Lemma opened_wf : wf opened.
Proof. apply wf_boot. Qed.

Lemma mesh_reused_or_rebuilt_witness :
  exists (requests : list (Z * nat * string)) (w' : World),
    loadTexture threeVertices viewerRadius panoTrekker opened
    = (Ok requests, w')
    /\ renderer_mesh w' <> renderer_mesh opened
    /\ mesh w' = Some (renderer_mesh w').
Proof.
  destruct (mesh_reused_or_rebuilt threeVertices viewerRadius panoTrekker
              opened opened_wf) as (requests & w' & Hrun & _ & Hcase).
  exists requests, w'. split; [exact Hrun|].
  assert (E : strict_eq_opt (previousThetaLength opened)
                (latitude_size (md_panorama panoTrekker) !! 0%nat) = false)
    by (vm_compute; reflexivity).
  rewrite E in Hcase. destruct Hcase as (H1 & _ & H2 & _). by split.
Defined.

Lemma opened_face0 :
  faces (panorama opened) (viewerRadius * 1)%float !! 0%nat
  = Some {| radius := 10; widthSegments := 24; heightSegments := 32;
            phiStart := degToRad (0 - 90); phiLength := degToRad 120;
            thetaStart := (degToRad 28 - (1.614429558 - 1.614429558) / 2)%float;
            thetaLength := Some 1.614429558%float |}.
Proof. vm_compute. reflexivity. Qed.

Lemma side_uv_trimmed_witness :
  exists geom : Geometry,
    (meshes (snd (createMesh threeVertices viewerRadius 1 opened))
       !! fresh opened) ≫= (fun m => geometry m !! 0%nat) = Some geom
    /\ uv geom = [(0, 1); (0.47727271914482117, 0.5);
                  (0.9545454382896423, 0)]%float.
Proof.
  destruct (side_uv_trimmed threeVertices viewerRadius opened 1 0 _
              opened_face0)
    as (k & m & geom & Hm & _ & Hg & Huv & _ & Hk & _).
  exists geom. rewrite Hm; simpl. split; [exact Hg|].
  destruct (Hk (or_introl eq_refl)) as (_ & -> & _). rewrite Huv.
  vm_compute. reflexivity.
Defined.

(** Not C7 as stated: on the wide face 0 the vertex whose U is 1 gets the
    single nearest to [1 - 1/22], which is below it; V is kept. *)
Lemma unit_u_stored_in_single :
  uv (threeVertices
        {| radius := 10; widthSegments := 24; heightSegments := 32;
           phiStart := degToRad (0 - 90); phiLength := degToRad 120;
           thetaStart := (degToRad 28 - (1.614429558 - 1.614429558) / 2)%float;
           thetaLength := Some 1.614429558%float |}) !! 2%nat
  = Some (1, 0)%float
  /\ ((meshes (snd (createMesh threeVertices viewerRadius 1 opened))
         !! fresh opened) ≫= (fun m => geometry m !! 0%nat))
       ≫= (fun geom => uv geom !! 2%nat)
     = Some (0.9545454382896423, 0)%float
  /\ (0.9545454382896423 =? 1 - 1 / 22)%float = false
  /\ (0.9545454382896423 <? 1 - 1 / 22)%float = true.
Proof. vm_compute. repeat split; reflexivity. Qed.

(** [panoA] displayed with no face in view: nothing is in flight. *)
Definition idleA : World :=
  display threeVertices viewerRadius panoA [] 60 opened.

Lemma idleA_settled : settled idleA.
Proof.
  split.
  - intros i t. destruct i as [|[|[|[|[|[|i]]]]]]; vm_compute;
      intros [= <-]; reflexivity.
  - intros f Hf. vm_compute in Hf. inversion Hf.
Qed.

Lemma idleA_refreshed :
  forallb (fun e => negb (navigates e)) ([Refresh [0%nat] 60] ++ [FetchDone 0])
  = true
  /\ level (steps threeVertices viewerRadius [Refresh [0%nat] 60] idleA) 0
     = Some 5.
Proof. vm_compute. split; reflexivity. Qed.

Lemma level_never_rises_witness :
  exists z' : Z,
    level (steps threeVertices viewerRadius
             ([Refresh [0%nat] 60] ++ [FetchDone 0]) idleA) 0 = Some z'
    /\ z' <= 5.
Proof.
  destruct (level_never_rises threeVertices viewerRadius idleA
              [Refresh [0%nat] 60] (FetchDone 0) 0 5 idleA_settled
              (proj1 idleA_refreshed) (proj2 idleA_refreshed))
    as [(z' & Hz' & Hle & _) _].
  exists z'. by split.
Defined.

(** *** Runs for the properties above *)

Lemma opened_shaped :
  shaped opened /\ dynamicLoadingEnabled opened = true /\ pending opened = [].
Proof. split; [apply shaped_boot|]. split; reflexivity. Qed.

Lemma showingA_trekker :
  strict_eq_opt (previousThetaLength showingA)
    (latitude_size (md_panorama panoTrekker) !! 0%nat) = false.
Proof. vm_compute. reflexivity. Qed.

Lemma request_across_rebuild_throws_witness :
  fetchDone
    {| fetch_zoom := 2; fetch_faceIdx := 0; fetch_faceUrl := "/pano/A/2/0/";
       oldUrl := "/pano/A/" |}
    (snd (loadTexture threeVertices viewerRadius panoTrekker showingA))
  = (Throw TypeError,
     snd (loadTexture threeVertices viewerRadius panoTrekker showingA)).
Proof.
  exact (proj1 (proj2
    (request_across_rebuild_throws threeVertices viewerRadius panoTrekker
       showingA
       {| fetch_zoom := 2; fetch_faceIdx := 0; fetch_faceUrl := "/pano/A/2/0/";
          oldUrl := "/pano/A/" |}
       showingA_trekker))).
Defined.

(** [showingA] after its request for face 0 was rejected. *)
Definition failedA : World :=
  step threeVertices viewerRadius (FetchFailed 0) showingA.

Lemma failedA_stuck :
  texture failedA 0
  = Some {| image := "/pano/A/5/0/"; zoom := 5; url := "/pano/A/";
            refreshing := true |}
  /\ inFlightFor 0 (pending failedA) = 0%nat
  /\ quiet [Refresh [0%nat] 50; Refresh [0%nat; 1%nat] 60; FetchDone 0].
Proof. vm_compute. repeat split; reflexivity. Qed.

Lemma rejected_upgrade_is_final_witness :
  texture (steps threeVertices viewerRadius
             [Refresh [0%nat] 50; Refresh [0%nat; 1%nat] 60; FetchDone 0]
             failedA) 0
  = Some {| image := "/pano/A/5/0/"; zoom := 5; url := "/pano/A/";
            refreshing := true |}
  /\ inFlightFor 0
       (pending (steps threeVertices viewerRadius
                   [Refresh [0%nat] 50; Refresh [0%nat; 1%nat] 60; FetchDone 0]
                   failedA)) = 0%nat.
Proof.
  destruct failedA_stuck as (Ht & Hp & Hq).
  exact (rejected_upgrade_is_final threeVertices viewerRadius failedA
           [Refresh [0%nat] 50; Refresh [0%nat; 1%nat] 60; FetchDone 0] 0 _
           Ht eq_refl Hp Hq).
Defined.

Lemma display_installs_witness :
  this_url (display threeVertices viewerRadius panoB [0%nat] 60 opened)
  = "/pano/B/"
  /\ exists t : Texture,
       texture (display threeVertices viewerRadius panoB [0%nat] 60 opened) 1
       = Some t
       /\ zoom t = 5 /\ url t = "/pano/B/" /\ image t = "/pano/B/5/1/".
Proof.
  destruct (display_installs threeVertices viewerRadius panoB [0%nat] 60
              opened 1 (proj1 opened_shaped) ltac:(lia))
    as (Hu & _ & t & Ht & Hz & Hurl & Hi).
  split; [exact Hu|]. exists t. repeat split; assumption.
Defined.

Lemma upgrade_cycle_witness :
  texture (step threeVertices viewerRadius (FetchDone 0)
             (display threeVertices viewerRadius panoB [2%nat] 50 opened)) 2
  = Some {| image := "" +:+ "/pano/B/" +:+ pretty 0 +:+ "/" +:+ pretty 2%nat
                     +:+ "/";
            zoom := 0; url := "/pano/B/"; refreshing := false |}.
Proof.
  destruct (upgrade_cycle threeVertices viewerRadius panoB 50 opened 2
              (proj1 opened_shaped) (proj1 (proj2 opened_shaped))
              (proj2 (proj2 opened_shaped)) ltac:(lia))
    as (_ & Ht & _).
  exact Ht.
Defined.

(** The viewer showing [panoA] with nothing in flight and dynamic loading
    switched off. *)
Definition staticA : World :=
  {| endpoint := endpoint idleA; panorama := panorama idleA;
     this_url := this_url idleA;
     previousThetaLength := previousThetaLength idleA;
     dynamicLoadingEnabled := false;
     mesh := mesh idleA; meshesForFrustum := meshesForFrustum idleA;
     meshes := meshes idleA; fresh := fresh idleA;
     renderer_mesh := renderer_mesh idleA;
     renderer_meshContainer := renderer_meshContainer idleA;
     scene := scene idleA;
     pending := pending idleA; needsUpdate := needsUpdate idleA |}.

Lemma staticA_pending : pending staticA = [].
Proof. vm_compute. reflexivity. Qed.

Lemma no_request_when_disabled_witness :
  pending (steps threeVertices viewerRadius
             [Refresh [0%nat; 1%nat] 50; LoadTexture panoB; Refresh [0%nat] 60]
             staticA) = [].
Proof.
  exact (proj2 (proj2 (no_request_when_disabled threeVertices viewerRadius
                         staticA
                         [Refresh [0%nat; 1%nat] 50; LoadTexture panoB;
                          Refresh [0%nat] 60]
                         eq_refl))
           staticA_pending).
Defined.

End Adapter.

(* ===================================================================== *)
(** ** The page's address ([main.js]) *)

Module Main.

Import Stdlib.Strings.Ascii.

(** A value of the objects [parseHashParams] builds: the defaults are
    numbers, what comes out of the address is text, and an array read past
    its end gives [undefined]. *)
Inductive value : Type :=
| Num (n : Z)
| Str (s : string)
| Undefined.

(** [s.split(sep)] for a separator of one character. *)
Fixpoint split (sep : Ascii.ascii) (s : string) : list string :=
  match s with
  | EmptyString => [EmptyString]
  | String c rest =>
      if Ascii.eqb c sep then EmptyString :: split sep rest
      else match split sep rest with
           | x :: xs => String c x :: xs
           | [] => [String c EmptyString]
           end
  end.

(** [array[i]]. *)
Definition at_index (l : list string) (i : nat) : value :=
  match l !! i with
  | Some s => Str s
  | None => Undefined
  end.

Record Center : Type := {
  zoom : value;
  latitude : value;
  longitude : value;
}.

Record PanoRef : Type := {
  pano_latitude : value;
  pano_longitude : value;
}.

(** [parseHashParams()], given what [URLSearchParams] finds in the
    address: [params !! k] is [params.get(k)] and is [None] when
    [params.has(k)] is false.  The result is [{ center, pano }]. *)
Definition parseHashParams (params : gmap string string)
  : Center * option PanoRef :=
  let center :=
    match params !! "c"%string with
    | Some c =>
        let centerParams := split "/"%char c in
        {| zoom := at_index centerParams 0;
           latitude := at_index centerParams 1;
           longitude := at_index centerParams 2 |}
    | None => {| zoom := Num 3; latitude := Num 20; longitude := Num 0 |}
    end in
  let pano :=
    match params !! "p"%string with
    | Some p =>
        let panoParams := split "/"%char p in
        Some {| pano_latitude := at_index panoParams 0;
                pano_longitude := at_index panoParams 1 |}
    | None => None
    end in
  (center, pano).

(** The values [updateHashParams] writes under [c] and [p], from the
    texts of the zoom and of the coordinates ([toFixed(5)]). *)
Definition centerValue (zoom lat lng : string) : string :=
  zoom +:+ "/" +:+ lat +:+ "/" +:+ lng.

Definition panoValue (lat lon : string) : string :=
  lat +:+ "/" +:+ lon.

(** The text has no [sep] in it. *)
Fixpoint free_of (sep : Ascii.ascii) (s : string) : bool :=
  match s with
  | EmptyString => true
  | String c rest => negb (Ascii.eqb c sep) && free_of sep rest
  end.

Lemma append_cons (x : Ascii.ascii) (a b : string) :
  String x a +:+ b = String x (a +:+ b).
Proof. reflexivity. Qed.

Lemma append_assoc (a b c : string) : (a +:+ b) +:+ c = a +:+ b +:+ c.
Proof.
  induction a as [|x a IH]; [reflexivity|].
  by rewrite !append_cons, IH.
Qed.

Lemma split_ne (sep : Ascii.ascii) (s : string) : split sep s <> [].
Proof.
  destruct s as [|c rest]; simpl; [discriminate|].
  destruct (Ascii.eqb c sep); [discriminate|].
  destruct (split sep rest); discriminate.
Qed.

Lemma split_free (sep : Ascii.ascii) (s : string) :
  free_of sep s = true -> split sep s = [s].
Proof.
  induction s as [|c rest IH]; simpl; [reflexivity|].
  intros H. apply andb_true_iff in H as [Hc Hr].
  apply negb_true_iff in Hc. rewrite Hc, (IH Hr). reflexivity.
Qed.

Lemma split_app (sep : Ascii.ascii) (a b : string) :
  free_of sep a = true ->
  split sep (a +:+ String sep EmptyString +:+ b) = a :: split sep b.
Proof.
  change (String sep EmptyString +:+ b) with (String sep b).
  induction a as [|c rest IH].
  - intros _. change (EmptyString +:+ String sep b) with (String sep b).
    simpl. by rewrite Ascii.eqb_refl.
  - intros H. simpl in H. apply andb_true_iff in H as [Hc Hr].
    apply negb_true_iff in Hc. rewrite append_cons. simpl.
    rewrite Hc, (IH Hr). reflexivity.
Qed.

(** What [updateHashParams] writes, [parseHashParams] reads back: for
    texts without a slash, the centre is the three texts written under [c]
    and the panorama the two written under [p] (as text, not as numbers);
    without [p] there is no panorama. *)
Theorem parseHashParams_reads_back (params : gmap string string)
    (zoom lat lng : string) :
  free_of "/"%char zoom = true -> free_of "/"%char lat = true -> free_of "/"%char lng = true ->
  params !! "c"%string = Some (centerValue zoom lat lng) ->
  fst (parseHashParams params)
  = {| Main.zoom := Str zoom; latitude := Str lat; longitude := Str lng |}
  /\ (forall plat plon : string,
        free_of "/"%char plat = true -> free_of "/"%char plon = true ->
        params !! "p"%string = Some (panoValue plat plon) ->
        snd (parseHashParams params)
        = Some {| pano_latitude := Str plat; pano_longitude := Str plon |})
  /\ (params !! "p"%string = None -> snd (parseHashParams params) = None).
Proof.
  intros Hz Hla Hlo Hc. unfold parseHashParams. rewrite Hc. simpl.
  split; [|split].
  - unfold centerValue.
    rewrite (split_app "/"%char zoom _ Hz), (split_app "/"%char lat _ Hla),
      (split_free "/"%char lng Hlo). reflexivity.
  - intros plat plon Hpa Hpo ->. unfold panoValue.
    rewrite (split_app "/"%char plat _ Hpa), (split_free "/"%char plon Hpo). reflexivity.
  - intros ->. reflexivity.
Qed.

Lemma parseHashParams_reads_back_witness :
  fst (parseHashParams {[ "c"%string := "16/48.00000/11.00000"%string ]})
  = {| zoom := Str "16"; latitude := Str "48.00000";
       longitude := Str "11.00000" |}.
Proof.
  refine (proj1 (parseHashParams_reads_back
                   {[ "c"%string := "16/48.00000/11.00000"%string ]}
                   "16" "48.00000" "11.00000" _ _ _ _)); reflexivity.
Defined.

(** [parseHashParams] takes whatever text it finds: with a [c] of fewer
    than three parts the missing coordinates are [undefined], parts past
    the third are dropped, and an address without [c] gives the default
    centre. *)
Theorem parseHashParams_partial (params : gmap string string) :
  (params !! "c"%string = None ->
   fst (parseHashParams params)
   = {| zoom := Num 3; latitude := Num 20; longitude := Num 0 |})
  /\ (forall c : string,
        params !! "c"%string = Some c -> free_of "/"%char c = true ->
        fst (parseHashParams params)
        = {| zoom := Str c; latitude := Undefined; longitude := Undefined |})
  /\ (forall zoom lat lng more : string,
        free_of "/"%char zoom = true -> free_of "/"%char lat = true ->
        free_of "/"%char lng = true ->
        params !! "c"%string
          = Some (centerValue zoom lat lng +:+ "/" +:+ more) ->
        fst (parseHashParams params)
        = {| Main.zoom := Str zoom; latitude := Str lat;
             longitude := Str lng |}).
Proof.
  unfold parseHashParams. split; [|split].
  - intros ->. reflexivity.
  - intros c -> Hc. simpl. by rewrite (split_free "/"%char c Hc).
  - intros zoom lat lng more Hz Hla Hlo ->. simpl.
    unfold centerValue. rewrite !append_assoc.
    rewrite (split_app "/"%char zoom _ Hz), (split_app "/"%char lat _ Hla),
      (split_app "/"%char lng _ Hlo).
    pose proof (split_ne "/"%char more) as Hne.
    destruct (split "/"%char more); [contradiction|].
    reflexivity.
Qed.

End Main.
